(** * myShell: tokenizer, pipeline splitter, command builder, executor

    A shallow embedding of [src/parser.c], [src/executor.c] and
    [src/myshell.c].  C strings are [string]s (the tokenizer's working buffer
    is a [list ascii]), NULL-terminated arrays are lists, [int] indices are
    [nat], file descriptors are [Z] (with [-1] for "none", as in the
    [Command] struct).  The operating system is an explicit [world] that the
    system calls [open], [close], [dup2], [pipe], [fork] and [waitpid] read
    and update.  [malloc]/[strdup] are taken to succeed; the heap is not
    modelled. *)

From Stdlib Require Import ZArith Ascii String.
From stdpp Require Import gmap strings list fin_maps.

Local Open Scope string_scope.
Local Open Scope list_scope.

(* ===================================================================== *)
(** * Tokenizer ([parse_input], parser.c) *)
(* ===================================================================== *)

Module Tokenizer.

(** [isspace] in the C locale: space, \t, \n, \v, \f, \r. *)
Definition isspace (c : ascii) : bool :=
  let n := nat_of_ascii c in
  ((n =? 32) || ((9 <=? n) && (n <=? 13)))%nat.

(** The test for a double or a single quote character (codes 34, 39). *)
Definition is_quote (c : ascii) : bool :=
  let n := nat_of_ascii c in ((n =? 34) || (n =? 39))%nat.

Definition NUL : ascii := zero.

(** [input_copy[i]]: the buffer holds [len = length buf] characters followed
    by the terminating NUL, which is what an index [>= len] reads. *)
Definition char_at (buf : list ascii) (i : nat) : ascii := nth i buf NUL.

(** [memmove(&input_copy[i], &input_copy[i + 1], len - i); len--;]
    deletes the character at [i]; the terminator moves with the tail. *)
Definition memmove_del (buf : list ascii) (i : nat) : list ascii :=
  take i buf ++ drop (S i) buf.

(** [while (i < len && isspace(input_copy[i])) i++;] *)
Fixpoint skip_space (fuel : nat) (buf : list ascii) (i : nat) : nat :=
  match fuel with
  | O => i
  | S fuel' =>
      if (i <? length buf)%nat && isspace (char_at buf i)
      then skip_space fuel' buf (S i)
      else i
  end.

(** The "find end of token" loop.  Returns the buffer (quotes deleted in
    place) and the index where the token ends. *)
Fixpoint find_end (fuel : nat) (buf : list ascii) (i : nat)
    (in_quotes : bool) (quote_char : ascii) : list ascii * nat :=
  match fuel with
  | O => (buf, i)
  | S fuel' =>
      if (i <? length buf)%nat then
        let c := char_at buf i in
        if is_quote c && negb in_quotes then
          find_end fuel' (memmove_del buf i) i true c
        else if is_quote c && Ascii.eqb c quote_char then
          find_end fuel' (memmove_del buf i) i false quote_char
        else if negb in_quotes && isspace c then (buf, i)
        else find_end fuel' buf (S i) in_quotes quote_char
      else (buf, i)
  end.

(** [strncpy(tokens[position], &input_copy[start], token_len)]. *)
Definition substring (buf : list ascii) (start len : nat) : string :=
  string_of_list_ascii (take len (drop start buf)).

(** The outer [while (i < len)] loop; [tokens] is the array filled so far. *)
Fixpoint tokenize (fuel : nat) (buf : list ascii) (i : nat)
    (tokens : list string) : list string :=
  match fuel with
  | O => tokens
  | S fuel' =>
      if (i <? length buf)%nat then
        let i := skip_space (length buf) buf i in
        if (length buf <=? i)%nat then tokens
        else
          let start := i in
          let '(buf, i) := find_end (length buf) buf i false NUL in
          let token_len := (i - start) in
          let tokens :=
            if (0 <? token_len)%nat
            then tokens ++ [substring buf start token_len]
            else tokens in
          let i := skip_space (length buf) buf i in
          if Ascii.eqb (char_at buf i) ">" && Ascii.eqb (char_at buf (S i)) ">"
          then tokenize fuel' buf (i + 2) (tokens ++ [">>"])
          else tokenize fuel' buf i tokens
      else tokens
  end.

(** [parse_input].  Every inner loop strictly shrinks [len - i] and so does
    every round of the outer loop, so [length input] rounds are enough. *)
Definition parse_input (input : string) : list string :=
  let buf := list_ascii_of_string input in
  tokenize (S (length buf)) buf 0 [].

(** Characters that neither end a token nor are deleted from it. *)
Definition plain (c : ascii) : bool := negb (isspace c) && negb (is_quote c).

(** A non-empty word made of [plain] characters only. *)
Definition plain_word (w : string) : bool :=
  forallb plain (list_ascii_of_string w) && negb (String.eqb w "").

End Tokenizer.


(* ===================================================================== *)
(** * Diagnostics *)
(* ===================================================================== *)

(** What the shell and its children write to stderr.  A function that
    prints one of these and returns NULL is modelled as returning it. *)
Inductive diag : Type :=
  | MissingCommand           (* myshell: syntax error: missing command *)
  | MissingCommandAfterPipe  (* myshell: syntax error: missing command after pipe *)
  | MissingRedirectTarget    (* ... missing file for redirection, and the
                                missing output / error / input file of
                                setup_redirection *)
  | TooManyPipes             (* myshell: too many pipes *)
  | NotFound (file : string) (* myshell: FILE: No such file or directory *)
  | SysError                 (* perror(myshell) after open or dup2 *)
  | PipeFailed               (* perror(myshell: pipe) *)
  | ForkFailed               (* perror(myshell: fork), perror(myshell) *)
  | Dup2Failed               (* perror(myshell: dup2) *)
  | CdMissingArg             (* myshell: expected argument to cd *)
  | CdFailed (dir : string). (* cd: ...: DIR *)

(** The SyntaxError kinds of the specification. *)
Definition is_syntax_error (d : diag) : bool :=
  match d with
  | MissingCommand | MissingCommandAfterPipe
  | MissingRedirectTarget | TooManyPipes => true
  | _ => false
  end.

(** [strcmp(a, b) == 0]. *)
Definition streq (a b : string) : bool := String.eqb a b.

(* ===================================================================== *)
(** * Pipeline splitter ([split_pipeline], parser.c) *)
(* ===================================================================== *)

Module Splitter.

Definition max_cmds : nat := 10.

(** The [strdup] loop copying [tokens[start .. start + cmd_len)]. *)
Definition copy_tokens (tokens : list string) (start cmd_len : nat)
  : list string := take cmd_len (drop start tokens).

(** The [for (i = 0; tokens[i] != NULL; i++)] loop.  [rest] is the array
    from index [i] on, so [rest = []] is [tokens[i] == NULL] and its tail
    being empty is [tokens[i+1] == NULL]; [commands] is the array of
    segments copied so far and [*cmd_count] its length.  The loop ends with
    an error, or with the final [(i, start, commands)]. *)
Fixpoint split_loop (tokens rest : list string) (i start : nat)
    (commands : list (list string))
  : diag + (nat * nat * list (list string)) :=
  match rest with
  | [] => inr (i, start, commands)
  | t :: rest' =>
      if streq t "|" then
        if (i =? start)%nat || (i <=? start)%nat then inl MissingCommand
        else if bool_decide (rest' = []) then inl MissingCommandAfterPipe
        else
          let cmd_len := (i - start)%nat in
          let commands := commands ++ [copy_tokens tokens start cmd_len] in
          if (max_cmds <=? length commands)%nat then inl TooManyPipes
          else split_loop tokens rest' (S i) (S i) commands
      else split_loop tokens rest' (S i) start commands
  end.

(** [split_pipeline]: the returned list is the array [commands], its length
    the value stored in [*cmd_count]. *)
Definition split_pipeline (tokens : list string)
  : diag + list (list string) :=
  match split_loop tokens tokens 0 0 [] with
  | inl d => inl d
  | inr (i, start, commands) =>
      if (i <=? start)%nat then inl MissingCommand
      else inr (commands ++ [copy_tokens tokens start (i - start)])
  end.

(** The segments written back as one token sequence, a pipe token between
    consecutive segments. *)
Fixpoint join_pipeline (segs : list (list string)) : list string :=
  match segs with
  | [] => []
  | [s] => s
  | s :: segs' => s ++ "|" :: join_pipeline segs'
  end.

(** Complete segments, each one closed by its pipe token. *)
Definition join_trailing (segs : list (list string)) : list string :=
  concat (map (fun s => s ++ ["|"]) segs).

(** A segment as the splitter guarantees it: non-empty, no pipe token. *)
Definition good_segment (s : list string) : Prop :=
  s <> [] /\ "|" ∉ s.

End Splitter.

(* ===================================================================== *)
(** * The operating system *)
(* ===================================================================== *)

Module OS.

Local Open Scope Z_scope.

(** The three ways the shell opens a file: [O_RDONLY],
    [O_WRONLY | O_CREAT | O_TRUNC] and [O_WRONLY | O_CREAT | O_APPEND]. *)
Inductive oflag : Type := RdOnly | WrTrunc | WrAppend.

(** What a descriptor refers to. *)
Inductive ofile : Type :=
  | Terminal
  | OpenFile (path : string) (fl : oflag)
  | PipeRead (p : nat)
  | PipeWrite (p : nat).

(** A descriptor table. *)
Abbreviation fdtable := (gmap Z ofile).

Definition STDIN_FILENO : Z := 0.
Definition STDOUT_FILENO : Z := 1.
Definition STDERR_FILENO : Z := 2.

(** How a forked child ended its part of the shell's code: it called
    [execvp] with this argument vector and this descriptor table, or it
    called [exit(EXIT_FAILURE)] before.  What the executed program does,
    and a failing [execvp], are outside the model. *)
Inductive outcome : Type :=
  | Execvp (args : list string) (fds : fdtable)
  | ExitFailure.

Record child : Type := Child { pid : Z; did : outcome }.

Record world : Type := World {
  files : gmap string string;   (* regular files, by the name given to open *)
  write_denied : gset string;   (* names that cannot be opened for writing *)
  fdt : fdtable;                (* descriptor table of the running process *)
  nofile : Z;                   (* descriptors are below this limit *)
  nproc : nat;                  (* processes fork may still create *)
  npipes : nat;                 (* pipes created so far *)
  procs : list child;           (* children forked so far, oldest first *)
  reaped : list Z;              (* pids collected by waitpid *)
  err : list diag;              (* stderr, oldest first *)
  cwd : string;
  dirs : gset string;           (* names chdir accepts *)
  exited : bool;                (* the shell called exit *)
  heap_fault : bool             (* free or close ran on freed or
                                   uninitialised memory *)
}.

Definition set_files (f : gmap string string) (w : world) : world :=
  World f (write_denied w) (fdt w) (nofile w) (nproc w) (npipes w) (procs w)
        (reaped w) (err w) (cwd w) (dirs w) (exited w) (heap_fault w).
Definition set_fdt (t : fdtable) (w : world) : world :=
  World (files w) (write_denied w) t (nofile w) (nproc w) (npipes w) (procs w)
        (reaped w) (err w) (cwd w) (dirs w) (exited w) (heap_fault w).
Definition set_nproc (n : nat) (w : world) : world :=
  World (files w) (write_denied w) (fdt w) (nofile w) n (npipes w) (procs w)
        (reaped w) (err w) (cwd w) (dirs w) (exited w) (heap_fault w).
Definition set_npipes (n : nat) (w : world) : world :=
  World (files w) (write_denied w) (fdt w) (nofile w) (nproc w) n (procs w)
        (reaped w) (err w) (cwd w) (dirs w) (exited w) (heap_fault w).
Definition set_procs (l : list child) (w : world) : world :=
  World (files w) (write_denied w) (fdt w) (nofile w) (nproc w) (npipes w) l
        (reaped w) (err w) (cwd w) (dirs w) (exited w) (heap_fault w).
Definition set_reaped (l : list Z) (w : world) : world :=
  World (files w) (write_denied w) (fdt w) (nofile w) (nproc w) (npipes w)
        (procs w) l (err w) (cwd w) (dirs w) (exited w) (heap_fault w).
Definition set_err (l : list diag) (w : world) : world :=
  World (files w) (write_denied w) (fdt w) (nofile w) (nproc w) (npipes w)
        (procs w) (reaped w) l (cwd w) (dirs w) (exited w) (heap_fault w).
Definition set_cwd (d : string) (w : world) : world :=
  World (files w) (write_denied w) (fdt w) (nofile w) (nproc w) (npipes w)
        (procs w) (reaped w) (err w) d (dirs w) (exited w) (heap_fault w).
Definition set_exited (b : bool) (w : world) : world :=
  World (files w) (write_denied w) (fdt w) (nofile w) (nproc w) (npipes w)
        (procs w) (reaped w) (err w) (cwd w) (dirs w) b (heap_fault w).
Definition set_heap_fault (b : bool) (w : world) : world :=
  World (files w) (write_denied w) (fdt w) (nofile w) (nproc w) (npipes w)
        (procs w) (reaped w) (err w) (cwd w) (dirs w) (exited w) b.

(** [fprintf(stderr, ...)] and [perror]. *)
Definition report (d : diag) (w : world) : world := set_err (err w ++ [d]) w.

(** The lowest descriptor not in use, which is what [open] and [pipe]
    hand out.  A table with [n] entries has a free slot among [0 .. n]. *)
Fixpoint first_free (t : fdtable) (fuel : nat) (n : Z) : Z :=
  match fuel with
  | O => n
  | S fuel' => match t !! n with
               | None => n
               | Some _ => first_free t fuel' (n + 1)
               end
  end.

Definition lowest_free (t : fdtable) : Z := first_free t (size t) 0.

(** [open(path, flags)]: the new descriptor, or [-1].  Reading needs the
    file to exist; writing creates it when absent, and [WrTrunc] empties
    it. *)
Definition open (path : string) (fl : oflag) (w : world) : Z * world :=
  let fd := lowest_free (fdt w) in
  if bool_decide (nofile w <= fd) then (-1, w)
  else
    let opened := set_fdt (<[fd := OpenFile path fl]> (fdt w)) in
    match fl with
    | RdOnly =>
        match files w !! path with
        | Some _ => (fd, opened w)
        | None => (-1, w)
        end
    | WrTrunc =>
        if bool_decide (path ∈ write_denied w) then (-1, w)
        else (fd, opened (set_files (<[path := ""]> (files w)) w))
    | WrAppend =>
        if bool_decide (path ∈ write_denied w) then (-1, w)
        else
          match files w !! path with
          | Some _ => (fd, opened w)
          | None => (fd, opened (set_files (<[path := ""]> (files w)) w))
          end
    end.

(** [close(fd)]; closing a descriptor that is not open changes nothing. *)
Definition close (fd : Z) (w : world) : world :=
  set_fdt (delete fd (fdt w)) w.

(** [dup2(oldfd, newfd)]: [newfd], or [-1] when [oldfd] is not open. *)
Definition dup2 (oldfd newfd : Z) (w : world) : Z * world :=
  match fdt w !! oldfd with
  | Some f => (newfd, set_fdt (<[newfd := f]> (fdt w)) w)
  | None => (-1, w)
  end.

(** [pipe(fds)]: the read and the write end, or nothing when two more
    descriptors do not fit below the limit. *)
Definition pipe (w : world) : option (Z * Z) * world :=
  let r := lowest_free (fdt w) in
  let t := <[r := PipeRead (npipes w)]> (fdt w) in
  let wr := lowest_free t in
  if bool_decide (nofile w <= wr) then (None, w)
  else
    (Some (r, wr),
     set_npipes (S (npipes w)) (set_fdt (<[wr := PipeWrite (npipes w)]> t) w)).

(** [fork()].  The child runs [body] on its own copy of the descriptor
    table; what it does to files and stderr is shared with the parent, its
    descriptor table is not.  The parent gets the new pid, or [-1] when no
    process can be created. *)
Definition fork (body : world -> outcome * world) (w : world) : Z * world :=
  match nproc w with
  | O => (-1, w)
  | S n =>
      let p := 1 + Z.of_nat (length (procs w)) in
      let '(o, wc) := body w in
      (p, set_procs (procs w ++ [Child p o])
            (set_nproc n (set_fdt (fdt w) wc)))
  end.

(** [waitpid(pid, &status, ...)] until the child has exited. *)
Definition waitpid (p : Z) (w : world) : world :=
  set_nproc (S (nproc w)) (set_reaped (reaped w ++ [p]) w).

(** The shell's children that nobody has waited for. *)
Definition unreaped (w : world) : list Z :=
  filter (fun p => p ∉ reaped w) (map pid (procs w)).

End OS.

Import Tokenizer Splitter OS.

(* ===================================================================== *)
(** * Command builder ([parse_command], parser.c) *)
(* ===================================================================== *)

Module Builder.

Local Open Scope Z_scope.

(** The [Command] struct of executor.h. *)
Record Command : Type := mkCommand {
  args : list string;
  input_fd : Z;
  output_fd : Z;
  error_fd : Z
}.

(** The operators [parse_command] knows. *)
Definition is_redirect (t : string) : bool :=
  streq t "<" || streq t ">" || streq t "2>".

(** First loop: count the tokens that are not redirections.  An operator in
    the last position is an error; otherwise the operator and the token
    after it are skipped.  The count is positive exactly when [has_command]
    is set. *)
Fixpoint count_args (seg : list string) : diag + nat :=
  match seg with
  | [] => inr O
  | t :: rest =>
      if is_redirect t then
        match rest with
        | [] => inl MissingRedirectTarget
        | _ :: rest' => count_args rest'
        end
      else
        match count_args rest with
        | inl d => inl d
        | inr n => inr (S n)
        end
  end.

(** Second loop: open the redirection targets and collect the arguments.
    On a failed [open] the struct is freed and NULL returned; nothing is
    closed.  (The first loop has excluded an operator without a following
    token, for which [tokens[i]] would be the terminating NULL.) *)
Fixpoint build_args (seg : list string) (cmd : Command) (w : world)
  : (diag + Command) * world :=
  match seg with
  | [] => (inr cmd, w)
  | t :: rest =>
      if streq t "<" then
        match rest with
        | [] => (inl (NotFound ""), w)
        | file :: rest' =>
            let '(fd, w) := open file RdOnly w in
            if fd <? 0 then (inl (NotFound file), w)
            else build_args rest'
                   (mkCommand (args cmd) fd (output_fd cmd) (error_fd cmd)) w
        end
      else if streq t ">" then
        match rest with
        | [] => (inl SysError, w)
        | file :: rest' =>
            let '(fd, w) := open file WrTrunc w in
            if fd <? 0 then (inl SysError, w)
            else build_args rest'
                   (mkCommand (args cmd) (input_fd cmd) fd (error_fd cmd)) w
        end
      else if streq t "2>" then
        match rest with
        | [] => (inl SysError, w)
        | file :: rest' =>
            let '(fd, w) := open file WrTrunc w in
            if fd <? 0 then (inl SysError, w)
            else build_args rest'
                   (mkCommand (args cmd) (input_fd cmd) (output_fd cmd) fd) w
        end
      else
        build_args rest
          (mkCommand (args cmd ++ [t]) (input_fd cmd) (output_fd cmd)
                     (error_fd cmd)) w
  end.

(** [parse_command(tokens, start, end)].  The diagnostic is printed by the
    function itself. *)
Definition parse_command (tokens : list string) (start end_ : nat) (w : world)
  : option Command * world :=
  let seg := take (end_ - start) (drop start tokens) in
  match count_args seg with
  | inl d => (None, report d w)
  | inr O => (None, report MissingCommand w)
  | inr (S _) =>
      match build_args seg (mkCommand [] (-1) (-1) (-1)) w with
      | (inl d, w) => (None, report d w)
      | (inr cmd, w) => (Some cmd, w)
      end
  end.

(** A segment made only of redirection operators of [parse_command], each
    followed by its file name. *)
Fixpoint only_redirections (seg : list string) : bool :=
  match seg with
  | [] => true
  | t :: rest =>
      is_redirect t &&
      match rest with
      | [] => false
      | _ :: rest' => only_redirections rest'
      end
  end.

End Builder.

Import Builder.

(* ===================================================================== *)
(** * Executor ([setup_redirection], [execute_command],
      [execute_pipeline], executor.c) *)
(* ===================================================================== *)

Module Executor.

Local Open Scope Z_scope.

(** What [setup_redirection] hands back: the new argument vector, NULL, or
    no return at all because it called [exit(EXIT_FAILURE)]. *)
Inductive redirected : Type :=
  | NewArgs (new_args : list string)
  | Null
  | Exited.

(** The second loop of [setup_redirection]; [new_args] is the vector
    filled so far.  (The first loop only counts tokens to size the
    allocation.) *)
Fixpoint setup_loop (args new_args : list string) (w : world)
  : redirected * world :=
  match args with
  | [] => (NewArgs new_args, w)
  | t :: rest =>
      if streq t ">" then
        match rest with
        | [] => (Null, report MissingRedirectTarget w)
        | file :: rest' =>
            let '(fd, w) := open file WrTrunc w in
            if fd <? 0 then (Null, report SysError w)
            else
              let '(r, w) := dup2 fd STDOUT_FILENO w in
              if r <? 0 then (Null, close fd (report SysError w))
              else setup_loop rest' new_args (close fd w)
        end
      else if streq t "2>" then
        match rest with
        | [] => (Null, report MissingRedirectTarget w)
        | file :: rest' =>
            let '(fd, w) := open file WrTrunc w in
            if fd <? 0 then (Null, report SysError w)
            else
              let '(r, w) := dup2 fd STDERR_FILENO w in
              if r <? 0 then (Null, close fd (report SysError w))
              else setup_loop rest' new_args (close fd w)
        end
      else if streq t "<" then
        match rest with
        | [] => (Null, report MissingRedirectTarget w)
        | file :: rest' =>
            let '(fd, w) := open file RdOnly w in
            if fd <? 0 then (Null, report (NotFound file) w)
            else
              let '(r, w) := dup2 fd STDIN_FILENO w in
              if r <? 0 then (Null, close fd (report SysError w))
              else setup_loop rest' new_args (close fd w)
        end
      else if streq t ">>" then
        match rest with
        | [] => (Exited, report MissingRedirectTarget w)
        | file :: rest' =>
            let '(fd, w) := open file WrAppend w in
            if fd <? 0 then (Exited, report SysError w)
            else
              let '(r, w) := dup2 fd STDOUT_FILENO w in
              if r <? 0 then (Exited, report SysError w)
              else setup_loop rest' new_args (close fd w)
        end
      else setup_loop rest (new_args ++ [t]) w
  end.

Definition setup_redirection (args : list string) (w : world)
  : redirected * world := setup_loop args [] w.

(** The child branch of [execute_command]. *)
Definition command_child (args : list string) (w : world) : outcome * world :=
  match setup_redirection args w with
  | (NewArgs new_args, w) => (Execvp new_args (fdt w), w)
  | (_, w) => (ExitFailure, w)
  end.

(** [execute_command]: fork, redirect and exec in the child, wait in the
    parent. *)
Definition execute_command (args : list string) (w : world) : world :=
  let '(p, w) := fork (command_child args) w in
  if p <? 0 then report ForkFailed w
  else waitpid p w.

(** [pipes[j]]; the array has room for ten pipes, of which the first
    [cmd_count - 1] are set. *)
Definition pipe_at (pipes : list (Z * Z)) (j : nat) : Z * Z :=
  nth j pipes (-1, -1).

(** The "create necessary pipes" loop: on a failure it reports and the
    function returns. *)
Fixpoint create_pipes (n : nat) (pipes : list (Z * Z)) (w : world)
  : option (list (Z * Z)) * world :=
  match n with
  | O => (Some pipes, w)
  | S n' =>
      match pipe w with
      | (None, w) => (None, report PipeFailed w)
      | (Some fds, w) => create_pipes n' (pipes ++ [fds]) w
      end
  end.

(** [close(pipes[j][0]); close(pipes[j][1]);] for every pipe. *)
Definition close_pipes (pipes : list (Z * Z)) (w : world) : world :=
  fold_left (fun w fds => close fds.2 (close fds.1 w)) pipes w.

(** The unchecked [dup2] of a redirection descriptor of the command. *)
Definition apply_redirect (fd target : Z) (w : world) : world :=
  if fd =? -1 then w else (dup2 fd target w).2.

(** The child branch of [execute_pipeline] for stage [i]. *)
Definition pipeline_child (pipes : list (Z * Z)) (cmd_count i : nat)
    (cmd : Command) (w : world) : outcome * world :=
  let '(r, w) :=
    if (0 <? i)%nat then dup2 (pipe_at pipes (i - 1)).1 STDIN_FILENO w
    else (0, w) in
  if r <? 0 then (ExitFailure, report Dup2Failed w)
  else
    let '(r, w) :=
      if (i <? cmd_count - 1)%nat then dup2 (pipe_at pipes i).2 STDOUT_FILENO w
      else (0, w) in
    if r <? 0 then (ExitFailure, report Dup2Failed w)
    else
      let w := close_pipes (take (cmd_count - 1) pipes) w in
      let w := apply_redirect (input_fd cmd) STDIN_FILENO w in
      let w := apply_redirect (output_fd cmd) STDOUT_FILENO w in
      let w := apply_redirect (error_fd cmd) STDERR_FILENO w in
      (Execvp (args cmd) (fdt w), w).

(** The "launch all processes" loop from stage [i] on; [pids] are the
    children forked so far.  A failed [fork] reports and the function
    returns. *)
Fixpoint spawn (pipes : list (Z * Z)) (cmd_count i : nat)
    (commands : list Command) (pids : list Z) (w : world)
  : option (list Z) * world :=
  match commands with
  | [] => (Some pids, w)
  | cmd :: commands' =>
      let '(p, w) := fork (pipeline_child pipes cmd_count i cmd) w in
      if p <? 0 then (None, report ForkFailed w)
      else spawn pipes cmd_count (S i) commands' (pids ++ [p]) w
  end.

(** [execute_pipeline(commands, cmd_count)]. *)
Definition execute_pipeline (commands : list Command) (cmd_count : nat)
    (w : world) : world :=
  match create_pipes (cmd_count - 1) [] w with
  | (None, w) => w
  | (Some pipes, w) =>
      match spawn pipes cmd_count 0 (take cmd_count commands) [] w with
      | (None, w) => w
      | (Some pids, w) =>
          let w := close_pipes (take (cmd_count - 1) pipes) w in
          fold_left (fun w p => waitpid p w) pids w
      end
  end.

End Executor.

Import Executor.

(* ===================================================================== *)
(** * The shell ([handle_builtin], [execute_line], myshell.c) *)
(* ===================================================================== *)

Module Shell.

Local Open Scope Z_scope.

(** [input[strcspn(input, newline)] = 0]: cut at the first line feed. *)
Fixpoint strip_newline (input : string) : string :=
  match input with
  | EmptyString => EmptyString
  | String c rest =>
      if Ascii.eqb c (ascii_of_nat 10) then EmptyString
      else String c (strip_newline rest)
  end.

(** [handle_builtin]: whether the command was handled.  [exit] ends the
    shell. *)
Definition handle_builtin (args : list string) (w : world) : bool * world :=
  match args with
  | [] => (false, w)
  | arg0 :: rest =>
      if streq arg0 "cd" then
        match rest with
        | [] => (true, report CdMissingArg w)
        | dir :: _ =>
            if bool_decide (dir ∈ dirs w) then (true, set_cwd dir w)
            else (true, report (CdFailed dir) w)
        end
      else if streq arg0 "exit" then (true, set_exited true w)
      else (false, w)
  end.

(** The cleanup of one [cmd_structs] entry: its descriptors are closed
    (its argument vector is freed). *)
Definition close_command (c : Command) (w : world) : world :=
  let w := if input_fd c =? -1 then w else close (input_fd c) w in
  let w := if output_fd c =? -1 then w else close (output_fd c) w in
  if error_fd c =? -1 then w else close (error_fd c) w.

Definition close_commands (cs : list Command) (w : world) : world :=
  fold_left (fun w c => close_command c w) cs w.

(** The "parse each command in the pipeline" loop.  [cmd_structs] holds
    the entries assigned so far; the result says whether [valid] is still
    set.  When [parse_command] fails the entries assigned before are
    cleaned up. *)
Fixpoint parse_commands (commands : list (list string))
    (cmd_structs : list Command) (w : world)
  : bool * list Command * world :=
  match commands with
  | [] => (true, cmd_structs, w)
  | seg :: commands' =>
      match parse_command seg 0 (length seg) w with
      | (None, w) => (false, cmd_structs, close_commands cmd_structs w)
      | (Some cmd, w) => parse_commands commands' (cmd_structs ++ [cmd]) w
      end
  end.

(** [execute_line] from the call of [split_pipeline] on.  After a failed
    parse the final cleanup loop runs over all [cmd_count] entries again:
    over entries already freed and over entries never assigned, which is
    recorded as [heap_fault]. *)
Definition execute_tokens (tokens : list string) (w : world) : world :=
  match split_pipeline tokens with
  | inl d => report d w
  | inr commands =>
      let cmd_count := length commands in
      if (cmd_count =? 1)%nat then execute_command tokens w
      else
        let '(valid, cmd_structs, w) := parse_commands commands [] w in
        if valid then
          close_commands cmd_structs (execute_pipeline cmd_structs cmd_count w)
        else set_heap_fault true (close_commands cmd_structs w)
  end.

(** [execute_line]. *)
Definition execute_line (input : string) (w : world) : world :=
  let input := strip_newline input in
  if streq input "" then w
  else
    match parse_input input with
    | [] => w
    | tokens =>
        let '(handled, w) := handle_builtin tokens w in
        if handled then w else execute_tokens tokens w
    end.

(** A shell with the three standard streams on the terminal. *)
Definition stdio : fdtable :=
  <[0 := Terminal]> (<[1 := Terminal]> (<[2 := Terminal]> ∅)).

Definition initial_world (fs : gmap string string) (denied : gset string)
    (max_fd : Z) (max_proc : nat) : world :=
  World fs denied stdio max_fd max_proc 0 [] [] [] "/" ∅ false false.

End Shell.

Import Shell.

(* ===================================================================== *)
(** * Predicates used in the statements *)
(* ===================================================================== *)

Module Props.

Local Open Scope Z_scope.

(** A segment that [parse_command] rejects on its syntax alone: an
    operator without a file name, or no argument at all. *)
Definition syntax_bad (seg : list string) : bool :=
  match count_args seg with
  | inl _ | inr O => true
  | inr (S _) => false
  end.

(** Token sequences that [execute_line] rejects before it reaches the
    executor: the splitter fails, or there are several segments and
    [parse_command] rejects one of them. *)
Definition rejected_before_fork (tokens : list string) : bool :=
  match split_pipeline tokens with
  | inl _ => true
  | inr commands =>
      negb (length commands =? 1)%nat && existsb syntax_bad commands
  end.

(** The line makes the shell print exactly one more diagnostic, a syntax
    error. *)
Definition rejected_with_syntax_error (line : string) (w : world) : Prop :=
  exists d, is_syntax_error d = true /\ err (execute_line line w) = err w ++ [d].

(** A descriptor above the standard streams that refers to a file. *)
Definition file_handle (fd : Z) (w : world) : Prop :=
  2 < fd /\ exists path fl, fdt w !! fd = Some (OpenFile path fl).

(** A redirection field of a [Command]: none, or a file handle. *)
Definition redirect_ok (fd : Z) (w : world) : Prop :=
  fd = -1 \/ file_handle fd w.

(** The pipes of a pipeline as [pipe] made them: both ends open, above the
    standard streams. *)
Definition pipes_open (pipes : list (Z * Z)) (w : world) : Prop :=
  Forall (fun fds : Z * Z =>
            2 < fds.1 /\ 2 < fds.2 /\
            (exists k, fdt w !! fds.1 = Some (PipeRead k)) /\
            (exists k, fdt w !! fds.2 = Some (PipeWrite k))) pipes.

(** The shell has its three standard streams. *)
Definition stdio_in_use (w : world) : Prop :=
  is_Some (fdt w !! STDIN_FILENO) /\ is_Some (fdt w !! STDOUT_FILENO) /\
  is_Some (fdt w !! STDERR_FILENO).

(** The redirection fields of a command are handles or absent. *)
Definition command_ok (c : Command) (w : world) : Prop :=
  redirect_ok (input_fd c) w /\ redirect_ok (output_fd c) w /\
  redirect_ok (error_fd c) w.

End Props.

Import Props.

(* ===================================================================== *)
(** * Concrete shells and command lines *)
(* ===================================================================== *)

Module Scenarios.

Local Open Scope Z_scope.

(** An empty directory, generous limits. *)
Definition plain_shell : world := initial_world ∅ ∅ 1024 100.

(** [in.txt] exists; [/no/out] cannot be opened for writing. *)
Definition leak_shell : world :=
  initial_world {["in.txt" := "data"]} {["/no/out"]} 1024 100.

(** [out.txt] exists and has contents. *)
Definition precious_shell : world :=
  initial_world {["out.txt" := "precious"]} ∅ 1024 100.

(** Room for the descriptors 0 to 5 only: one pipe fits, a second does
    not. *)
Definition tight_fd_shell : world := initial_world ∅ ∅ 6 100.

(** One more process can be created, not two. *)
Definition one_proc_shell : world := initial_world ∅ ∅ 1024 1.

(** A pipeline stage without redirections. *)
Definition stage (name : string) : Command := mkCommand [name] (-1) (-1) (-1).

(** Eleven commands joined by ten pipe tokens, and ten joined by nine. *)
Definition ten_pipes : list string :=
  ["a"; "|"; "a"; "|"; "a"; "|"; "a"; "|"; "a"; "|"; "a"; "|";
   "a"; "|"; "a"; "|"; "a"; "|"; "a"; "|"; "a"].

Definition nine_pipes : list string :=
  ["a"; "|"; "a"; "|"; "a"; "|"; "a"; "|"; "a"; "|"; "a"; "|";
   "a"; "|"; "a"; "|"; "a"; "|"; "a"].

(** The shell in the middle of [cat f | sort < in.txt > out.txt | wc]:
    both files opened by [parse_command], both pipes created. *)
Definition wired_shell : world :=
  set_fdt (<[3 := OpenFile "in.txt" RdOnly]>
           (<[4 := OpenFile "out.txt" WrTrunc]>
            (<[5 := PipeRead 0]> (<[6 := PipeWrite 0]>
             (<[7 := PipeRead 1]> (<[8 := PipeWrite 1]> stdio))))))
    (initial_world {["in.txt" := "data"; "out.txt" := ""]} ∅ 1024 100).

Definition sort_stage : Command := mkCommand ["sort"] 3 4 (-1).

End Scenarios.

Import Scenarios.

(* ===================================================================== *)
(** * The tokenizer in the words of the specification *)
(* ===================================================================== *)

Module Reference.

(** Where a left-to-right reading of the line stands. *)
Inductive scan_state : Type :=
  | Gap (closed : bool)   (* between tokens; [closed]: a token was closed
                             since the start of the line or the last merge *)
  | Skip                  (* on the second character of a merged pair *)
  | Tok (t : list ascii) (q : option ascii).
                          (* inside a token that has the characters [t];
                             [q]: the quote character that is open *)

(** A closed token is emitted unless it has no character. *)
Definition close_token (t : list ascii) : list string :=
  match t with
  | [] => []
  | _ => [string_of_list_ascii t]
  end.

(** The next two characters are greater-than signs. *)
Definition append_ahead (l : list ascii) : bool :=
  match l with
  | c1 :: c2 :: _ => Ascii.eqb c1 ">" && Ascii.eqb c2 ">"
  | _ => false
  end.

(** The tokens of the rest [l] of the line, read one character at a time.
    A token ends at whitespace outside quotes or at the end of the input
    and nowhere else; quote characters open and close a quoted stretch and
    are not part of the token.  The one exception: when a token has been
    closed and the blanks behind it are passed, two greater-than signs
    are a token of their own, whatever follows them. *)
Fixpoint words_from (l : list ascii) (st : scan_state) : list string :=
  match l with
  | [] =>
      match st with
      | Tok t _ => close_token t
      | _ => []
      end
  | c :: l' =>
      match st with
      | Gap closed =>
          if isspace c then words_from l' (Gap closed)
          else if closed && append_ahead l then ">>" :: words_from l' Skip
          else if is_quote c then words_from l' (Tok [] (Some c))
          else words_from l' (Tok [c] None)
      | Skip => words_from l' (Gap false)
      | Tok t None =>
          if is_quote c then words_from l' (Tok t (Some c))
          else if isspace c then close_token t ++ words_from l' (Gap true)
          else words_from l' (Tok (t ++ [c]) None)
      | Tok t (Some q) =>
          if Ascii.eqb c q then words_from l' (Tok t None)
          else words_from l' (Tok (t ++ [c]) (Some q))
      end
  end.

Definition words (input : string) : list string :=
  words_from (list_ascii_of_string input) (Gap false).

End Reference.

Import Reference.

(* ===================================================================== *)
(** * Vocabulary of the further properties *)
(* ===================================================================== *)

Module Words.

(** A line of blanks only. *)
Definition blank (s : string) : bool :=
  forallb isspace (list_ascii_of_string s).

(** A line without quote characters. *)
Definition quote_free (s : string) : bool :=
  forallb (fun c => negb (is_quote c)) (list_ascii_of_string s).

(** The characters of all tokens, in order. *)
Definition token_chars (tokens : list string) : list ascii :=
  concat (map list_ascii_of_string tokens).

(** The characters that are no blanks. *)
Definition nonspace (l : list ascii) : list ascii :=
  List.filter (fun c => negb (isspace c)) l.

(** A token without a blank in it. *)
Definition blank_free (t : string) : bool :=
  forallb (fun c => negb (isspace c)) (list_ascii_of_string t).

(** The string does not contain the character. *)
Definition lacks (q : ascii) (s : string) : bool :=
  forallb (fun c => negb (Ascii.eqb c q)) (list_ascii_of_string s).

(** Words written on a line, one blank between neighbours. *)
Fixpoint unwords (ws : list string) : string :=
  match ws with
  | [] => ""
  | [w] => w
  | w :: ws' => w +:+ " " +:+ unwords ws'
  end.

(** The word begins with two greater-than signs. *)
Definition starts_append (w : string) : bool :=
  match w with
  | String c1 (String c2 _) => Ascii.eqb c1 ">" && Ascii.eqb c2 ">"
  | _ => false
  end.

(** How many pipe tokens a token sequence has. *)
Definition pipe_tokens (tokens : list string) : nat :=
  length (List.filter (fun t => streq t "|") tokens).

End Words.

Import Words.

Module Effects.

Local Open Scope Z_scope.

(** A redirection field as [parse_command] leaves it: [-1], or a descriptor
    above the standard streams that is open with flags [fl] on a file whose
    name is a token of the segment and which satisfies [P] in the file
    system. *)
Definition field_of (seg : list string) (fl : oflag)
    (P : option string -> Prop) (fd : Z) (w : world) : Prop :=
  fd = -1 \/
  (2 < fd /\ exists path, path ∈ seg /\
     fdt w !! fd = Some (OpenFile path fl) /\ P (files w !! path)).

(** The file is there and empty, as [O_TRUNC] leaves it. *)
Definition emptied (o : option string) : Prop := o = Some "".

(** The four operators of [setup_redirection], in the order it tests
    them, with the stream each one rebinds and the way the file is
    opened. *)
Definition operator_stream (t : string) : option (Z * oflag) :=
  if streq t ">" then Some (STDOUT_FILENO, WrTrunc)
  else if streq t "2>" then Some (STDERR_FILENO, WrTrunc)
  else if streq t "<" then Some (STDIN_FILENO, RdOnly)
  else if streq t ">>" then Some (STDOUT_FILENO, WrAppend)
  else None.

Definition is_operator (t : string) : bool :=
  match operator_stream t with Some _ => true | None => false end.

(** What neither [open], [close], [dup2] nor a diagnostic touches. *)
Definition same_processes (w w' : world) : Prop :=
  nproc w' = nproc w /\ procs w' = procs w /\ reaped w' = reaped w /\
  cwd w' = cwd w /\ exited w' = exited w.

(** Everything of the state but the descriptor table. *)
Definition beside_fdt (w : world) :=
  (files w, write_denied w, nofile w, nproc w, npipes w, procs w, reaped w,
   err w, cwd w, dirs w, exited w, heap_fault w).

(** The child ran the argument vector of the command. *)
Definition ran (c : child) (cmd : Command) : Prop :=
  exists t, did c = Execvp (args cmd) t.

(** The redirection fields of a command are [-1] or above the standard
    streams. *)
Definition fields_above (c : Command) : Prop :=
  (input_fd c = -1 \/ 2 < input_fd c) /\
  (output_fd c = -1 \/ 2 < output_fd c) /\
  (error_fd c = -1 \/ 2 < error_fd c).

(** No descriptor recorded in the command is open. *)
Definition closed_in (w : world) (c : Command) : Prop :=
  (input_fd c <> -1 -> fdt w !! input_fd c = None) /\
  (output_fd c <> -1 -> fdt w !! output_fd c = None) /\
  (error_fd c <> -1 -> fdt w !! error_fd c = None).

(** The three standard streams are what they were. *)
Definition streams_kept (w w' : world) : Prop :=
  forall k, 0 <= k <= 2 -> fdt w' !! k = fdt w !! k.

(** A shell that was started with its standard output closed. *)
Definition no_stdout_shell : world :=
  set_fdt (delete STDOUT_FILENO stdio) plain_shell.

(** Arguments and operator-file pairs: every operator of [parse_command]
    has a token after it, which it takes as its file name. *)
Inductive paired : list string -> Prop :=
  | paired_nil : paired []
  | paired_argument (t : string) (seg : list string) :
      is_redirect t = false -> paired seg -> paired (t :: seg)
  | paired_redirection (op file : string) (seg : list string) :
      is_redirect op = true -> paired seg -> paired (op :: file :: seg).

End Effects.

Import Effects.

(* ===================================================================== *)
(** * Tokenizer: where a token ends *)
(* ===================================================================== *)

Section TokenizerFacts.

Lemma char_at_app_l (l1 l2 : list ascii) k :
  (k < length l1)%nat -> char_at (l1 ++ l2) k = char_at l1 k.
Proof. intros H. unfold char_at. apply app_nth1. exact H. Qed.

Lemma char_at_app_r (l1 l2 : list ascii) k :
  (length l1 <= k)%nat -> char_at (l1 ++ l2) k = char_at l2 (k - length l1).
Proof. intros H. unfold char_at. apply app_nth2. lia. Qed.

Lemma char_at_end (buf : list ascii) : char_at buf (length buf) = NUL.
Proof. unfold char_at. apply nth_overflow. lia. Qed.

Lemma char_at_plain (l : list ascii) k :
  forallb plain l = true -> (k < length l)%nat -> plain (char_at l k) = true.
Proof.
  revert k. induction l as [|c l IH]; intros k Hp Hk; simpl in *; [lia|].
  apply andb_prop in Hp as [Hc Hl]. destruct k; [exact Hc|].
  apply IH; [exact Hl | lia].
Qed.

Lemma plain_not_space c : plain c = true -> isspace c = false.
Proof.
  unfold plain. intros H. apply andb_prop in H as [H _].
  apply negb_true_iff, H.
Qed.

Lemma space_not_quote c : isspace c = true -> is_quote c = false.
Proof.
  unfold isspace, is_quote.
  destruct (nat_of_ascii c) as [|n]; [discriminate|].
  do 34 (destruct n as [|n]; [intros; reflexivity || discriminate|]).
  do 5 (destruct n as [|n]; [intros; reflexivity || discriminate|]).
  discriminate.
Qed.

Lemma length_memmove_del buf i :
  (i < length buf)%nat -> length (memmove_del buf i) = (length buf - 1)%nat.
Proof.
  intros H. unfold memmove_del. rewrite length_app, length_take, length_drop. lia.
Qed.

(** The scan for the end of a token stops at the end of the buffer or on a
    whitespace character, whatever the quoting. *)
Lemma find_end_stops fuel : forall buf i in_quotes quote_char buf' j,
  (length buf - i <= fuel)%nat ->
  find_end fuel buf i in_quotes quote_char = (buf', j) ->
  (length buf' <= j)%nat \/ isspace (char_at buf' j) = true.
Proof.
  induction fuel as [|fuel IH]; intros buf i in_quotes quote_char buf' j Hf Hrun.
  { cbn in Hrun. injection Hrun as <- <-. left. lia. }
  cbn [find_end] in Hrun.
  destruct (Nat.ltb_spec i (length buf)) as [Hlt|Hge].
  - destruct (is_quote (char_at buf i) && negb in_quotes).
    { apply IH in Hrun; [exact Hrun | rewrite length_memmove_del by lia; lia]. }
    destruct (is_quote (char_at buf i) && Ascii.eqb (char_at buf i) quote_char).
    { apply IH in Hrun; [exact Hrun | rewrite length_memmove_del by lia; lia]. }
    destruct (negb in_quotes && isspace (char_at buf i)) eqn:Hstop.
    + injection Hrun as <- <-. right.
      apply andb_prop in Hstop as [_ Hs]. exact Hs.
    + apply IH in Hrun; [exact Hrun | lia].
  - injection Hrun as <- <-. left. lia.
Qed.

(** Over plain characters the scan runs up to the first stop position and
    leaves the buffer as it is. *)
Lemma find_end_word fuel : forall buf i j q,
  (i <= j <= length buf)%nat ->
  (forall k, (i <= k < j)%nat -> plain (char_at buf k) = true) ->
  (j < length buf -> isspace (char_at buf j) = true)%nat ->
  (length buf - i <= fuel)%nat ->
  find_end fuel buf i false q = (buf, j).
Proof.
  induction fuel as [|fuel IH]; intros buf i j q Hij Hp Hs Hf.
  { cbn. f_equal. lia. }
  cbn [find_end].
  destruct (Nat.ltb_spec i (length buf)) as [Hlt|Hge].
  - destruct (Nat.eq_dec i j) as [->|Hne].
    + specialize (Hs Hlt). rewrite Hs, (space_not_quote _ Hs). reflexivity.
    + assert (Hpi : plain (char_at buf i) = true) by (apply Hp; lia).
      unfold plain in Hpi. apply andb_prop in Hpi as [H1 H2].
      apply negb_true_iff in H1, H2. rewrite H1, H2. cbn [andb negb].
      apply IH; [lia | intros k Hk; apply Hp; lia | exact Hs | lia].
  - f_equal. lia.
Qed.

Lemma skip_space_stop fuel buf i :
  (length buf <= i)%nat -> skip_space fuel buf i = i.
Proof.
  intros H. destruct fuel; simpl; [reflexivity|].
  destruct (Nat.ltb_spec i (length buf)); [lia|reflexivity].
Qed.

Lemma skip_space_plain fuel buf i :
  isspace (char_at buf i) = false -> skip_space fuel buf i = i.
Proof.
  intros H. destruct fuel; simpl; [reflexivity|].
  rewrite H, andb_false_r. reflexivity.
Qed.

Lemma tokenize_done fuel buf i tokens :
  (length buf <= i)%nat -> tokenize fuel buf i tokens = tokens.
Proof.
  intros H. destruct fuel; simpl; [reflexivity|].
  destruct (Nat.ltb_spec i (length buf)); [lia|reflexivity].
Qed.

(** One round of the outer loop on a word of plain characters [i, j). *)
Lemma tokenize_word fuel buf i j tokens :
  (i < j <= length buf)%nat ->
  (forall k, (i <= k < j)%nat -> plain (char_at buf k) = true) ->
  (j < length buf -> isspace (char_at buf j) = true)%nat ->
  tokenize (S fuel) buf i tokens =
    let i' := skip_space (length buf) buf j in
    if Ascii.eqb (char_at buf i') ">" && Ascii.eqb (char_at buf (S i')) ">"
    then tokenize fuel buf (i' + 2) ((tokens ++ [substring buf i (j - i)]) ++ [">>"])
    else tokenize fuel buf i' (tokens ++ [substring buf i (j - i)]).
Proof.
  intros Hij Hp Hs. cbn [tokenize].
  destruct (Nat.ltb_spec i (length buf)) as [_|]; [|lia].
  rewrite skip_space_plain by (apply plain_not_space, Hp; lia).
  destruct (Nat.leb_spec (length buf) i) as [|_]; [lia|].
  rewrite (find_end_word (length buf) buf i j); [| lia | exact Hp | exact Hs | lia].
  destruct (Nat.ltb_spec 0 (j - i)) as [_|]; [|lia].
  reflexivity.
Qed.

Lemma list_ascii_of_string_app (a b : string) :
  list_ascii_of_string (a +:+ b) = list_ascii_of_string a ++ list_ascii_of_string b.
Proof. induction a as [|c a IH]; simpl; [reflexivity | rewrite IH; reflexivity]. Qed.

End TokenizerFacts.

Section TokenizerFuel.

(** More fuel than the distance to the end of the buffer changes nothing:
    the loops have ended by then. *)
Lemma skip_space_fuel fuel : forall fuel' buf i,
  (length buf - i <= fuel)%nat -> (length buf - i <= fuel')%nat ->
  skip_space fuel buf i = skip_space fuel' buf i.
Proof.
  induction fuel as [|fuel IH]; intros fuel' buf i Hf Hf'.
  - rewrite !skip_space_stop by lia. reflexivity.
  - destruct fuel' as [|fuel'].
    { rewrite !skip_space_stop by lia. reflexivity. }
    cbn [skip_space].
    destruct (Nat.ltb_spec i (length buf)) as [Hlt|Hge]; [|reflexivity].
    destruct (isspace (char_at buf i)); [|reflexivity].
    cbn [andb]. apply IH; lia.
Qed.

Lemma skip_space_ge fuel : forall buf i, (i <= skip_space fuel buf i)%nat.
Proof.
  induction fuel as [|fuel IH]; intros buf i; cbn [skip_space]; [lia|].
  destruct ((i <? length buf)%nat && isspace (char_at buf i)); [|lia].
  specialize (IH buf (S i)). lia.
Qed.

Lemma find_end_fuel fuel : forall fuel' buf i in_quotes quote_char,
  (length buf - i <= fuel)%nat -> (length buf - i <= fuel')%nat ->
  find_end fuel buf i in_quotes quote_char
  = find_end fuel' buf i in_quotes quote_char.
Proof.
  induction fuel as [|fuel IH]; intros fuel' buf i in_quotes quote_char Hf Hf'.
  - destruct fuel'; cbn [find_end]; [reflexivity|].
    destruct (Nat.ltb_spec i (length buf)); [lia | reflexivity].
  - destruct fuel' as [|fuel']; cbn [find_end].
    { destruct (Nat.ltb_spec i (length buf)); [lia | reflexivity]. }
    destruct (Nat.ltb_spec i (length buf)) as [Hlt|Hge]; [|reflexivity].
    destruct (is_quote (char_at buf i) && negb in_quotes).
    { apply IH; rewrite length_memmove_del by lia; lia. }
    destruct (is_quote (char_at buf i) && Ascii.eqb (char_at buf i) quote_char).
    { apply IH; rewrite length_memmove_del by lia; lia. }
    destruct (negb in_quotes && isspace (char_at buf i)); [reflexivity|].
    apply IH; lia.
Qed.

(** The scan never moves away from the end of the buffer. *)
Lemma find_end_measure fuel : forall buf i in_quotes quote_char buf' j,
  find_end fuel buf i in_quotes quote_char = (buf', j) ->
  (length buf' - j <= length buf - i)%nat.
Proof.
  induction fuel as [|fuel IH]; intros buf i in_quotes quote_char buf' j Hrun.
  { cbn in Hrun. injection Hrun as <- <-. lia. }
  cbn [find_end] in Hrun.
  destruct (Nat.ltb_spec i (length buf)) as [Hlt|Hge].
  - destruct (is_quote (char_at buf i) && negb in_quotes).
    { apply IH in Hrun. rewrite length_memmove_del in Hrun by lia. lia. }
    destruct (is_quote (char_at buf i) && Ascii.eqb (char_at buf i) quote_char).
    { apply IH in Hrun. rewrite length_memmove_del in Hrun by lia. lia. }
    destruct (negb in_quotes && isspace (char_at buf i)).
    + injection Hrun as <- <-. lia.
    + apply IH in Hrun. lia.
  - injection Hrun as <- <-. lia.
Qed.

(** From a character that is no blank the scan makes progress. *)
Lemma find_end_progress fuel buf i quote_char buf' j :
  (i < length buf)%nat -> isspace (char_at buf i) = false ->
  find_end (S fuel) buf i false quote_char = (buf', j) ->
  (length buf' - j < length buf - i)%nat.
Proof.
  intros Hlt Hs Hrun. cbn [find_end] in Hrun.
  destruct (Nat.ltb_spec i (length buf)) as [_|]; [|lia].
  rewrite Hs in Hrun. cbn [negb andb] in Hrun. rewrite andb_true_r in Hrun.
  destruct (is_quote (char_at buf i)).
  - apply find_end_measure in Hrun.
    rewrite length_memmove_del in Hrun by lia. lia.
  - cbn [andb] in Hrun. apply find_end_measure in Hrun. lia.
Qed.

Lemma skip_space_not_space fuel : forall buf i,
  (length buf - i <= fuel)%nat ->
  (skip_space fuel buf i < length buf)%nat ->
  isspace (char_at buf (skip_space fuel buf i)) = false.
Proof.
  induction fuel as [|fuel IH]; intros buf i Hf Hlt; cbn [skip_space] in *; [lia|].
  destruct (Nat.ltb_spec i (length buf)) as [Hi|Hi]; [|cbn in Hlt; lia].
  cbn [andb] in *.
  destruct (isspace (char_at buf i)) eqn:Hs; [|exact Hs].
  apply IH; [lia | exact Hlt].
Qed.

Lemma tokenize_fuel fuel : forall fuel' buf i tokens,
  (length buf - i < fuel)%nat -> (length buf - i < fuel')%nat ->
  tokenize fuel buf i tokens = tokenize fuel' buf i tokens.
Proof.
  induction fuel as [|fuel IH]; intros fuel' buf i tokens Hf Hf'; [lia|].
  destruct fuel' as [|fuel']; [lia|].
  cbn [tokenize].
  destruct (Nat.ltb_spec i (length buf)) as [Hlt|Hge]; [|reflexivity].
  pose proof (skip_space_ge (length buf) buf i) as Hge1.
  destruct (Nat.leb_spec (length buf) (skip_space (length buf) buf i)) as [|Hlt1];
    [reflexivity|].
  pose proof (skip_space_not_space (length buf) buf i ltac:(lia) Hlt1) as Hns.
  destruct (find_end (length buf) buf (skip_space (length buf) buf i) false NUL)
    as [buf' j] eqn:Hfe.
  assert (Hprog : (length buf' - j < length buf - skip_space (length buf) buf i)%nat).
  { destruct (length buf) as [|n] eqn:Hn; [lia|].
    rewrite <- Hn in *. rewrite Hn in Hfe at 1.
    eapply find_end_progress; eauto. }
  pose proof (skip_space_ge (length buf') buf' j) as Hge2.
  destruct (Ascii.eqb (char_at buf' (skip_space (length buf') buf' j)) ">" &&
            Ascii.eqb (char_at buf' (S (skip_space (length buf') buf' j))) ">");
    apply IH; lia.
Qed.

(** [parse_input] does not depend on its fuel. *)
Lemma parse_input_fuel (input : string) (extra : nat) :
  tokenize (S (length (list_ascii_of_string input)) + extra)
           (list_ascii_of_string input) 0 []
  = parse_input input.
Proof. unfold parse_input. apply tokenize_fuel; lia. Qed.

End TokenizerFuel.


Section TokenizerRefinement.














End TokenizerRefinement.



Example words_of_quoted_line :
  words ("a|b 'c d'>e " +:+ String (ascii_of_nat 34) "f g")
  = ["a|b"; "c d>e"; "f g"].
Proof. reflexivity. Qed.

Example parse_input_pipe_inside_word : parse_input "a|b" = ["a|b"].
Proof. reflexivity. Qed.

Example parse_input_redirect_inside_word : parse_input "a>b" = ["a>b"].
Proof. reflexivity. Qed.

Example parse_input_append_inside_word : parse_input "a>>b" = ["a>>b"].
Proof. reflexivity. Qed.

Example parse_input_append_merged : parse_input "a >>b" = ["a"; ">>"; "b"].
Proof. reflexivity. Qed.

Example parse_input_spaced_operators :
  parse_input "cat < in | sort > out" = ["cat"; "<"; "in"; "|"; "sort"; ">"; "out"].
Proof. reflexivity. Qed.

(** Quotes are deleted and keep the blanks between them in the token. *)
Example parse_input_quotes :
  parse_input ("say " +:+ String (ascii_of_nat 34) "a b" +:+
               String (ascii_of_nat 34) " 'c d'")
  = ["say"; "a b"; "c d"].
Proof. reflexivity. Qed.

(* ===================================================================== *)
(** * Pipeline splitter *)
(* ===================================================================== *)

Lemma streq_true a b : streq a b = true <-> a = b.
Proof. apply String.eqb_eq. Qed.

Lemma streq_false a b : streq a b = false <-> a <> b.
Proof. apply String.eqb_neq. Qed.

Lemma copy_tokens_mid (pre cur rest : list string) :
  copy_tokens (pre ++ cur ++ rest) (length pre)
              (length pre + length cur - length pre) = cur.
Proof.
  unfold copy_tokens. rewrite drop_app_length.
  replace (length pre + length cur - length pre)%nat with (length cur) by lia.
  apply take_app_length.
Qed.

Lemma join_trailing_snoc segs s :
  join_trailing (segs ++ [s]) = join_trailing segs ++ s ++ ["|"].
Proof.
  unfold join_trailing. rewrite map_app, concat_app. simpl.
  rewrite app_nil_r. reflexivity.
Qed.

Lemma join_pipeline_snoc segs s :
  join_pipeline (segs ++ [s]) = join_trailing segs ++ s.
Proof.
  induction segs as [|s0 segs IH]; [reflexivity|].
  unfold join_trailing. cbn [map concat]. fold (join_trailing segs).
  rewrite <- !app_assoc. cbn [app]. rewrite <- IH.
  destruct segs; reflexivity.
Qed.

Section SplitLoop.
Variable tokens : list string.

Lemma split_loop_sound rest : forall pre cur commands i' start' commands',
  tokens = pre ++ cur ++ rest ->
  ("|" ∉ cur) ->
  Forall good_segment commands ->
  join_trailing commands = pre ->
  split_loop tokens rest (length pre + length cur) (length pre) commands
    = inr (i', start', commands') ->
  exists pre' cur',
    tokens = pre' ++ cur' /\ i' = length tokens /\ start' = length pre' /\
    ("|" ∉ cur') /\ Forall good_segment commands' /\
    join_trailing commands' = pre'.
Proof.
  induction rest as [|t rest' IH]; intros pre cur commands i' start' commands'
    Htok Hcur Hgood Hjoin Hrun.
  - cbn in Hrun. injection Hrun as <- <- <-. exists pre, cur.
    rewrite app_nil_r in Htok. subst tokens.
    rewrite length_app. auto 10.
  - cbn [split_loop] in Hrun.
    destruct (streq t "|") eqn:Ht.
    + apply streq_true in Ht. subst t.
      destruct (Nat.eqb_spec (length pre + length cur) (length pre)) as [He|Hne];
        [discriminate|].
      destruct (Nat.leb_spec (length pre + length cur) (length pre)) as [Hle|Hgt];
        [discriminate|]. cbn [orb] in Hrun.
      case_bool_decide; [discriminate|].
      assert (Hc : copy_tokens tokens (length pre)
                     (length pre + length cur - length pre) = cur)
        by (rewrite Htok; apply copy_tokens_mid).
      rewrite Hc in Hrun.
      destruct (max_cmds <=? length (commands ++ [cur]))%nat; [discriminate|].
      apply (IH (pre ++ cur ++ ["|"]) [] (commands ++ [cur])).
      * rewrite Htok, <- !app_assoc. reflexivity.
      * apply not_elem_of_nil.
      * apply Forall_app. split; [exact Hgood|].
        constructor; [|constructor]. split; [|exact Hcur].
        destruct cur; [simpl in Hgt; lia | discriminate].
      * rewrite join_trailing_snoc, Hjoin. reflexivity.
      * rewrite !length_app. cbn [length].
        replace (length pre + (length cur + 1) + 0)%nat
          with (S (length pre + length cur)) by lia.
        replace (length pre + (length cur + 1))%nat
          with (S (length pre + length cur)) by lia.
        exact Hrun.
    + apply streq_false in Ht.
      apply (IH pre (cur ++ [t]) commands).
      * rewrite Htok, <- !app_assoc. reflexivity.
      * rewrite not_elem_of_app, list_elem_of_singleton. split; [exact Hcur | congruence].
      * exact Hgood.
      * exact Hjoin.
      * rewrite length_app. cbn [length].
        replace (length pre + (length cur + 1))%nat
          with (S (length pre + length cur)) by lia.
        exact Hrun.
Qed.

End SplitLoop.

(** C8: whenever [split_pipeline] returns, every returned segment is
    non-empty and has no pipe token, and the segments joined in order with
    one pipe token between neighbours are the input token sequence. *)
Theorem split_pipeline_segments (tokens : list string) (segs : list (list string)) :
  split_pipeline tokens = inr segs ->
  Forall good_segment segs /\ join_pipeline segs = tokens.
Proof.
  unfold split_pipeline. intros H.
  destruct (split_loop tokens tokens 0 0 []) as [d|[[i start] commands]] eqn:Hloop;
    [discriminate|].
  destruct (split_loop_sound tokens tokens [] [] [] i start commands)
    as (pre & cur & Htok & -> & -> & Hcur & Hgood & Hjoin); auto.
  { apply not_elem_of_nil. }
  destruct (Nat.leb_spec (length tokens) (length pre)) as [|Hlt]; [discriminate|].
  injection H as <-.
  assert (Hc : copy_tokens tokens (length pre) (length tokens - length pre) = cur).
  { rewrite Htok at 1. rewrite <- (app_nil_r cur) at 1.
    rewrite Htok, length_app. apply copy_tokens_mid. }
  rewrite Hc. split.
  - apply Forall_app. split; [exact Hgood|].
    constructor; [|constructor]. split; [|exact Hcur].
    intros ->. rewrite Htok, app_nil_r in Hlt. lia.
  - rewrite join_pipeline_snoc, Hjoin. symmetry. exact Htok.
Qed.

Lemma split_pipeline_segments_witness :
  Forall good_segment [["ls"; "-l"]; ["wc"]] /\
  join_pipeline [["ls"; "-l"]; ["wc"]] = ["ls"; "-l"; "|"; "wc"].
Proof.
  apply (split_pipeline_segments ["ls"; "-l"; "|"; "wc"]). reflexivity.
Defined.

Lemma join_pipeline_app segs1 segs2 :
  segs2 <> [] ->
  join_pipeline (segs1 ++ segs2) = join_trailing segs1 ++ join_pipeline segs2.
Proof.
  intros Hne. induction segs1 as [|s0 segs1 IH]; [reflexivity|].
  unfold join_trailing. cbn [map concat]. fold (join_trailing segs1).
  rewrite <- !app_assoc. cbn [app]. rewrite <- IH.
  destruct segs1; [destruct segs2; [congruence | reflexivity] | reflexivity].
Qed.

Lemma join_trailing_cons s segs :
  join_trailing (s :: segs) = s ++ "|" :: join_trailing segs.
Proof. unfold join_trailing. cbn [map concat]. rewrite <- app_assoc. reflexivity. Qed.

Section SplitForward.
Variable tokens : list string.

(** Scanning a pipe-free chunk only advances [i]. *)
Lemma split_loop_scan s : forall rest i start commands,
  ("|" ∉ s) ->
  split_loop tokens (s ++ rest) i start commands
  = split_loop tokens rest (i + length s) start commands.
Proof.
  induction s as [|t s IH]; intros rest i start commands Hs.
  - cbn. rewrite Nat.add_0_r. reflexivity.
  - apply not_elem_of_cons in Hs as [Ht Hs].
    cbn [app split_loop].
    assert (Hneq : streq t "|" = false) by (apply streq_false; congruence).
    rewrite Hneq, IH by exact Hs. cbn [length]. f_equal. lia.
Qed.

(** A pipe token that closes a non-empty segment and is not the last
    token, while fewer than [max_cmds] segments are stored. *)
Lemma split_loop_pipe pre s rest i commands :
  tokens = pre ++ s ++ "|" :: rest ->
  s <> [] -> rest <> [] ->
  i = (length pre + length s)%nat ->
  (S (length commands) < max_cmds)%nat ->
  split_loop tokens ("|" :: rest) i (length pre) commands
  = split_loop tokens rest (S i) (S i) (commands ++ [s]).
Proof.
  intros Htok Hs Hrest -> Hlen. cbn [split_loop].
  change (streq "|" "|") with true. cbn iota.
  assert (0 < length s)%nat by (destruct s; [congruence | simpl; lia]).
  destruct (Nat.eqb_spec (length pre + length s) (length pre)); [lia|].
  destruct (Nat.leb_spec (length pre + length s) (length pre)); [lia|].
  cbn [orb]. case_bool_decide; [congruence|].
  assert (Hc : copy_tokens tokens (length pre)
                 (length pre + length s - length pre) = s)
    by (rewrite Htok; apply copy_tokens_mid).
  rewrite Hc, length_app. cbn [length].
  destruct (Nat.leb_spec max_cmds (length commands + 1)); [lia|].
  reflexivity.
Qed.

(** Running over complete segments, each closed by a pipe token. *)
Lemma split_loop_segs segs : forall pre commands tail,
  Forall good_segment segs ->
  tokens = pre ++ join_trailing segs ++ tail ->
  tail <> [] ->
  (length commands + length segs < max_cmds)%nat ->
  split_loop tokens (join_trailing segs ++ tail) (length pre) (length pre) commands
  = split_loop tokens tail (length (pre ++ join_trailing segs))
      (length (pre ++ join_trailing segs)) (commands ++ segs).
Proof.
  induction segs as [|s segs IH]; intros pre commands tail Hgood Htok Htail Hlen.
  - cbn. rewrite !app_nil_r. reflexivity.
  - apply Forall_cons in Hgood as [[Hs Hnp] Hgood].
    cbn [length] in Hlen.
    rewrite join_trailing_cons in *. rewrite <- app_assoc.
    rewrite split_loop_scan by exact Hnp.
    cbn [app].
    rewrite (split_loop_pipe pre s (join_trailing segs ++ tail));
      [ | rewrite Htok, <- app_assoc; reflexivity | exact Hs
        | destruct (join_trailing segs); [exact Htail | discriminate]
        | reflexivity | lia ].
    replace (S (length pre + length s)) with (length (pre ++ s ++ ["|"]))
      by (rewrite !length_app; cbn [length]; lia).
    rewrite (IH (pre ++ s ++ ["|"]) (commands ++ [s]) tail);
      [ | exact Hgood | rewrite Htok, <- !app_assoc; reflexivity | exact Htail
        | rewrite length_app; cbn [length]; lia ].
    rewrite <- !app_assoc. reflexivity.
Qed.

End SplitForward.

(** An empty segment right after [segs] complete ones: missing command. *)
Lemma split_pipeline_empty_segment segs rest :
  Forall good_segment segs -> (length segs < max_cmds)%nat ->
  split_pipeline (join_trailing segs ++ "|" :: rest) = inl MissingCommand.
Proof.
  intros Hgood Hlen. unfold split_pipeline.
  rewrite (split_loop_segs _ segs [] [] ("|" :: rest));
    [ | exact Hgood | reflexivity | discriminate | exact Hlen ].
  cbn [split_loop]. change (streq "|" "|") with true. cbn iota.
  rewrite Nat.eqb_refl. reflexivity.
Qed.

(** All segments non-empty and a pipe token last: missing command after
    pipe. *)
Lemma split_pipeline_trailing_pipe segs :
  Forall good_segment segs -> segs <> [] -> (length segs <= max_cmds)%nat ->
  split_pipeline (join_pipeline segs ++ ["|"]) = inl MissingCommandAfterPipe.
Proof.
  intros Hgood Hne Hlen.
  destruct (exists_last Hne) as (segs' & s & ->).
  apply Forall_app in Hgood as [Hgood Hs].
  apply Forall_cons in Hs as [[Hs Hnp] _].
  rewrite length_app in Hlen. cbn [length] in Hlen.
  rewrite join_pipeline_snoc, <- app_assoc. unfold split_pipeline.
  rewrite (split_loop_segs _ segs' [] [] (s ++ ["|"]));
    [ | exact Hgood | reflexivity | destruct s; discriminate | simpl; lia ].
  rewrite split_loop_scan by exact Hnp.
  cbn [split_loop app]. change (streq "|" "|") with true. cbn iota.
  assert (0 < length s)%nat by (destruct s; [congruence | simpl; lia]).
  destruct (Nat.eqb_spec (length (join_trailing segs') + length s)
              (length (join_trailing segs'))); [lia|].
  destruct (Nat.leb_spec (length (join_trailing segs') + length s)
              (length (join_trailing segs'))); [lia|].
  reflexivity.
Qed.

Lemma join_pipeline_nonempty segs :
  Forall good_segment segs -> segs <> [] -> join_pipeline segs <> [].
Proof.
  intros Hgood Hne. destruct segs as [|s segs]; [congruence|].
  apply Forall_cons in Hgood as [[Hs _] _].
  destruct s; [congruence|]. destruct segs; discriminate.
Qed.

(** What the splitter does on any sequence of well-formed segments: it
    returns them when there are at most [max_cmds], and reports too many
    pipes otherwise. *)
Lemma split_pipeline_join segs :
  Forall good_segment segs -> segs <> [] ->
  split_pipeline (join_pipeline segs)
  = if (length segs <=? max_cmds)%nat then inr segs else inl TooManyPipes.
Proof.
  intros Hgood Hne.
  destruct (Nat.leb_spec (length segs) max_cmds) as [Hle|Hgt].
  - destruct (exists_last Hne) as (segs' & s & ->).
    apply Forall_app in Hgood as [Hgood Hs].
    apply Forall_cons in Hs as [[Hs Hnp] _].
    rewrite length_app in Hle. cbn [length] in Hle.
    rewrite join_pipeline_snoc. unfold split_pipeline.
    rewrite (split_loop_segs _ segs' [] [] s);
      [ | exact Hgood | reflexivity | exact Hs | simpl; lia ].
    rewrite <- (app_nil_r s) at 2.
    rewrite split_loop_scan by exact Hnp.
    cbn [split_loop app].
    assert (0 < length s)%nat by (destruct s; [congruence | simpl; lia]).
    destruct (Nat.leb_spec (length (join_trailing segs') + length s)
                (length (join_trailing segs'))); [lia|].
    do 3 f_equal.
    rewrite <- (app_nil_r s) at 1. apply copy_tokens_mid.
  - assert (Hsplit : segs = take 9 segs ++ drop 9 segs) by (symmetry; apply take_drop).
    destruct (drop 9 segs) as [|s segs2] eqn:Hd.
    { apply (f_equal length) in Hd. rewrite length_drop in Hd.
      unfold max_cmds in Hgt. simpl in Hd. lia. }
    destruct segs2 as [|s2 segs2].
    { apply (f_equal length) in Hd. rewrite length_drop in Hd.
      unfold max_cmds in Hgt. simpl in Hd. lia. }
    set (segs1 := take 9 segs) in *.
    assert (Hl1 : length segs1 = 9%nat).
    { unfold segs1. rewrite length_take. unfold max_cmds in Hgt. lia. }
    rewrite Hsplit in Hgood |- *.
    apply Forall_app in Hgood as [Hgood1 Hgood2].
    pose proof Hgood2 as Hgood2'.
    apply Forall_cons in Hgood2' as [[Hs Hnp] Hgood3].
    rewrite join_pipeline_app by discriminate.
    change (join_pipeline (s :: s2 :: segs2))
      with (s ++ "|" :: join_pipeline (s2 :: segs2)).
    unfold split_pipeline.
    rewrite (split_loop_segs _ segs1 [] []);
      [ | exact Hgood1 | reflexivity | destruct s; [congruence | discriminate]
        | rewrite Hl1; unfold max_cmds; simpl; lia ].
    rewrite split_loop_scan by exact Hnp.
    cbn [split_loop app]. change (streq "|" "|") with true. cbn iota.
    assert (0 < length s)%nat by (destruct s; [congruence | simpl; lia]).
    destruct (Nat.eqb_spec (length (join_trailing segs1) + length s)
                (length (join_trailing segs1))); [lia|].
    destruct (Nat.leb_spec (length (join_trailing segs1) + length s)
                (length (join_trailing segs1))); [lia|].
    cbn [orb]. case_bool_decide as Hnil.
    { exfalso. revert Hnil. apply join_pipeline_nonempty; [exact Hgood3 | discriminate]. }
    rewrite length_app, Hl1. reflexivity.
Qed.

(** C7, as the code has it: the splitter reports the first error it meets
    scanning left to right.  After fewer than [max_cmds] non-empty segments,
    each closed by its pipe token, a further pipe token (a leading one, or
    one right behind another) is a missing command.  Non-empty segments, at
    most [max_cmds] of them, with a pipe token last are a missing command
    after pipe.  The empty token sequence is a missing command. *)
Theorem split_pipeline_first_error (segs : list (list string)) (rest : list string) :
  Forall good_segment segs ->
  ((length segs < max_cmds)%nat ->
     split_pipeline (join_trailing segs ++ "|" :: rest) = inl MissingCommand) /\
  (segs <> [] -> (length segs <= max_cmds)%nat ->
     split_pipeline (join_pipeline segs ++ ["|"]) = inl MissingCommandAfterPipe) /\
  split_pipeline [] = inl MissingCommand.
Proof.
  intros Hgood. split; [|split].
  - intros Hlen. apply split_pipeline_empty_segment; assumption.
  - intros Hne Hlen. apply split_pipeline_trailing_pipe; assumption.
  - reflexivity.
Qed.

Lemma split_pipeline_first_error_witness :
  split_pipeline ["a"; "|"; "|"; "b"] = inl MissingCommand /\
  split_pipeline ["a"; "|"] = inl MissingCommandAfterPipe.
Proof.
  assert (Hgood : Forall good_segment [["a"]]).
  { repeat constructor; [discriminate | ].
    rewrite list_elem_of_singleton. discriminate. }
  destruct (split_pipeline_first_error [["a"]] ["b"] Hgood) as (H1 & H2 & _).
  split.
  - apply H1. unfold max_cmds. simpl. lia.
  - apply H2; [discriminate | unfold max_cmds; simpl; lia].
Defined.

(** C7 as stated fails: the only token of this sequence is a pipe token,
    which makes it the last one, and the error is the missing command. *)
Lemma split_pipeline_lone_pipe :
  ~ (last ["|"] = Some "|" -> split_pipeline ["|"] = inl MissingCommandAfterPipe).
Proof. intros H. specialize (H eq_refl). discriminate H. Qed.

Example split_pipeline_double_pipe_last :
  split_pipeline ["a"; "|"; "|"] = inl MissingCommand.
Proof. reflexivity. Qed.

(** C2: the limit is hit one pipe early.  Ten pipe tokens between eleven
    commands are refused as too many pipes; nine are the most the splitter
    accepts. *)
Theorem split_pipeline_ten_pipes_refused :
  split_pipeline ten_pipes = inl TooManyPipes /\
  split_pipeline nine_pipes = inr (replicate 10 ["a"]).
Proof. split; reflexivity. Qed.

Example split_pipeline_two_segments :
  split_pipeline ["a"; "|"; "b"] = inr [["a"]; ["b"]].
Proof. reflexivity. Qed.

(* ===================================================================== *)
(** * Descriptor allocation *)
(* ===================================================================== *)

Section Descriptors.
Local Open Scope Z_scope.

Lemma first_free_ge (t : fdtable) fuel : forall n, n <= first_free t fuel n.
Proof.
  induction fuel as [|fuel IH]; intros n; cbn [first_free]; [lia|].
  destruct (t !! n); [|lia]. specialize (IH (n + 1)). lia.
Qed.

Lemma first_free_ext (t t' : fdtable) fuel : forall n,
  (forall k, n <= k -> t !! k = t' !! k) ->
  first_free t fuel n = first_free t' fuel n.
Proof.
  induction fuel as [|fuel IH]; intros n H; cbn [first_free]; [reflexivity|].
  rewrite <- (H n) by lia. destruct (t !! n); [|reflexivity].
  apply IH. intros k Hk. apply H. lia.
Qed.

Lemma first_free_below (t : fdtable) fuel : forall n k,
  n <= k < first_free t fuel n -> is_Some (t !! k).
Proof.
  induction fuel as [|fuel IH]; intros n k Hk; cbn [first_free] in Hk; [lia|].
  destruct (t !! n) eqn:Hn; [|lia].
  destruct (decide (k = n)) as [->|Hne]; [rewrite Hn; eauto|].
  apply (IH (n + 1)). lia.
Qed.

Lemma first_free_free fuel : forall (t : fdtable) n,
  (size t <= fuel)%nat -> t !! first_free t fuel n = None.
Proof.
  induction fuel as [|fuel IH]; intros t n Hsize; cbn [first_free].
  - assert (t = ∅) as -> by (apply map_size_empty_inv; lia).
    apply lookup_empty.
  - destruct (t !! n) as [f|] eqn:Hn; [|exact Hn].
    pose proof (first_free_ge t fuel (n + 1)) as Hge.
    rewrite (first_free_ext t (delete n t)) in Hge |- *
      by (intros k Hk; rewrite lookup_delete_ne by lia; reflexivity).
    rewrite <- (lookup_delete_ne t n) by lia.
    apply IH. rewrite map_size_delete_Some by eauto. lia.
Qed.

(** [lowest_free] is what its name says: a descriptor that is not in use,
    below which every descriptor is. *)
Lemma lowest_free_spec (t : fdtable) :
  0 <= lowest_free t /\ t !! lowest_free t = None /\
  forall k, 0 <= k < lowest_free t -> is_Some (t !! k).
Proof.
  unfold lowest_free. split; [apply first_free_ge|]. split.
  - apply first_free_free. lia.
  - apply first_free_below.
Qed.

End Descriptors.

(* ===================================================================== *)
(** * Command builder *)
(* ===================================================================== *)


Lemma count_args_only_redirections seg :
  only_redirections seg = true -> count_args seg = inr O.
Proof.
  induction seg as [seg IH] using (induction_ltof1 _ (@length string)).
  unfold ltof in IH.
  destruct seg as [|t [|file rest]]; cbn [only_redirections count_args].
  - reflexivity.
  - rewrite andb_false_r. discriminate.
  - intros H. apply andb_prop in H as [Ht Hrest]. rewrite Ht.
    apply IH; [simpl; lia | exact Hrest].
Qed.

(** On the pipeline path a segment of redirections only is rejected before
    any file is opened. *)
Lemma parse_command_only_redirections seg w :
  only_redirections seg = true ->
  parse_command seg 0 (length seg) w = (None, report MissingCommand w).
Proof.
  intros H. unfold parse_command.
  rewrite Nat.sub_0_r, drop_0, firstn_all.
  rewrite (count_args_only_redirections _ H). reflexivity.
Qed.

(** [parse_command] neither forks nor waits. *)
Lemma open_procs file fl w : procs (open file fl w).2 = procs w.
Proof.
  unfold open. repeat (case_bool_decide || case_match); reflexivity.
Qed.

Lemma build_args_procs seg : forall cmd w,
  procs (build_args seg cmd w).2 = procs w.
Proof.
  induction seg as [seg IH] using (induction_ltof1 _ (@length string)).
  unfold ltof in IH. intros cmd w.
  destruct seg as [|t rest]; [reflexivity|].
  cbn [build_args].
  destruct (streq t "<"); [|destruct (streq t ">"); [|destruct (streq t "2>")]].
  4: { apply IH. simpl. lia. }
  all: destruct rest as [|file rest']; [reflexivity|].
  all: match goal with |- context [open ?f ?fl ?w] =>
         pose proof (open_procs f fl w) as Hop;
         destruct (open f fl w) as [fd w1] end.
  all: cbn [snd] in Hop.
  all: destruct (fd <? 0)%Z; [exact Hop|].
  all: rewrite IH by (simpl; lia); exact Hop.
Qed.

Lemma parse_command_procs tokens start end_ w :
  procs (parse_command tokens start end_ w).2 = procs w.
Proof.
  unfold parse_command.
  destruct (count_args _) as [d|[|n]]; try reflexivity.
  match goal with |- context [build_args ?s ?c ?w] =>
    pose proof (build_args_procs s c w) as Hb;
    destruct (build_args s c w) as [[d|cmd] w1] end; exact Hb.
Qed.

Section BuilderFacts.
Local Open Scope Z_scope.

(** [open] never closes a descriptor. *)
Lemma open_keeps file fl w k :
  is_Some (fdt w !! k) -> is_Some (fdt (open file fl w).2 !! k).
Proof.
  intros Hk. unfold open.
  repeat (case_bool_decide || case_match); cbn; try exact Hk;
    rewrite lookup_insert_is_Some; destruct (decide (lowest_free (fdt w) = k)); auto.
Qed.

Lemma build_args_keeps seg : forall cmd w k,
  is_Some (fdt w !! k) -> is_Some (fdt (build_args seg cmd w).2 !! k).
Proof.
  induction seg as [seg IH] using (induction_ltof1 _ (@length string)).
  unfold ltof in IH. intros cmd w k Hk.
  destruct seg as [|t rest]; [exact Hk|].
  cbn [build_args].
  destruct (streq t "<"); [|destruct (streq t ">"); [|destruct (streq t "2>")]].
  4: { apply IH; [simpl; lia | exact Hk]. }
  all: destruct rest as [|file rest']; [exact Hk|].
  all: match goal with |- context [open ?f ?fl ?w] =>
         pose proof (open_keeps f fl w k Hk) as Hop;
         destruct (open f fl w) as [fd w1] end.
  all: cbn [snd] in Hop.
  all: destruct (fd <? 0)%Z; [exact Hop|].
  all: apply IH; [simpl; lia | exact Hop].
Qed.

(** [parse_command] closes nothing, on no path: whatever it has opened
    when it fails stays open. *)
Lemma parse_command_never_closes tokens start end_ w k :
  is_Some (fdt w !! k) ->
  is_Some (fdt (parse_command tokens start end_ w).2 !! k).
Proof.
  intros Hk. unfold parse_command.
  destruct (count_args _) as [d|[|n]]; try exact Hk.
  match goal with |- context [build_args ?s ?c ?w] =>
    pose proof (build_args_keeps s c w k Hk) as Hb;
    destruct (build_args s c w) as [[d|cmd] w1] end; exact Hb.
Qed.

(** Tokens that are none of the three operators of [parse_command] are
    arguments. *)
Lemma count_args_plain seg :
  forallb (fun t => negb (is_redirect t)) seg = true ->
  count_args seg = inr (length seg).
Proof.
  induction seg as [|t seg IH]; [reflexivity|].
  cbn [forallb count_args]. intros H. apply andb_prop in H as [Ht Hs].
  apply negb_true_iff in Ht. rewrite Ht, IH by exact Hs. reflexivity.
Qed.

Lemma build_args_plain seg : forall cmd w,
  forallb (fun t => negb (is_redirect t)) seg = true ->
  build_args seg cmd w
  = (inr (mkCommand (args cmd ++ seg) (input_fd cmd) (output_fd cmd)
                    (error_fd cmd)), w).
Proof.
  induction seg as [|t seg IH]; intros cmd w H.
  - cbn. rewrite app_nil_r. destruct cmd; reflexivity.
  - cbn [forallb] in H. apply andb_prop in H as [Ht Hs].
    apply negb_true_iff in Ht. unfold is_redirect in Ht.
    apply orb_false_elim in Ht as [Ht H3]. apply orb_false_elim in Ht as [H1 H2].
    cbn [build_args]. rewrite H1, H2, H3, IH by exact Hs. cbn.
    rewrite <- app_assoc. reflexivity.
Qed.

(** A non-empty segment without any of the three operators is returned
    whole as the argument vector; nothing is opened. *)
Lemma parse_command_plain_segment seg w :
  seg <> [] ->
  forallb (fun t => negb (is_redirect t)) seg = true ->
  parse_command seg 0 (length seg) w
  = (Some (mkCommand seg (-1) (-1) (-1)), w).
Proof.
  intros Hne H. unfold parse_command.
  rewrite Nat.sub_0_r, drop_0, firstn_all, (count_args_plain _ H).
  destruct seg as [|t seg]; [congruence|]. cbn [length].
  rewrite (build_args_plain _ _ _ H). reflexivity.
Qed.

(** In particular the append operator and its file name are arguments. *)
Lemma parse_command_append_is_argument pre file post w :
  forallb (fun t => negb (is_redirect t)) (pre ++ file :: post) = true ->
  parse_command (pre ++ ">>" :: file :: post) 0
                (length (pre ++ ">>" :: file :: post)) w
  = (Some (mkCommand (pre ++ ">>" :: file :: post) (-1) (-1) (-1)), w).
Proof.
  intros H. apply parse_command_plain_segment.
  - destruct pre; discriminate.
  - rewrite forallb_app in H |- *. apply andb_prop in H as [Hpre Hpost].
    rewrite Hpre. exact Hpost.
Qed.

End BuilderFacts.

(* ===================================================================== *)
(** * Executor *)
(* ===================================================================== *)

Section FdTables.
Local Open Scope Z_scope.

Lemma dup2_open oldfd newfd w f :
  fdt w !! oldfd = Some f ->
  dup2 oldfd newfd w = (newfd, set_fdt (<[newfd := f]> (fdt w)) w).
Proof. intros H. unfold dup2. rewrite H. reflexivity. Qed.

Lemma close_pipes_lookup ps : forall w k,
  Forall (fun fds : Z * Z => fds.1 <> k /\ fds.2 <> k) ps ->
  fdt (close_pipes ps w) !! k = fdt w !! k.
Proof.
  unfold close_pipes. induction ps as [|[r wr] ps IH]; intros w k H; [reflexivity|].
  apply Forall_cons in H as [[Hr Hw] H]. cbn [fold_left fst snd] in *.
  rewrite IH by exact H. cbn.
  rewrite !lookup_delete_ne by congruence. reflexivity.
Qed.

Lemma pipe_at_open pipes w j :
  pipes_open pipes w -> (j < length pipes)%nat ->
  2 < (pipe_at pipes j).1 /\ 2 < (pipe_at pipes j).2 /\
  (exists k, fdt w !! (pipe_at pipes j).1 = Some (PipeRead k)) /\
  (exists k, fdt w !! (pipe_at pipes j).2 = Some (PipeWrite k)).
Proof.
  intros Hp Hj. unfold pipes_open in Hp. rewrite Forall_forall in Hp.
  apply Hp. apply list_elem_of_In. unfold pipe_at. apply nth_In. exact Hj.
Qed.

(** No end of a pipe is a standard stream or a file handle. *)
Lemma pipes_avoid pipes w n k :
  pipes_open pipes w ->
  (k <= 2 \/ exists path fl, fdt w !! k = Some (OpenFile path fl)) ->
  Forall (fun fds : Z * Z => fds.1 <> k /\ fds.2 <> k) (take n pipes).
Proof.
  intros Hp Hk. apply Forall_take. unfold pipes_open in Hp.
  eapply Forall_impl; [exact Hp|].
  intros [r wr] (H1 & H2 & [k1 Hr] & [k2 Hw]). cbn [fst snd] in *.
  destruct Hk as [Hk|(path & fl & Hk)].
  - split; lia.
  - split; intros ->; congruence.
Qed.

(** The two checked [dup2] calls of the child succeed when the pipes are
    open, and leave every descriptor above the standard streams alone. *)
Lemma pipeline_child_wired pipes cmd_count i cmd w :
  length pipes = (cmd_count - 1)%nat -> (i < cmd_count)%nat ->
  pipes_open pipes w ->
  exists w2,
    pipeline_child pipes cmd_count i cmd w =
      (let w := close_pipes (take (cmd_count - 1) pipes) w2 in
       let w := apply_redirect (input_fd cmd) STDIN_FILENO w in
       let w := apply_redirect (output_fd cmd) STDOUT_FILENO w in
       let w := apply_redirect (error_fd cmd) STDERR_FILENO w in
       (Execvp (args cmd) (fdt w), w)) /\
    fdt w2 !! 0 = (if (0 <? i)%nat then fdt w !! (pipe_at pipes (i - 1)).1
                   else fdt w !! 0) /\
    fdt w2 !! 1 = (if (i <? cmd_count - 1)%nat then fdt w !! (pipe_at pipes i).2
                   else fdt w !! 1) /\
    (forall k, 2 <= k -> fdt w2 !! k = fdt w !! k).
Proof.
  intros Hlen Hi Hp. unfold pipeline_child.
  destruct (Nat.ltb_spec 0 i) as [Hi0|Hi0];
    destruct (Nat.ltb_spec i (cmd_count - 1)) as [Hi1|Hi1].
  - destruct (pipe_at_open pipes w (i - 1)%nat Hp) as (Hr2 & _ & [k1 Hr] & _); [lia|].
    destruct (pipe_at_open pipes w i Hp) as (_ & Hw2 & _ & [k2 Hw]); [lia|].
    rewrite (dup2_open _ _ _ _ Hr).
    change (STDIN_FILENO <? 0) with false. cbn iota.
    erewrite dup2_open
      by (cbn; rewrite lookup_insert_ne by (unfold STDIN_FILENO; lia); exact Hw).
    change (STDOUT_FILENO <? 0) with false. cbn iota.
    eexists. split; [reflexivity|]. cbn. unfold STDIN_FILENO, STDOUT_FILENO.
    split; [|split].
    + rewrite lookup_insert_ne, lookup_insert_eq by lia. symmetry. exact Hr.
    + rewrite lookup_insert_eq. symmetry. exact Hw.
    + intros k Hk. rewrite !lookup_insert_ne by lia. reflexivity.
  - destruct (pipe_at_open pipes w (i - 1)%nat Hp) as (Hr2 & _ & [k1 Hr] & _); [lia|].
    rewrite (dup2_open _ _ _ _ Hr).
    change (STDIN_FILENO <? 0) with false. cbn iota.
    change (0 <? 0) with false. cbn iota.
    eexists. split; [reflexivity|]. cbn. unfold STDIN_FILENO.
    split; [|split].
    + rewrite lookup_insert_eq. symmetry. exact Hr.
    + rewrite lookup_insert_ne by lia. reflexivity.
    + intros k Hk. rewrite !lookup_insert_ne by lia. reflexivity.
  - destruct (pipe_at_open pipes w i Hp) as (_ & Hw2 & _ & [k2 Hw]); [lia|].
    change (0 <? 0) with false. cbn iota.
    rewrite (dup2_open _ _ _ _ Hw).
    change (STDOUT_FILENO <? 0) with false. cbn iota.
    eexists. split; [reflexivity|]. cbn. unfold STDOUT_FILENO.
    split; [|split].
    + rewrite lookup_insert_ne by lia. reflexivity.
    + rewrite lookup_insert_eq. symmetry. exact Hw.
    + intros k Hk. rewrite !lookup_insert_ne by lia. reflexivity.
  - change (0 <? 0) with false. cbn iota.
    exists w. auto.
Qed.

Lemma apply_redirect_lookup fd target w k :
  fd = -1 \/ is_Some (fdt w !! fd) ->
  fdt (apply_redirect fd target w) !! k =
    if bool_decide (fd <> -1 /\ k = target) then fdt w !! fd else fdt w !! k.
Proof.
  intros H. unfold apply_redirect.
  destruct (Z.eqb_spec fd (-1)) as [->|Hne].
  - rewrite bool_decide_eq_false_2 by (intros [? _]; congruence). reflexivity.
  - destruct H as [?|[f Hf]]; [congruence|].
    rewrite (dup2_open _ _ _ _ Hf). cbn.
    case_bool_decide as Hk.
    + destruct Hk as [_ ->]. rewrite lookup_insert_eq. symmetry. exact Hf.
    + rewrite lookup_insert_ne by (intros <-; apply Hk; auto). reflexivity.
Qed.

(** The standard streams of a pipeline child at its [execvp].  With the
    pipes open and the redirection fields holding file handles the child
    gets there, each stream for which the command has a redirection is
    bound to that file, and a stream without one stays on its pipe. *)
Lemma pipeline_child_streams pipes cmd_count i cmd w :
  length pipes = (cmd_count - 1)%nat -> (i < cmd_count)%nat ->
  pipes_open pipes w ->
  redirect_ok (input_fd cmd) w ->
  redirect_ok (output_fd cmd) w ->
  redirect_ok (error_fd cmd) w ->
  exists t w',
    pipeline_child pipes cmd_count i cmd w = (Execvp (args cmd) t, w') /\
    (input_fd cmd <> -1 -> t !! STDIN_FILENO = fdt w !! input_fd cmd) /\
    (output_fd cmd <> -1 -> t !! STDOUT_FILENO = fdt w !! output_fd cmd) /\
    (error_fd cmd <> -1 -> t !! STDERR_FILENO = fdt w !! error_fd cmd) /\
    (input_fd cmd = -1 -> (0 < i)%nat ->
       t !! STDIN_FILENO = fdt w !! (pipe_at pipes (i - 1)).1) /\
    (output_fd cmd = -1 -> (i < cmd_count - 1)%nat ->
       t !! STDOUT_FILENO = fdt w !! (pipe_at pipes i).2).
Proof.
  intros Hlen Hi Hp Hin Hout Herr.
  destruct (pipeline_child_wired pipes cmd_count i cmd w Hlen Hi Hp)
    as (w2 & -> & H0 & H1 & H2).
  set (w3 := close_pipes (take (cmd_count - 1) pipes) w2).
  assert (H3 : forall k,
             (k <= 2 \/ exists path fl, fdt w !! k = Some (OpenFile path fl)) ->
             fdt w3 !! k = fdt w2 !! k).
  { intros k Hk. apply close_pipes_lookup.
    apply (pipes_avoid pipes w _ k Hp Hk). }
  assert (Hh : forall fd, redirect_ok fd w -> fd <> -1 ->
             2 < fd /\ fdt w3 !! fd = fdt w !! fd /\ is_Some (fdt w !! fd)).
  { intros fd [?|[Hgt (path & fl & Hf)]] Hne; [congruence|].
    split; [exact Hgt|]. split; [|rewrite Hf; eauto].
    rewrite H3 by eauto. apply H2. lia. }
  set (w4 := apply_redirect (input_fd cmd) STDIN_FILENO w3).
  set (w5 := apply_redirect (output_fd cmd) STDOUT_FILENO w4).
  set (w6 := apply_redirect (error_fd cmd) STDERR_FILENO w5).
  assert (L4 : forall k, fdt w4 !! k =
            if bool_decide (input_fd cmd <> -1 /\ k = STDIN_FILENO)
            then fdt w3 !! input_fd cmd else fdt w3 !! k).
  { intros k. apply apply_redirect_lookup.
    destruct (decide (input_fd cmd = -1)) as [|Hne]; [auto|right].
    destruct (Hh _ Hin Hne) as (_ & -> & Hs). exact Hs. }
  assert (L5 : forall k, fdt w5 !! k =
            if bool_decide (output_fd cmd <> -1 /\ k = STDOUT_FILENO)
            then fdt w4 !! output_fd cmd else fdt w4 !! k).
  { intros k. apply apply_redirect_lookup.
    destruct (decide (output_fd cmd = -1)) as [|Hne]; [auto|right].
    destruct (Hh _ Hout Hne) as (Hgt & He & Hs). rewrite L4.
    rewrite bool_decide_eq_false_2 by (unfold STDIN_FILENO; lia).
    rewrite He. exact Hs. }
  assert (L6 : forall k, fdt w6 !! k =
            if bool_decide (error_fd cmd <> -1 /\ k = STDERR_FILENO)
            then fdt w5 !! error_fd cmd else fdt w5 !! k).
  { intros k. apply apply_redirect_lookup.
    destruct (decide (error_fd cmd = -1)) as [|Hne]; [auto|right].
    destruct (Hh _ Herr Hne) as (Hgt & He & Hs).
    rewrite L5, bool_decide_eq_false_2 by (unfold STDOUT_FILENO; lia).
    rewrite L4, bool_decide_eq_false_2 by (unfold STDIN_FILENO; lia).
    rewrite He. exact Hs. }
  exists (fdt w6), w6. split; [reflexivity|].
  unfold STDIN_FILENO, STDOUT_FILENO, STDERR_FILENO in *.
  repeat split.
  - intros Hne. destruct (Hh _ Hin Hne) as (_ & He & _).
    rewrite L6, bool_decide_eq_false_2 by lia.
    rewrite L5, bool_decide_eq_false_2 by lia.
    rewrite L4, bool_decide_eq_true_2 by auto. exact He.
  - intros Hne. destruct (Hh _ Hout Hne) as (Hgt & He & _).
    rewrite L6, bool_decide_eq_false_2 by lia.
    rewrite L5, bool_decide_eq_true_2 by auto.
    rewrite L4, bool_decide_eq_false_2 by lia. exact He.
  - intros Hne. destruct (Hh _ Herr Hne) as (Hgt & He & _).
    rewrite L6, bool_decide_eq_true_2 by auto.
    rewrite L5, bool_decide_eq_false_2 by lia.
    rewrite L4, bool_decide_eq_false_2 by lia. exact He.
  - intros Heq Hi0.
    rewrite L6, bool_decide_eq_false_2 by lia.
    rewrite L5, bool_decide_eq_false_2 by lia.
    rewrite L4, bool_decide_eq_false_2 by lia.
    rewrite H3 by (left; lia). rewrite H0.
    destruct (Nat.ltb_spec 0 i); [reflexivity | lia].
  - intros Heq Hi1.
    rewrite L6, bool_decide_eq_false_2 by lia.
    rewrite L5, bool_decide_eq_false_2 by lia.
    rewrite L4, bool_decide_eq_false_2 by lia.
    rewrite H3 by (left; lia). rewrite H1.
    destruct (Nat.ltb_spec i (cmd_count - 1)); [reflexivity | lia].
Qed.

End FdTables.

(* ===================================================================== *)
(** * Handles: what the parent hands to the pipeline child *)
(* ===================================================================== *)

Section Handles.
Local Open Scope Z_scope.

Lemma lowest_free_above (t : fdtable) :
  is_Some (t !! 0) -> is_Some (t !! 1) -> is_Some (t !! 2) ->
  2 < lowest_free t.
Proof.
  intros H0 H1 H2.
  destruct (lowest_free_spec t) as (Hge & Hfree & _).
  assert (Hne : forall k, is_Some (t !! k) -> lowest_free t <> k).
  { intros k Hk E. rewrite E in Hfree. rewrite Hfree in Hk.
    destruct Hk; discriminate. }
  pose proof (Hne 0 H0). pose proof (Hne 1 H1). pose proof (Hne 2 H2). lia.
Qed.

Lemma lowest_free_above_stdio w :
  stdio_in_use w -> 2 < lowest_free (fdt w).
Proof. intros (H0 & H1 & H2). apply lowest_free_above; assumption. Qed.

(** What a successful [open] does to the descriptor table: one new entry,
    at a descriptor that was free. *)
Lemma open_result file fl w :
  (open file fl w).1 = -1 /\ (open file fl w).2 = w \/
  (open file fl w).1 = lowest_free (fdt w) /\
  fdt (open file fl w).2 = <[lowest_free (fdt w) := OpenFile file fl]> (fdt w).
Proof.
  unfold open. repeat (case_bool_decide || case_match); cbn; auto.
Qed.

Lemma open_handles file fl w fd w' :
  stdio_in_use w ->
  open file fl w = (fd, w') -> (fd <? 0) = false ->
  file_handle fd w' /\ stdio_in_use w' /\
  (forall k, is_Some (fdt w !! k) -> fdt w' !! k = fdt w !! k).
Proof.
  intros Hio Hop Hfd.
  pose proof (lowest_free_above_stdio w Hio) as Habove.
  destruct (lowest_free_spec (fdt w)) as (_ & Hfree & _).
  destruct (open_result file fl w) as [[H1 _]|[H1 H2]];
    rewrite Hop in *; cbn [fst snd] in *.
  { subst fd. discriminate. }
  subst fd.
  assert (Hkeep : forall k, is_Some (fdt w !! k) -> fdt w' !! k = fdt w !! k).
  { intros k Hk. rewrite H2. apply lookup_insert_ne. intros <-.
    rewrite Hfree in Hk. destruct Hk; discriminate. }
  split; [|split; [|exact Hkeep]].
  - split; [exact Habove|]. exists file, fl. rewrite H2. apply lookup_insert_eq.
  - destruct Hio as (H0 & H1 & H3). unfold stdio_in_use.
    rewrite !Hkeep by assumption. auto.
Qed.

Lemma redirect_ok_keep fd w w' :
  (forall k, is_Some (fdt w !! k) -> fdt w' !! k = fdt w !! k) ->
  redirect_ok fd w -> redirect_ok fd w'.
Proof.
  intros Hkeep [?|[Hgt (path & fl & Hf)]]; [left; assumption|right].
  split; [exact Hgt|]. exists path, fl. rewrite Hkeep by (rewrite Hf; eauto).
  exact Hf.
Qed.

Lemma build_args_handles seg : forall cmd w cmd' w',
  stdio_in_use w ->
  redirect_ok (input_fd cmd) w -> redirect_ok (output_fd cmd) w ->
  redirect_ok (error_fd cmd) w ->
  build_args seg cmd w = (inr cmd', w') ->
  stdio_in_use w' /\ redirect_ok (input_fd cmd') w' /\
  redirect_ok (output_fd cmd') w' /\ redirect_ok (error_fd cmd') w' /\
  (forall k, is_Some (fdt w !! k) -> fdt w' !! k = fdt w !! k).
Proof.
  induction seg as [seg IH] using (induction_ltof1 _ (@length string)).
  unfold ltof in IH. intros cmd w cmd' w' Hio Hin Hout Herr Hrun.
  destruct seg as [|t rest].
  { cbn in Hrun. injection Hrun as <- <-. auto 10. }
  cbn [build_args] in Hrun.
  destruct (streq t "<"); [|destruct (streq t ">"); [|destruct (streq t "2>")]].
  4: { eapply IH; [| | | | |exact Hrun]; cbn; auto. }
  all: destruct rest as [|file rest']; [discriminate|].
  all: match type of Hrun with context [open ?f ?fl ?w] =>
         destruct (open f fl w) as [fd w1] eqn:Hop end.
  all: destruct (fd <? 0) eqn:Hfd; [discriminate|].
  all: destruct (open_handles _ _ _ _ _ Hio Hop Hfd) as (Hh & Hio1 & Hkeep).
  all: eapply IH in Hrun as (Hio' & Hin' & Hout' & Herr' & Hkeep');
         cbn [input_fd output_fd error_fd];
         [ | simpl; lia | exact Hio1 | ..];
         try (right; exact Hh); try (eapply redirect_ok_keep; eauto; fail).
  all: repeat (split; [assumption|]).
  all: intros k Hk; rewrite Hkeep'; [apply Hkeep; exact Hk|];
         rewrite Hkeep by exact Hk; exact Hk.
Qed.

(** [parse_command] hands out file handles: each redirection field of the
    command it returns is [-1] or a descriptor above the standard streams
    that is open on a file; the descriptors that were open stay as they
    were. *)
Lemma parse_command_handles tokens start end_ w cmd w' :
  stdio_in_use w ->
  parse_command tokens start end_ w = (Some cmd, w') ->
  stdio_in_use w' /\ command_ok cmd w' /\
  (forall k, is_Some (fdt w !! k) -> fdt w' !! k = fdt w !! k).
Proof.
  intros Hio. unfold parse_command.
  destruct (count_args _) as [d|[|n]]; try discriminate.
  destruct (build_args _ _ w) as [[d|c] w1] eqn:Hb; [discriminate|].
  intros H. injection H as <- <-.
  eapply build_args_handles in Hb as (H1 & H2 & H3 & H4 & H5);
    [ | exact Hio | left; reflexivity ..].
  unfold command_ok. auto.
Qed.

Lemma command_ok_keep c w w' :
  (forall k, is_Some (fdt w !! k) -> fdt w' !! k = fdt w !! k) ->
  command_ok c w -> command_ok c w'.
Proof.
  intros Hkeep (H1 & H2 & H3). unfold command_ok.
  split; [|split]; eapply redirect_ok_keep; eassumption.
Qed.

Lemma parse_commands_handles commands : forall cs w cs' w',
  stdio_in_use w -> Forall (fun c => command_ok c w) cs ->
  parse_commands commands cs w = (true, cs', w') ->
  stdio_in_use w' /\ Forall (fun c => command_ok c w') cs'.
Proof.
  induction commands as [|seg commands IH]; intros cs w cs' w' Hio Hcs Hrun.
  - cbn in Hrun. injection Hrun as <- <-. auto.
  - cbn [parse_commands] in Hrun.
    destruct (parse_command seg 0 (length seg) w) as [[cmd|] w1] eqn:Hp;
      [|discriminate].
    destruct (parse_command_handles _ _ _ _ _ _ Hio Hp) as (Hio1 & Hok & Hkeep).
    apply IH in Hrun; [exact Hrun | exact Hio1 |].
    apply Forall_app. split; [|constructor; [exact Hok | constructor]].
    eapply Forall_impl; [exact Hcs|]. intros c. apply command_ok_keep, Hkeep.
Qed.

(** What a successful [pipe] does: two new entries at descriptors that
    were free, above the standard streams. *)
Lemma pipe_result w r wr w' :
  stdio_in_use w ->
  pipe w = (Some (r, wr), w') ->
  2 < r /\ 2 < wr /\
  fdt w' !! r = Some (PipeRead (npipes w)) /\
  fdt w' !! wr = Some (PipeWrite (npipes w)) /\
  (forall k, is_Some (fdt w !! k) -> fdt w' !! k = fdt w !! k).
Proof.
  intros Hio. unfold pipe.
  set (r0 := lowest_free (fdt w)).
  set (t1 := <[r0 := PipeRead (npipes w)]> (fdt w)).
  set (wr0 := lowest_free t1).
  case_bool_decide; [discriminate|].
  intros H'. injection H' as <- <- <-. cbn [fdt set_npipes set_fdt].
  pose proof (lowest_free_above_stdio w Hio) as Hr.
  destruct (lowest_free_spec (fdt w)) as (_ & Hfree & _).
  destruct (lowest_free_spec t1) as (_ & Hfree1 & _).
  fold r0 in Hr, Hfree. fold wr0 in Hfree1.
  destruct Hio as (H0 & H1 & H2).
  unfold STDIN_FILENO, STDOUT_FILENO, STDERR_FILENO in *.
  assert (Hwr : 2 < wr0).
  { apply lowest_free_above; unfold t1; rewrite lookup_insert_ne by lia;
      assumption. }
  assert (Hne : wr0 <> r0).
  { intros E. rewrite E in Hfree1. unfold t1 in Hfree1.
    rewrite lookup_insert_eq in Hfree1. discriminate. }
  split; [exact Hr|]. split; [exact Hwr|]. split; [|split].
  - rewrite lookup_insert_ne by exact Hne. unfold t1. apply lookup_insert_eq.
  - apply lookup_insert_eq.
  - intros k Hk.
    assert (k <> r0) by (intros ->; rewrite Hfree in Hk; destruct Hk; discriminate).
    assert (k <> wr0).
    { intros ->. unfold t1 in Hfree1. rewrite lookup_insert_ne in Hfree1 by auto.
      rewrite Hfree1 in Hk. destruct Hk; discriminate. }
    rewrite lookup_insert_ne by auto. unfold t1.
    rewrite lookup_insert_ne by auto. reflexivity.
Qed.

Lemma pipes_open_keep pipes w w' :
  (forall k, is_Some (fdt w !! k) -> fdt w' !! k = fdt w !! k) ->
  pipes_open pipes w -> pipes_open pipes w'.
Proof.
  intros Hkeep Hp. unfold pipes_open in *.
  eapply Forall_impl; [exact Hp|].
  intros [r wr] (H1 & H2 & [k1 Hr] & [k2 Hw]). cbn [fst snd] in *.
  split; [exact H1|]. split; [exact H2|]. split.
  - exists k1. rewrite Hkeep by (rewrite Hr; eauto). exact Hr.
  - exists k2. rewrite Hkeep by (rewrite Hw; eauto). exact Hw.
Qed.

(** [create_pipes] hands out open pipes, and leaves the descriptors that
    were open as they were. *)
Lemma create_pipes_open n : forall pipes w pipes' w',
  stdio_in_use w -> pipes_open pipes w ->
  create_pipes n pipes w = (Some pipes', w') ->
  pipes_open pipes' w' /\ length pipes' = (length pipes + n)%nat /\
  (forall k, is_Some (fdt w !! k) -> fdt w' !! k = fdt w !! k).
Proof.
  induction n as [|n IH]; intros pipes w pipes' w' Hio Hp Hrun.
  - cbn in Hrun. injection Hrun as <- <-. auto with lia.
  - cbn [create_pipes] in Hrun.
    destruct (pipe w) as [[[r wr]|] w1] eqn:Hpipe; [|discriminate].
    destruct (pipe_result w r wr w1 Hio Hpipe) as (Hr & Hwr & Hlr & Hlw & Hkeep).
    assert (Hio1 : stdio_in_use w1).
    { destruct Hio as (H0 & H1 & H2). unfold stdio_in_use.
      rewrite !Hkeep by assumption. auto. }
    apply IH in Hrun as (Hp' & Hlen & Hkeep'); [| exact Hio1 |].
    + split; [exact Hp'|]. split.
      * rewrite Hlen, length_app. cbn [length]. lia.
      * intros k Hk. rewrite Hkeep'; [apply Hkeep; exact Hk|].
        rewrite Hkeep by exact Hk. exact Hk.
    + apply Forall_app. split; [apply (pipes_open_keep pipes w); assumption|].
      constructor; [|constructor]. cbn [fst snd]. eauto 10.
Qed.

(** From the shell to the child.  In a shell whose standard streams are
    in use, once the segments are parsed and the pipes created, every stage
    reaches [execvp] with each stream it redirects bound to a file. *)
Lemma pipeline_children_redirected commands w cs w1 pipes w2 i cmd :
  stdio_in_use w ->
  parse_commands commands [] w = (true, cs, w1) ->
  create_pipes (length cs - 1) [] w1 = (Some pipes, w2) ->
  cs !! i = Some cmd ->
  exists t w',
    pipeline_child pipes (length cs) i cmd w2 = (Execvp (args cmd) t, w') /\
    (input_fd cmd <> -1 ->
       exists path fl, t !! STDIN_FILENO = Some (OpenFile path fl)) /\
    (output_fd cmd <> -1 ->
       exists path fl, t !! STDOUT_FILENO = Some (OpenFile path fl)) /\
    (error_fd cmd <> -1 ->
       exists path fl, t !! STDERR_FILENO = Some (OpenFile path fl)).
Proof.
  intros Hio Hparse Hpipes Hi.
  destruct (parse_commands_handles _ _ _ _ _ Hio ltac:(constructor) Hparse)
    as (Hio1 & Hcs).
  destruct (create_pipes_open _ _ _ _ _ Hio1 ltac:(constructor) Hpipes)
    as (Hp & Hlen & Hkeep).
  assert (Hok : command_ok cmd w2).
  { apply (command_ok_keep cmd w1); [exact Hkeep|].
    rewrite Forall_forall in Hcs. apply Hcs.
    apply list_elem_of_lookup. eauto. }
  destruct Hok as (Hin & Hout & Herr).
  apply lookup_lt_Some in Hi.
  destruct (pipeline_child_streams pipes (length cs) i cmd w2)
    as (t & w' & Hrun & Tin & Tout & Terr & _); auto.
  exists t, w'. split; [exact Hrun|].
  assert (Hfile : forall fd, redirect_ok fd w2 -> fd <> -1 ->
            exists path fl, fdt w2 !! fd = Some (OpenFile path fl)).
  { intros fd [?|[_ H]] Hne; [congruence | exact H]. }
  split; [|split].
  - intros Hne. rewrite Tin by exact Hne. auto.
  - intros Hne. rewrite Tout by exact Hne. auto.
  - intros Hne. rewrite Terr by exact Hne. auto.
Qed.

(** C9: in a pipeline child that [execute_line] starts in a shell whose
    descriptors 0, 1 and 2 are open, the redirections of the command are
    applied after the pipe wiring, so a standard stream that has both a
    pipe connection and a file redirection ends up bound to the file, not
    to the pipe: stdin of a stage that is not the first, stdout of a stage
    that is not the last.  The child runs on a copy [wi] of the descriptor
    table the shell has when the pipes are made. *)
Theorem redirection_overrides_pipe (tokens : list string)
    (commands : list (list string)) (w w1 w2 wi : world)
    (cs : list Command) (pipes : list (Z * Z)) (i : nat) (cmd : Command) :
  stdio_in_use w ->
  split_pipeline tokens = inr commands ->
  parse_commands commands [] w = (true, cs, w1) ->
  create_pipes (length cs - 1) [] w1 = (Some pipes, w2) ->
  fdt wi = fdt w2 ->
  cs !! i = Some cmd ->
  exists t w',
    pipeline_child pipes (length cs) i cmd wi = (Execvp (args cmd) t, w') /\
    ((0 < i)%nat -> input_fd cmd <> -1 ->
       (exists path fl, t !! STDIN_FILENO = Some (OpenFile path fl)) /\
       t !! STDIN_FILENO = fdt w2 !! input_fd cmd /\
       t !! STDIN_FILENO <> fdt w2 !! (pipe_at pipes (i - 1)).1) /\
    ((i < length cs - 1)%nat -> output_fd cmd <> -1 ->
       (exists path fl, t !! STDOUT_FILENO = Some (OpenFile path fl)) /\
       t !! STDOUT_FILENO = fdt w2 !! output_fd cmd /\
       t !! STDOUT_FILENO <> fdt w2 !! (pipe_at pipes i).2).
Proof.
  intros Hio _ Hparse Hpipes Hwi Hi.
  destruct (parse_commands_handles _ _ _ _ _ Hio ltac:(constructor) Hparse)
    as (Hio1 & Hcs).
  destruct (create_pipes_open _ _ _ _ _ Hio1 ltac:(constructor) Hpipes)
    as (Hp & Hlen & Hkeep).
  assert (Hok : command_ok cmd w2).
  { apply (command_ok_keep cmd w1); [exact Hkeep|].
    rewrite Forall_forall in Hcs. apply Hcs.
    apply list_elem_of_lookup. eauto. }
  assert (Hpi : pipes_open pipes wi) by (unfold pipes_open; rewrite Hwi; exact Hp).
  assert (Hoki : command_ok cmd wi).
  { unfold command_ok, redirect_ok, file_handle. rewrite Hwi. exact Hok. }
  destruct Hoki as (Hin & Hout & Herr).
  apply lookup_lt_Some in Hi. cbn [length Nat.add] in Hlen.
  destruct (pipeline_child_streams pipes (length cs) i cmd wi Hlen Hi Hpi
              Hin Hout Herr) as (t & w' & Hrun & Tin & Tout & _).
  exists t, w'. split; [exact Hrun|]. rewrite <- Hwi. split.
  - intros Hi0 Hne. rewrite (Tin Hne).
    destruct Hin as [?|[_ (path & fl & Hf)]]; [congruence|].
    split; [eauto|]. split; [reflexivity|].
    destruct (pipe_at_open pipes wi (i - 1)%nat Hpi) as (_ & _ & [k Hr] & _);
      [lia|].
    rewrite Hf, Hr. discriminate.
  - intros Hi1 Hne. rewrite (Tout Hne).
    destruct Hout as [?|[_ (path & fl & Hf)]]; [congruence|].
    split; [eauto|]. split; [reflexivity|].
    destruct (pipe_at_open pipes wi i Hpi) as (_ & _ & _ & [k Hw]); [lia|].
    rewrite Hf, Hw. discriminate.
Qed.

Lemma redirection_overrides_pipe_witness :
  exists t w',
    pipeline_child [(5, 6); (7, 8)] 3 1 sort_stage
      (create_pipes 2 []
         (parse_commands
            [["ls"]; ["sort"; "<"; "in.txt"; ">"; "out.txt"]; ["wc"]] []
            leak_shell).2).2
      = (Execvp ["sort"] t, w') /\
    t !! STDIN_FILENO = Some (OpenFile "in.txt" RdOnly) /\
    t !! STDOUT_FILENO = Some (OpenFile "out.txt" WrTrunc).
Proof.
  destruct (redirection_overrides_pipe
              ["ls"; "|"; "sort"; "<"; "in.txt"; ">"; "out.txt"; "|"; "wc"]
              [["ls"]; ["sort"; "<"; "in.txt"; ">"; "out.txt"]; ["wc"]]
              leak_shell
              (parse_commands
                 [["ls"]; ["sort"; "<"; "in.txt"; ">"; "out.txt"]; ["wc"]] []
                 leak_shell).2
              (create_pipes 2 []
                 (parse_commands
                    [["ls"]; ["sort"; "<"; "in.txt"; ">"; "out.txt"]; ["wc"]] []
                    leak_shell).2).2
              (create_pipes 2 []
                 (parse_commands
                    [["ls"]; ["sort"; "<"; "in.txt"; ">"; "out.txt"]; ["wc"]] []
                    leak_shell).2).2
              [stage "ls"; sort_stage; stage "wc"] [(5, 6); (7, 8)] 1 sort_stage)
    as (t & w' & Hrun & Hin & Hout).
  - unfold stdio_in_use.
    repeat match goal with |- _ /\ _ => split end; vm_compute; eauto.
  - vm_compute; reflexivity.
  - vm_compute; reflexivity.
  - vm_compute; reflexivity.
  - reflexivity.
  - reflexivity.
  - exists t, w'. split; [exact Hrun|]. split.
    + destruct Hin as (_ & -> & _); [lia | discriminate |].
      vm_compute; reflexivity.
    + destruct Hout as (_ & -> & _); [cbn; lia | discriminate |].
      vm_compute; reflexivity.
Defined.

End Handles.

(* ===================================================================== *)
(** * Shell *)
(* ===================================================================== *)


Lemma close_command_procs c w : procs (close_command c w) = procs w.
Proof. unfold close_command. repeat case_match; reflexivity. Qed.

Lemma close_commands_procs cs : forall w, procs (close_commands cs w) = procs w.
Proof.
  unfold close_commands. induction cs as [|c cs IH]; intros w; [reflexivity|].
  cbn [fold_left]. rewrite IH. apply close_command_procs.
Qed.

Lemma parse_commands_procs commands : forall cs w,
  procs (parse_commands commands cs w).2 = procs w.
Proof.
  induction commands as [|seg commands IH]; intros cs w; [reflexivity|].
  cbn [parse_commands].
  pose proof (parse_command_procs seg 0 (length seg) w) as Hp.
  destruct (parse_command seg 0 (length seg) w) as [[cmd|] w1]; cbn [snd] in *.
  - rewrite IH. exact Hp.
  - rewrite close_commands_procs. exact Hp.
Qed.

Lemma parse_command_syntax_bad seg w :
  syntax_bad seg = true -> (parse_command seg 0 (length seg) w).1 = None.
Proof.
  unfold syntax_bad, parse_command.
  rewrite Nat.sub_0_r, drop_0, firstn_all.
  destruct (count_args seg) as [d|[|n]]; [reflexivity | reflexivity | discriminate].
Qed.

Lemma parse_commands_invalid commands : forall cs w,
  existsb syntax_bad commands = true ->
  (parse_commands commands cs w).1.1 = false.
Proof.
  induction commands as [|seg commands IH]; intros cs w H; [discriminate|].
  cbn [parse_commands existsb] in *.
  destruct (parse_command seg 0 (length seg) w) as [[cmd|] w1] eqn:Hp;
    [|reflexivity].
  apply orb_prop in H as [Hbad|Hrest].
  - apply (parse_command_syntax_bad seg w) in Hbad. rewrite Hp in Hbad. discriminate.
  - apply IH. exact Hrest.
Qed.

Lemma handle_builtin_procs tokens w :
  procs (handle_builtin tokens w).2 = procs w.
Proof. unfold handle_builtin. repeat (case_bool_decide || case_match); reflexivity. Qed.

Lemma execute_tokens_rejected tokens w :
  rejected_before_fork tokens = true ->
  procs (execute_tokens tokens w) = procs w.
Proof.
  unfold rejected_before_fork, execute_tokens.
  destruct (split_pipeline tokens) as [d|commands]; [reflexivity|].
  intros H. apply andb_prop in H as [Hlen Hbad].
  apply negb_true_iff in Hlen. rewrite Hlen.
  pose proof (parse_commands_procs commands [] w) as Hp.
  pose proof (parse_commands_invalid commands [] w Hbad) as Hv.
  destruct (parse_commands commands [] w) as [[valid cs] w1]. cbn in Hp, Hv.
  subst valid. cbn. rewrite close_commands_procs. exact Hp.
Qed.

(** C5, as the code has it: no child is forked for a line that the
    splitter rejects, nor for a line of two or more segments one of which
    [parse_command] rejects on its syntax.  (A line with one command is
    forked first; its redirections are examined in the child.) *)
Theorem no_fork_on_rejected_line (line : string) (w : world) :
  rejected_before_fork (parse_input (strip_newline line)) = true ->
  procs (execute_line line w) = procs w.
Proof.
  intros H. unfold execute_line.
  destruct (streq (strip_newline line) ""); [reflexivity|].
  destruct (parse_input (strip_newline line)) as [|t tokens] eqn:Htok;
    [reflexivity|].
  pose proof (handle_builtin_procs (t :: tokens) w) as Hb.
  destruct (handle_builtin (t :: tokens) w) as [handled w1]. cbn [snd] in Hb.
  destruct handled; [exact Hb|].
  rewrite execute_tokens_rejected by exact H. exact Hb.
Qed.

Lemma no_fork_on_rejected_line_witness :
  procs (execute_line "ls | >" plain_shell) = procs plain_shell.
Proof. apply no_fork_on_rejected_line. vm_compute. reflexivity. Defined.

(** A single command is forked whatever its redirections look like: they
    are examined by [setup_redirection] in the child. *)
Lemma single_command_forks tokens seg w :
  split_pipeline tokens = inr [seg] -> nproc w <> O ->
  exists p o, procs (execute_tokens tokens w) = procs w ++ [Child p o].
Proof.
  intros Hsplit Hn. unfold execute_tokens. rewrite Hsplit. cbn.
  unfold execute_command, fork.
  destruct (nproc w) as [|n]; [congruence|].
  destruct (command_child tokens w) as [o wc].
  destruct (_ <? 0)%Z; do 2 eexists; reflexivity.
Qed.

(** C5 as stated fails: this line is rejected with a syntax error, the
    missing redirection target, and the shell has forked a child for it,
    the child being the one that found the error. *)
Lemma single_command_rejected_after_fork :
  ~ (rejected_with_syntax_error "ls >" plain_shell ->
     procs (execute_line "ls >" plain_shell) = procs plain_shell).
Proof.
  intros H.
  assert (Hrej : rejected_with_syntax_error "ls >" plain_shell).
  { exists MissingRedirectTarget. split; reflexivity. }
  specialize (H Hrej). vm_compute in H. discriminate H.
Qed.

Example single_command_error_in_child :
  procs (execute_line "ls >" plain_shell) = [Child 1 ExitFailure] /\
  err (execute_line "ls >" plain_shell) = [MissingRedirectTarget].
Proof. split; reflexivity. Qed.

(* ===================================================================== *)
(** * Failure paths and the append operator *)
(* ===================================================================== *)

Section Evaluations.
Local Open Scope Z_scope.

(** Closed statements are settled by running the model. *)
Ltac run_model :=
  repeat match goal with |- _ /\ _ => split end;
  repeat match goal with |- exists _, _ => eexists end;
  vm_compute; reflexivity.

(** C1: [parse_command] returns NULL when the second [open] fails and
    leaves the descriptor of the first one open.  Descriptor 3 is free
    before the call and refers to [in.txt] after it; the loop of
    [execute_line] that called it has no [Command] to clean up, so the
    descriptor stays open there as well. *)
Theorem parse_command_leaks_descriptor :
  (parse_command ["cat"; "<"; "in.txt"; ">"; "/no/out"] 0 5 leak_shell).1 = None /\
  err (parse_command ["cat"; "<"; "in.txt"; ">"; "/no/out"] 0 5 leak_shell).2
    = [SysError] /\
  fdt leak_shell !! 3 = None /\
  fdt (parse_command ["cat"; "<"; "in.txt"; ">"; "/no/out"] 0 5 leak_shell).2 !! 3
    = Some (OpenFile "in.txt" RdOnly) /\
  (parse_commands [["cat"; "<"; "in.txt"; ">"; "/no/out"]; ["wc"]] []
     leak_shell).1 = (false, []) /\
  fdt (parse_commands [["cat"; "<"; "in.txt"; ">"; "/no/out"]; ["wc"]] []
         leak_shell).2 !! 3 = Some (OpenFile "in.txt" RdOnly).
Proof. run_model. Qed.

(** The commands built before the failing one are cleaned up by the
    caller: the leak is that of the failing call alone. *)
Example earlier_commands_are_closed :
  fdt (parse_commands [["sort"; "<"; "in.txt"]; ["cat"; ">"; "/no/out"]] []
         leak_shell).2 = stdio.
Proof. run_model. Qed.

(** C3: [parse_command] has no case for the append operator.  The
    operator and the file name stay in the argument vector, no file is
    opened and the output field keeps [-1]. *)
Theorem parse_command_ignores_append :
  parse_command ["sort"; ">>"; "out.txt"] 0 3 plain_shell
  = (Some (mkCommand ["sort"; ">>"; "out.txt"] (-1) (-1) (-1)), plain_shell).
Proof. run_model. Qed.

(** [setup_redirection], on the path of a single command, does what C3
    says: the file is opened for appending and bound to stdout, and operator
    and file name are left out of the new argument vector. *)
Example setup_redirection_append :
  (setup_redirection ["sort"; ">>"; "out.txt"] plain_shell).1 = NewArgs ["sort"] /\
  fdt (setup_redirection ["sort"; ">>"; "out.txt"] plain_shell).2 !! STDOUT_FILENO
    = Some (OpenFile "out.txt" WrAppend) /\
  files (setup_redirection ["sort"; ">>"; "out.txt"] precious_shell).2 !! "out.txt"
    = Some "precious".
Proof. run_model. Qed.

(** The append operator in a pipeline stage: the program is started with
    the operator and the file name as arguments, its stdout on the
    terminal. *)
Example append_in_pipeline :
  exists t1 t2,
    procs (execute_line "ls | sort >> out.txt" plain_shell)
      = [Child 1 (Execvp ["ls"] t1);
         Child 2 (Execvp ["sort"; ">>"; "out.txt"] t2)] /\
    t2 !! STDOUT_FILENO = Some Terminal /\
    files (execute_line "ls | sort >> out.txt" plain_shell) !! "out.txt" = None.
Proof. do 2 eexists. run_model. Qed.

(** C4: a line that is nothing but a redirection is a single segment, so
    it goes to [execute_command]: a child is forked, [setup_redirection]
    creates the file (and empties one that exists), no missing command is
    reported, and [execvp] is called with an empty argument vector. *)
Theorem lone_redirection_creates_file :
  split_pipeline (parse_input "> out.txt") = inr [[">"; "out.txt"]] /\
  files plain_shell !! "out.txt" = None /\
  files (execute_line "> out.txt" plain_shell) !! "out.txt" = Some "" /\
  files (execute_line "> out.txt" precious_shell) !! "out.txt" = Some "" /\
  err (execute_line "> out.txt" plain_shell) = [] /\
  exists t, procs (execute_line "> out.txt" plain_shell) = [Child 1 (Execvp [] t)].
Proof. run_model. Qed.

(** In a pipeline the same segment is rejected by [parse_command] before
    anything is opened. *)
Example lone_redirection_in_pipeline :
  parse_command [">"; "out.txt"] 0 2 plain_shell
  = (None, report MissingCommand plain_shell).
Proof. apply parse_command_only_redirections. reflexivity. Qed.

(** C6: both early returns of [execute_pipeline].  When the second [pipe]
    fails both ends of the first pipe stay open.  When the second [fork]
    fails the first child is never waited for, and the pipes stay open as
    well. *)
Theorem execute_pipeline_early_returns :
  (err (execute_pipeline [stage "a"; stage "b"; stage "c"] 3 tight_fd_shell)
     = [PipeFailed] /\
   fdt tight_fd_shell !! 3 = None /\
   fdt (execute_pipeline [stage "a"; stage "b"; stage "c"] 3 tight_fd_shell) !! 3
     = Some (PipeRead 0) /\
   fdt (execute_pipeline [stage "a"; stage "b"; stage "c"] 3 tight_fd_shell) !! 4
     = Some (PipeWrite 0)) /\
  (err (execute_pipeline [stage "a"; stage "b"; stage "c"] 3 one_proc_shell)
     = [ForkFailed] /\
   map pid (procs (execute_pipeline [stage "a"; stage "b"; stage "c"] 3
                     one_proc_shell)) = [1] /\
   reaped (execute_pipeline [stage "a"; stage "b"; stage "c"] 3 one_proc_shell)
     = [] /\
   unreaped (execute_pipeline [stage "a"; stage "b"; stage "c"] 3 one_proc_shell)
     = [1] /\
   fdt (execute_pipeline [stage "a"; stage "b"; stage "c"] 3 one_proc_shell) !! 3
     = Some (PipeRead 0)).
Proof. run_model. Qed.

(** Without a failure every pipe end is closed and every child waited
    for. *)
Example execute_pipeline_clean :
  unreaped (execute_pipeline [stage "a"; stage "b"; stage "c"] 3 plain_shell) = [] /\
  fdt (execute_pipeline [stage "a"; stage "b"; stage "c"] 3 plain_shell) = stdio /\
  reaped (execute_pipeline [stage "a"; stage "b"; stage "c"] 3 plain_shell)
    = [1; 2; 3].
Proof. run_model. Qed.

(** C9, without the condition: in a shell that was started with
    descriptor 1 closed, [open] hands out 1 for the output file of
    [sort]; the child first binds 1 to its pipe, and the redirection
    [dup2(1, 1)] then changes nothing, so the stream that has both a file
    redirection and a pipe connection stays on the pipe. *)
Lemma redirection_lost_without_stdout :
  fdt no_stdout_shell !! STDOUT_FILENO = None /\
  (parse_commands [["ls"]; ["sort"; ">"; "out.txt"]; ["wc"]] []
     no_stdout_shell).1
    = (true, [stage "ls"; mkCommand ["sort"] (-1) 1 (-1); stage "wc"]) /\
  (exists t1 t2 t3,
     procs (execute_line "ls | sort > out.txt | wc" no_stdout_shell)
       = [Child 1 (Execvp ["ls"] t1); Child 2 (Execvp ["sort"] t2);
          Child 3 (Execvp ["wc"] t3)] /\
     t2 !! STDOUT_FILENO = Some (PipeWrite 1)).
Proof.
  split; [vm_compute; reflexivity|]. split; [vm_compute; reflexivity|].
  eexists _, _, _. split; vm_compute; reflexivity.
Qed.

End Evaluations.

(* ===================================================================== *)
(** * Further properties of the tokenizer *)
(* ===================================================================== *)

Section TokenizerMore.

Lemma find_end_le fuel : forall buf i in_quotes quote_char buf' j,
  (i <= length buf)%nat ->
  find_end fuel buf i in_quotes quote_char = (buf', j) ->
  (j <= length buf')%nat.
Proof.
  induction fuel as [|fuel IH]; intros buf i in_quotes quote_char buf' j Hi Hrun.
  { cbn in Hrun. injection Hrun as <- <-. exact Hi. }
  cbn [find_end] in Hrun.
  destruct (Nat.ltb_spec i (length buf)) as [Hlt|Hge].
  - destruct (is_quote (char_at buf i) && negb in_quotes).
    { apply IH in Hrun; [exact Hrun | rewrite length_memmove_del by lia; lia]. }
    destruct (is_quote (char_at buf i) && Ascii.eqb (char_at buf i) quote_char).
    { apply IH in Hrun; [exact Hrun | rewrite length_memmove_del by lia; lia]. }
    destruct (negb in_quotes && isspace (char_at buf i)).
    + injection Hrun as <- <-. lia.
    + apply IH in Hrun; [exact Hrun | lia].
  - injection Hrun as <- <-. lia.
Qed.

Lemma substring_nonempty buf start len :
  (0 < len)%nat -> (start < length buf)%nat -> substring buf start len <> "".
Proof.
  intros Hlen Hstart. unfold substring.
  destruct (take len (drop start buf)) as [|c l] eqn:Ht; [|discriminate].
  apply (f_equal length) in Ht. rewrite length_take, length_drop in Ht.
  simpl in Ht. lia.
Qed.

Lemma tokenize_no_empty fuel : forall buf i tokens,
  Forall (fun t => t <> "") tokens ->
  Forall (fun t => t <> "") (tokenize fuel buf i tokens).
Proof.
  induction fuel as [|fuel IH]; intros buf i tokens Hacc; [exact Hacc|].
  cbn [tokenize].
  destruct (i <? length buf)%nat; [|exact Hacc].
  destruct (Nat.leb_spec (length buf) (skip_space (length buf) buf i)) as [|Hlt];
    [exact Hacc|].
  destruct (find_end _ _ _ _ _) as [buf' j] eqn:Hfe.
  assert (Hj : (j <= length buf')%nat) by (eapply find_end_le; [|exact Hfe]; lia).
  assert (Hacc' : Forall (fun t => t <> "")
            (if (0 <? j - skip_space (length buf) buf i)%nat
             then tokens ++ [substring buf' (skip_space (length buf) buf i)
                               (j - skip_space (length buf) buf i)]
             else tokens)).
  { destruct (Nat.ltb_spec 0 (j - skip_space (length buf) buf i)); [|exact Hacc].
    apply Forall_app. split; [exact Hacc|]. constructor; [|constructor].
    apply substring_nonempty; lia. }
  destruct (_ && _); apply IH; [|exact Hacc'].
  apply Forall_app. split; [exact Hacc'|]. constructor; [discriminate|constructor].
Qed.

(** X1: the tokenizer never emits an empty token, whatever the line: an
    empty pair of quotes, or quotes around nothing but the end of the line,
    add nothing to the token array. *)
Theorem parse_input_no_empty_token (input : string) :
  Forall (fun t => t <> "") (parse_input input).
Proof. unfold parse_input. apply tokenize_no_empty. constructor. Qed.

End TokenizerMore.

Section TokenizerBlanks.

Lemma char_at_forallb (P : ascii -> bool) (l : list ascii) k :
  forallb P l = true -> (k < length l)%nat -> P (char_at l k) = true.
Proof.
  revert k. induction l as [|c l IH]; intros k Hp Hk; simpl in *; [lia|].
  apply andb_prop in Hp as [Hc Hl]. destruct k; [exact Hc|].
  apply IH; [exact Hl | lia].
Qed.

Lemma drop_char_at (buf : list ascii) i :
  (i < length buf)%nat -> drop i buf = char_at buf i :: drop (S i) buf.
Proof.
  intros Hi. unfold char_at.
  destruct (lookup_lt_is_Some_2 buf i Hi) as [c Hc].
  rewrite (drop_S buf c i Hc). f_equal.
  symmetry. apply nth_lookup_Some with (d := NUL) in Hc. exact Hc.
Qed.

Lemma skip_space_spaces fuel : forall buf i k,
  (i <= k < skip_space fuel buf i)%nat -> isspace (char_at buf k) = true.
Proof.
  induction fuel as [|fuel IH]; intros buf i k Hk; cbn [skip_space] in Hk; [lia|].
  destruct ((i <? length buf)%nat && isspace (char_at buf i)) eqn:Hc; [|lia].
  apply andb_prop in Hc as [_ Hs].
  destruct (Nat.eq_dec k i) as [->|Hne]; [exact Hs|].
  apply (IH buf (S i)). lia.
Qed.

Lemma skip_space_le fuel : forall buf i,
  (skip_space fuel buf i <= Nat.max i (length buf))%nat.
Proof.
  induction fuel as [|fuel IH]; intros buf i; cbn [skip_space]; [lia|].
  destruct (Nat.ltb_spec i (length buf)) as [Hlt|Hge]; cbn [andb]; [|lia].
  destruct (isspace (char_at buf i)); [|lia].
  specialize (IH buf (S i)). lia.
Qed.

Lemma parse_input_of_blanks (input : string) :
  blank input = true -> parse_input input = [].
Proof.
  unfold blank, parse_input. intros Hb.
  set (buf := list_ascii_of_string input) in *.
  cbn [tokenize].
  destruct (Nat.ltb_spec 0 (length buf)) as [Hlt|]; [|reflexivity].
  destruct (Nat.leb_spec (length buf) (skip_space (length buf) buf 0)) as [|Hlt1];
    [reflexivity|].
  pose proof (skip_space_not_space (length buf) buf 0 ltac:(lia) Hlt1) as Hns.
  rewrite (char_at_forallb isspace buf _ Hb Hlt1) in Hns. discriminate.
Qed.

(** X2: a line of blanks only has no tokens. *)
Theorem parse_input_blank (input : string) :
  blank input = true -> parse_input input = [].
Proof. apply parse_input_of_blanks. Qed.

Lemma parse_input_blank_witness : parse_input "  " = [].
Proof. apply parse_input_blank. reflexivity. Defined.

Lemma nonspace_skip (buf : list ascii) i j :
  (i <= j <= length buf)%nat ->
  (forall k, (i <= k < j)%nat -> isspace (char_at buf k) = true) ->
  nonspace (drop i buf) = nonspace (drop j buf).
Proof.
  intros Hij Hs. remember (j - i)%nat as n eqn:Hn.
  revert i Hij Hs Hn. induction n as [|n IH]; intros i Hij Hs Hn.
  - replace j with i by lia. reflexivity.
  - rewrite (drop_char_at buf i) by lia. unfold nonspace. cbn [List.filter].
    rewrite (Hs i) by lia. cbn [negb]. apply IH; [lia | intros k Hk; apply Hs; lia | lia].
Qed.

Lemma nonspace_take (buf : list ascii) i j :
  (i <= j <= length buf)%nat ->
  (forall k, (i <= k < j)%nat -> isspace (char_at buf k) = false) ->
  nonspace (drop i buf) = take (j - i) (drop i buf) ++ nonspace (drop j buf).
Proof.
  intros Hij Hs. remember (j - i)%nat as n eqn:Hn.
  revert i Hij Hs Hn. induction n as [|n IH]; intros i Hij Hs Hn.
  - replace j with i by lia. reflexivity.
  - rewrite (drop_char_at buf i) by lia. unfold nonspace. cbn [List.filter take].
    rewrite (Hs i) by lia. cbn [negb app]. f_equal.
    apply IH; [lia | intros k Hk; apply Hs; lia | lia].
Qed.

(** On a buffer without quote characters the scan changes nothing and runs
    over characters that are no blanks. *)
Lemma find_end_quote_free fuel : forall buf i q buf' j,
  forallb (fun c => negb (is_quote c)) buf = true ->
  find_end fuel buf i false q = (buf', j) ->
  buf' = buf /\ (i <= j)%nat /\
  forall k, (i <= k < j)%nat -> isspace (char_at buf k) = false.
Proof.
  induction fuel as [|fuel IH]; intros buf i q buf' j Hq Hrun.
  { cbn in Hrun. injection Hrun as <- <-. split; [reflexivity|]. split; [lia|]. lia. }
  cbn [find_end] in Hrun.
  destruct (Nat.ltb_spec i (length buf)) as [Hlt|Hge].
  - pose proof (char_at_forallb _ buf i Hq Hlt) as Hnq.
    apply negb_true_iff in Hnq. rewrite Hnq in Hrun. cbn [andb negb] in Hrun.
    destruct (isspace (char_at buf i)) eqn:Hs.
    + injection Hrun as <- <-. split; [reflexivity|]. split; [lia|]. lia.
    + apply IH in Hrun as (-> & Hle & Hk); [|exact Hq].
      split; [reflexivity|]. split; [lia|].
      intros k Hik. destruct (Nat.eq_dec k i) as [->|]; [exact Hs | apply Hk; lia].
  - injection Hrun as <- <-. split; [reflexivity|]. split; [lia|]. lia.
Qed.

Lemma token_chars_snoc tokens t :
  token_chars (tokens ++ [t]) = token_chars tokens ++ list_ascii_of_string t.
Proof.
  unfold token_chars. rewrite map_app, concat_app. cbn. rewrite app_nil_r. reflexivity.
Qed.

Lemma tokenize_quote_free fuel : forall buf i tokens,
  forallb (fun c => negb (is_quote c)) buf = true ->
  (length buf - i < fuel)%nat ->
  token_chars (tokenize fuel buf i tokens)
  = token_chars tokens ++ nonspace (drop i buf).
Proof.
  induction fuel as [|fuel IH]; intros buf i tokens Hq Hf; [lia|].
  cbn [tokenize].
  destruct (Nat.ltb_spec i (length buf)) as [Hlt|Hge].
  2:{ rewrite drop_ge by lia. cbn. rewrite app_nil_r. reflexivity. }
  set (i1 := skip_space (length buf) buf i).
  pose proof (skip_space_ge (length buf) buf i) as Hge1.
  pose proof (skip_space_le (length buf) buf i) as Hle1.
  fold i1 in Hge1, Hle1.
  rewrite (nonspace_skip buf i i1)
    by (try lia; intros k Hk; apply (skip_space_spaces (length buf) buf i); exact Hk).
  destruct (Nat.leb_spec (length buf) i1) as [Hend|Hlt1].
  { rewrite drop_ge by lia. cbn. rewrite app_nil_r. reflexivity. }
  pose proof (skip_space_not_space (length buf) buf i ltac:(lia) Hlt1) as Hns.
  fold i1 in Hns.
  destruct (find_end (length buf) buf i1 false NUL) as [buf' j] eqn:Hfe.
  assert (Hjle : (j <= length buf')%nat)
    by (eapply find_end_le; [|exact Hfe]; lia).
  assert (Hprog : (length buf' - j < length buf - i1)%nat).
  { destruct (length buf) as [|n] eqn:Hn; [lia|].
    rewrite <- Hn in *. rewrite Hn in Hfe at 1.
    eapply find_end_progress; eauto. }
  apply find_end_quote_free in Hfe as (-> & Hij & Hchars); [|exact Hq].
  destruct (Nat.ltb_spec 0 (j - i1)) as [_|]; [|lia].
  rewrite (nonspace_take buf i1 j) by (try lia; exact Hchars).
  set (tok := substring buf i1 (j - i1)).
  assert (Htok : list_ascii_of_string tok = take (j - i1) (drop i1 buf))
    by apply list_ascii_of_string_of_list_ascii.
  set (i2 := skip_space (length buf) buf j).
  pose proof (skip_space_ge (length buf) buf j) as Hge2.
  pose proof (skip_space_le (length buf) buf j) as Hle2.
  fold i2 in Hge2, Hle2.
  rewrite (nonspace_skip buf j i2)
    by (try lia; intros k Hk; apply (skip_space_spaces (length buf) buf j); exact Hk).
  destruct (Ascii.eqb (char_at buf i2) ">") eqn:H1; cbn [andb].
  2:{ rewrite IH by (try exact Hq; lia).
      rewrite token_chars_snoc, Htok, <- app_assoc. reflexivity. }
  destruct (Ascii.eqb (char_at buf (S i2)) ">") eqn:H2.
  2:{ rewrite IH by (try exact Hq; lia).
      rewrite token_chars_snoc, Htok, <- app_assoc. reflexivity. }
  apply Ascii.eqb_eq in H1, H2.
  assert (Hi2 : (S i2 < length buf)%nat).
  { destruct (Nat.ltb_spec (S i2) (length buf)) as [|Hge3]; [assumption|].
    unfold char_at in H2. rewrite nth_overflow in H2 by lia. discriminate. }
  rewrite IH by (try exact Hq; lia).
  rewrite !token_chars_snoc, Htok, <- !app_assoc. do 2 f_equal.
  rewrite (drop_char_at buf i2) by lia. rewrite (drop_char_at buf (S i2)) by lia.
  rewrite H1, H2. replace (i2 + 2)%nat with (S (S i2)) by lia. reflexivity.
Qed.

(** X3: on a line without quote characters the tokens are the line cut at
    its blanks: written one after the other they are the characters of the
    line that are no blanks, in order.  No character is lost, none added and
    none moved, also where the append operator is split off. *)
Theorem parse_input_keeps_characters (input : string) :
  quote_free input = true ->
  token_chars (parse_input input)
  = List.filter (fun c => negb (isspace c)) (list_ascii_of_string input).
Proof.
  intros Hq. unfold parse_input.
  rewrite tokenize_quote_free by (try exact Hq; lia).
  rewrite drop_0. reflexivity.
Qed.

Lemma parse_input_keeps_characters_witness :
  token_chars (parse_input "ls -l  >>out | wc")
  = list_ascii_of_string "ls-l>>out|wc".
Proof. apply (parse_input_keeps_characters "ls -l  >>out | wc"). reflexivity. Defined.

End TokenizerBlanks.

Section TokenizerShape.

Lemma take_blank_free (buf : list ascii) i j :
  (i <= j <= length buf)%nat ->
  (forall k, (i <= k < j)%nat -> isspace (char_at buf k) = false) ->
  forallb (fun c => negb (isspace c)) (take (j - i) (drop i buf)) = true.
Proof.
  intros Hij Hs. remember (j - i)%nat as n eqn:Hn.
  revert i Hij Hs Hn. induction n as [|n IH]; intros i Hij Hs Hn; [reflexivity|].
  rewrite (drop_char_at buf i) by lia. cbn [take forallb].
  rewrite (Hs i) by lia. cbn [negb andb].
  apply IH; [lia | intros k Hk; apply Hs; lia | lia].
Qed.

Lemma tokenize_blank_free fuel : forall buf i tokens,
  forallb (fun c => negb (is_quote c)) buf = true ->
  Forall (fun t => blank_free t = true) tokens ->
  Forall (fun t => blank_free t = true) (tokenize fuel buf i tokens).
Proof.
  induction fuel as [|fuel IH]; intros buf i tokens Hq Hacc; [exact Hacc|].
  cbn [tokenize].
  destruct (i <? length buf)%nat; [|exact Hacc].
  set (i1 := skip_space (length buf) buf i).
  destruct (Nat.leb_spec (length buf) i1) as [|Hlt]; [exact Hacc|].
  destruct (find_end (length buf) buf i1 false NUL) as [buf' j] eqn:Hfe.
  assert (Hjle : (j <= length buf')%nat)
    by (eapply find_end_le; [|exact Hfe]; lia).
  apply find_end_quote_free in Hfe as (-> & Hij & Hchars); [|exact Hq].
  assert (Hacc' : Forall (fun t => blank_free t = true)
            (if (0 <? j - i1)%nat
             then tokens ++ [substring buf i1 (j - i1)] else tokens)).
  { destruct (0 <? j - i1)%nat; [|exact Hacc].
    apply Forall_app. split; [exact Hacc|]. constructor; [|constructor].
    unfold blank_free, substring. rewrite list_ascii_of_string_of_list_ascii.
    apply take_blank_free; [lia | exact Hchars]. }
  destruct (_ && _); apply IH; try exact Hq; [|exact Hacc'].
  apply Forall_app. split; [exact Hacc'|]. constructor; [reflexivity|constructor].
Qed.

(** X4: on a line without quote characters no token has a blank in it. *)
Theorem parse_input_tokens_blank_free (input : string) :
  quote_free input = true ->
  Forall (fun t => blank_free t = true) (parse_input input).
Proof.
  intros Hq. unfold parse_input. apply tokenize_blank_free; [exact Hq | constructor].
Qed.

Lemma parse_input_tokens_blank_free_witness :
  Forall (fun t => blank_free t = true) (parse_input "ls -l | wc").
Proof. apply parse_input_tokens_blank_free. reflexivity. Defined.

End TokenizerShape.

Section TokenizerQuotes.

Lemma quote_not_space c : is_quote c = true -> isspace c = false.
Proof.
  intros Hq. destruct (isspace c) eqn:Hs; [|reflexivity].
  apply space_not_quote in Hs. congruence.
Qed.

(** Inside quotes the scan runs over every character that is not the
    closing quote, blanks and quotes of the other kind included. *)
Lemma find_end_inside ls : forall fuel pre rest q,
  forallb (fun c => negb (Ascii.eqb c q)) ls = true ->
  find_end (length ls + fuel) (pre ++ ls ++ rest) (length pre) true q
  = find_end fuel (pre ++ ls ++ rest) (length pre + length ls) true q.
Proof.
  induction ls as [|c ls IH]; intros fuel pre rest q Hl.
  { cbn. rewrite Nat.add_0_r. reflexivity. }
  cbn [forallb] in Hl. apply andb_prop in Hl as [Hc Hl].
  apply negb_true_iff in Hc.
  cbn [length Nat.add find_end].
  destruct (Nat.ltb_spec (length pre) (length (pre ++ (c :: ls) ++ rest))) as [_|Hge].
  2:{ rewrite !length_app in Hge. cbn in Hge. lia. }
  assert (Hch : char_at (pre ++ (c :: ls) ++ rest) (length pre) = c).
  { rewrite char_at_app_r by lia. rewrite Nat.sub_diag. reflexivity. }
  rewrite Hch, Hc. cbn [negb]. rewrite !andb_false_r. cbn [andb].
  replace (pre ++ (c :: ls) ++ rest) with ((pre ++ [c]) ++ ls ++ rest)
    by (rewrite <- app_assoc; reflexivity).
  replace (S (length pre)) with (length (pre ++ [c]))
    by (rewrite length_app; cbn; lia).
  rewrite IH by exact Hl. f_equal. rewrite length_app. cbn. lia.
Qed.

Lemma memmove_del_last (ls : list ascii) c :
  memmove_del (ls ++ [c]) (length ls) = ls.
Proof.
  unfold memmove_del. rewrite take_app_length.
  rewrite drop_ge by (rewrite length_app; cbn; lia). apply app_nil_r.
Qed.

(** X5: quotes are deleted and what stands between them is one token,
    blanks and quote characters of the other kind included; a quote that is
    never closed runs to the end of the line. *)
Theorem parse_input_quoted (q : ascii) (s : string) :
  is_quote q = true -> lacks q s = true -> s <> "" ->
  parse_input (String q s) = [s] /\
  parse_input (String q (s +:+ String q "")) = [s].
Proof.
  unfold lacks. intros Hq Hl Hne.
  set (ls := list_ascii_of_string s) in *.
  assert (Hlen : (0 < length ls)%nat).
  { destruct s; [congruence | cbn; lia]. }
  assert (Hs : string_of_list_ascii ls = s) by apply string_of_list_ascii_of_string.
  assert (Hqq : Ascii.eqb q q = true) by apply Ascii.eqb_refl.
  assert (Hfinish : forall fuel, tokenize fuel ls (length ls)
            (if (0 <? length ls - 0)%nat then [] ++ [substring ls 0 (length ls - 0)]
             else []) = [s]).
  { intros fuel. rewrite tokenize_done by lia.
    destruct (Nat.ltb_spec 0 (length ls - 0)); [|lia].
    unfold substring. rewrite drop_0, Nat.sub_0_r, firstn_all, Hs. reflexivity. }
  split.
  - unfold parse_input. cbn [list_ascii_of_string]. fold ls.
    cbn [tokenize].
    destruct (Nat.ltb_spec 0 (length (q :: ls))) as [_|]; [|cbn in *; lia].
    rewrite skip_space_plain by (apply quote_not_space; exact Hq).
    destruct (Nat.leb_spec (length (q :: ls)) 0) as [|_]; [cbn in *; lia|].
    rewrite (find_end_fuel _ (S (length ls + 1))) by (cbn; lia).
    cbn [find_end length]. 
    destruct (Nat.ltb_spec 0 (S (length ls))) as [_|]; [|lia].
    change (char_at (q :: ls) 0) with q. rewrite Hq. cbn [negb andb].
    change (memmove_del (q :: ls) 0) with ls.
    assert (Hin : find_end (length ls + 1) ls 0 true q
                  = find_end 1 ls (length ls) true q).
    { pose proof (find_end_inside ls 1 [] [] q Hl) as H.
      cbn [app length Nat.add] in H. rewrite app_nil_r in H. exact H. }
    rewrite Hin. cbn [find_end].
    destruct (Nat.ltb_spec (length ls) (length ls)) as [|_]; [lia|].
    rewrite skip_space_stop by lia. rewrite char_at_end.
    cbn [Ascii.eqb NUL zero andb Bool.eqb]. apply Hfinish.
  - unfold parse_input. cbn [list_ascii_of_string].
    rewrite list_ascii_of_string_app. fold ls. cbn [list_ascii_of_string].
    cbn [tokenize].
    destruct (Nat.ltb_spec 0 (length (q :: ls ++ [q]))) as [_|]; [|cbn in *; lia].
    rewrite skip_space_plain by (apply quote_not_space; exact Hq).
    destruct (Nat.leb_spec (length (q :: ls ++ [q])) 0) as [|_]; [cbn in *; lia|].
    rewrite (find_end_fuel _ (S (length ls + 2)))
      by (cbn; rewrite length_app; cbn; lia).
    cbn [find_end length].
    destruct (Nat.ltb_spec 0 (S (length (ls ++ [q])))) as [_|]; [|lia].
    change (char_at (q :: ls ++ [q]) 0) with q. rewrite Hq. cbn [negb andb].
    change (memmove_del (q :: ls ++ [q]) 0) with (ls ++ [q]).
    rewrite (find_end_inside ls 2 [] [q] q Hl : find_end (length ls + 2) (ls ++ [q]) 0 true q = _).
    cbn [app length Nat.add find_end].
    destruct (Nat.ltb_spec (length ls) (length (ls ++ [q]))) as [_|Hge].
    2:{ rewrite length_app in Hge. cbn in Hge. lia. }
    assert (Hch : char_at (ls ++ [q]) (length ls) = q).
    { rewrite char_at_app_r by lia. rewrite Nat.sub_diag. reflexivity. }
    rewrite Hch, Hq, Hqq. cbn [negb andb].
    rewrite memmove_del_last.
    destruct (Nat.ltb_spec (length ls) (length ls)) as [|_]; [lia|].
    rewrite skip_space_stop by lia. rewrite char_at_end.
    cbn [Ascii.eqb NUL zero andb Bool.eqb]. apply Hfinish.
Qed.

Lemma parse_input_quoted_witness :
  parse_input "'a b" = ["a b"] /\ parse_input "'a b'" = ["a b"].
Proof. apply (parse_input_quoted "'" "a b"); [reflexivity | reflexivity | discriminate]. Defined.

End TokenizerQuotes.

Section TokenizerWords.

Lemma skip_space_one fuel buf j :
  (S j < length buf)%nat ->
  isspace (char_at buf j) = true -> isspace (char_at buf (S j)) = false ->
  skip_space (S (S fuel)) buf j = S j.
Proof.
  intros Hj H1 H2. cbn [skip_space].
  destruct (Nat.ltb_spec j (length buf)) as [_|]; [|lia].
  rewrite H1, H2. cbn [andb]. rewrite andb_false_r. reflexivity.
Qed.

Lemma plain_word_chars w :
  plain_word w = true ->
  forallb plain (list_ascii_of_string w) = true /\
  (0 < length (list_ascii_of_string w))%nat.
Proof.
  unfold plain_word. intros H. apply andb_prop in H as [Hp Hn].
  split; [exact Hp|]. destruct w; [discriminate | cbn; lia].
Qed.

(** The first two characters of a line of words are not both a
    greater-than sign when its first word does not begin with two. *)
Lemma unwords_no_append w ws :
  plain_word w = true -> starts_append w = false ->
  Ascii.eqb (char_at (list_ascii_of_string (unwords (w :: ws))) 0) ">" &&
  Ascii.eqb (char_at (list_ascii_of_string (unwords (w :: ws))) 1) ">" = false.
Proof.
  intros Hp Hs.
  destruct w as [|c1 [|c2 w]]; [discriminate | |].
  - destruct ws as [|w2 ws]; cbn; [apply andb_false_r|].
    change (char_at (c1 :: " "%char :: list_ascii_of_string (unwords (w2 :: ws))) 1)
      with " "%char.
    apply andb_false_r.
  - destruct ws as [|w2 ws]; exact Hs.
Qed.

Lemma tokenize_unwords ws : forall fuel pre tokens,
  ws <> [] ->
  Forall (fun w => plain_word w = true) ws ->
  Forall (fun w => starts_append w = false) (tail ws) ->
  (length (list_ascii_of_string (unwords ws)) < fuel)%nat ->
  tokenize fuel (pre ++ list_ascii_of_string (unwords ws)) (length pre) tokens
  = tokens ++ ws.
Proof.
  induction ws as [|w ws IH]; intros fuel pre tokens Hne Hp Ha Hf; [congruence|].
  apply Forall_cons in Hp as [Hw Hp].
  destruct (plain_word_chars w Hw) as [Hpl Hlen].
  set (lw := list_ascii_of_string w) in *.
  assert (Hsw : string_of_list_ascii lw = w) by apply string_of_list_ascii_of_string.
  destruct fuel as [|fuel]; [lia|].
  destruct ws as [|w2 ws].
  - cbn [unwords] in *. fold lw in Hf |- *.
    rewrite (tokenize_word _ _ (length pre) (length (pre ++ lw)));
      [ | rewrite length_app; lia | | lia ].
    2:{ intros k Hk. rewrite length_app in Hk. rewrite char_at_app_r by lia.
        apply char_at_plain; [exact Hpl | lia]. }
    cbn zeta. rewrite skip_space_stop by lia. rewrite char_at_end.
    cbn [Ascii.eqb NUL zero andb Bool.eqb]. rewrite tokenize_done by lia.
    unfold substring. rewrite drop_app_length, length_app.
    replace (length pre + length lw - length pre)%nat with (length lw) by lia.
    rewrite firstn_all, Hsw. reflexivity.
  - cbn [tail] in Ha. apply Forall_cons in Ha as [Ha2 Ha].
    pose proof (Forall_inv Hp) as Hw2.
    destruct (plain_word_chars w2 Hw2) as [Hpl2 Hlen2].
    set (rest := list_ascii_of_string (unwords (w2 :: ws))) in *.
    assert (Hbuf : list_ascii_of_string (unwords (w :: w2 :: ws))
                   = lw ++ " "%char :: rest).
    { change (unwords (w :: w2 :: ws)) with (w +:+ " " +:+ unwords (w2 :: ws)).
      rewrite !list_ascii_of_string_app. reflexivity. }
    rewrite Hbuf in Hf |- *. rewrite length_app in Hf. cbn [length] in Hf.
    set (buf := pre ++ lw ++ " "%char :: rest).
    assert (Hrest0 : (0 < length rest)%nat).
    { unfold rest. destruct ws; cbn [unwords];
        rewrite ?list_ascii_of_string_app, ?length_app; lia. }
    assert (Hblen : length buf = (length pre + length lw + S (length rest))%nat).
    { unfold buf. rewrite !length_app. cbn [length]. lia. }
    assert (Hc : forall k, char_at buf (length pre + length lw + k)
                           = char_at (" "%char :: rest) k).
    { intros k. unfold buf. rewrite char_at_app_r by lia.
      rewrite char_at_app_r by lia. f_equal. lia. }
    assert (Hfirst : isspace (char_at rest 0) = false).
    { unfold rest. apply plain_not_space.
      destruct ws; cbn [unwords]; rewrite ?list_ascii_of_string_app;
        [|rewrite char_at_app_l by lia]; apply char_at_plain; (exact Hpl2 || lia). }
    rewrite (tokenize_word _ buf (length pre) (length pre + length lw));
      [ | lia | | ].
    2:{ intros k Hk. unfold buf. rewrite char_at_app_r by lia.
        rewrite char_at_app_l by lia. apply char_at_plain; [exact Hpl | lia]. }
    2:{ intros _. rewrite <- (Nat.add_0_r (length pre + length lw)), Hc. reflexivity. }
    cbn zeta.
    assert (Hsk : skip_space (length buf) buf (length pre + length lw)
                  = S (length pre + length lw)).
    { rewrite Hblen.
      replace (length pre + length lw + S (length rest))%nat
        with (S (S (length pre + length lw + (length rest - 1)))) by lia.
      apply skip_space_one.
      - lia.
      - rewrite <- (Nat.add_0_r (length pre + length lw)), Hc. reflexivity.
      - replace (S (length pre + length lw)) with (length pre + length lw + 1)%nat by lia.
        rewrite Hc. exact Hfirst. }
    rewrite Hsk.
    replace (S (length pre + length lw)) with (length pre + length lw + 1)%nat by lia.
    replace (S (length pre + length lw + 1)) with (length pre + length lw + 2)%nat by lia.
    rewrite !Hc.
    change (char_at (" "%char :: rest) 1) with (char_at rest 0).
    change (char_at (" "%char :: rest) 2) with (char_at rest 1).
    unfold rest at 1 2. rewrite (unwords_no_append w2 ws Hw2 Ha2).
    assert (Hsub : substring buf (length pre) (length pre + length lw - length pre) = w).
    { unfold substring, buf. rewrite drop_app_length.
      replace (length pre + length lw - length pre)%nat with (length lw) by lia.
      rewrite take_app_length. exact Hsw. }
    rewrite Hsub.
    replace buf with ((pre ++ lw ++ [" "%char]) ++ rest)
      by (unfold buf; rewrite <- !app_assoc; reflexivity).
    replace (length pre + length lw + 1)%nat with (length (pre ++ lw ++ [" "%char]))
      by (rewrite !length_app; cbn [length]; lia).
    unfold rest. rewrite IH; [ | discriminate | exact Hp | exact Ha | fold rest; lia ].
    rewrite <- app_assoc. reflexivity.
Qed.

(** X6: tokenizing undoes writing words on a line.  Words of characters
    that are no blanks and no quotes, written with one blank between
    neighbours, come back as the tokens, provided no word after the first
    begins with two greater-than signs (those would be split off as the
    append operator). *)
Theorem parse_input_unwords (ws : list string) :
  Forall (fun w => plain_word w = true) ws ->
  Forall (fun w => starts_append w = false) (tail ws) ->
  parse_input (unwords ws) = ws.
Proof.
  intros Hp Ha. destruct ws as [|w ws]; [reflexivity|].
  unfold parse_input.
  apply (tokenize_unwords (w :: ws) _ [] []); [discriminate | exact Hp | exact Ha | lia].
Qed.

Lemma parse_input_unwords_witness :
  parse_input "grep -v a|b <in >out" = ["grep"; "-v"; "a|b"; "<in"; ">out"].
Proof.
  apply (parse_input_unwords ["grep"; "-v"; "a|b"; "<in"; ">out"]);
    repeat constructor.
Defined.

End TokenizerWords.

(* ===================================================================== *)
(** * Further properties of the splitter *)
(* ===================================================================== *)

Section SplitterMore.

Lemma split_loop_bound tokens rest : forall i start commands i' start' commands',
  (length commands < max_cmds)%nat ->
  split_loop tokens rest i start commands = inr (i', start', commands') ->
  (length commands' < max_cmds)%nat.
Proof.
  induction rest as [|t rest IH]; intros i start commands i' start' commands' Hlen Hrun.
  - cbn in Hrun. injection Hrun as <- <- <-. exact Hlen.
  - cbn [split_loop] in Hrun. destruct (streq t "|").
    + destruct ((i =? start)%nat || (i <=? start)%nat); [discriminate|].
      case_bool_decide; [discriminate|].
      destruct (Nat.leb_spec max_cmds
                  (length (commands ++ [copy_tokens tokens start (i - start)])));
        [discriminate|].
      eapply IH; [|exact Hrun]. assumption.
    + eapply IH; eassumption.
Qed.

(** What holds of the segments the splitter returns. *)
Lemma split_pipeline_inv (tokens : list string) (segs : list (list string)) :
  split_pipeline tokens = inr segs ->
  segs <> [] /\ (length segs <= max_cmds)%nat /\
  Forall good_segment segs /\ join_pipeline segs = tokens.
Proof.
  unfold split_pipeline. intros H.
  destruct (split_loop tokens tokens 0 0 []) as [d|[[i start] commands]] eqn:Hloop;
    [discriminate|].
  assert (Hbound : (length commands < max_cmds)%nat).
  { eapply split_loop_bound; [|exact Hloop]. unfold max_cmds. cbn. lia. }
  destruct (split_loop_sound tokens tokens [] [] [] i start commands)
    as (pre & cur & Htok & -> & -> & Hcur & Hgood & Hjoin); auto.
  { apply not_elem_of_nil. }
  destruct (Nat.leb_spec (length tokens) (length pre)) as [|Hlt]; [discriminate|].
  injection H as <-.
  assert (Hc : copy_tokens tokens (length pre) (length tokens - length pre) = cur).
  { rewrite Htok at 1. rewrite <- (app_nil_r cur) at 1.
    rewrite Htok, length_app. apply copy_tokens_mid. }
  rewrite Hc. split; [destruct commands; discriminate|]. split; [|split].
  - rewrite length_app. cbn [length]. lia.
  - apply Forall_app. split; [exact Hgood|].
    constructor; [|constructor]. split; [|exact Hcur].
    intros ->. rewrite Htok, app_nil_r in Hlt. lia.
  - rewrite join_pipeline_snoc, Hjoin. symmetry. exact Htok.
Qed.

(** X7: when and what the splitter returns.  It returns the segments
    [segs] for a token sequence exactly when there are between one and
    [max_cmds] of them, each is non-empty and free of pipe tokens, and joined
    by pipe tokens they are the token sequence. *)
Theorem split_pipeline_returns (tokens : list string) (segs : list (list string)) :
  split_pipeline tokens = inr segs <->
  segs <> [] /\ (length segs <= max_cmds)%nat /\
  Forall good_segment segs /\ join_pipeline segs = tokens.
Proof.
  split; [apply split_pipeline_inv|].
  intros (Hne & Hlen & Hgood & <-).
  rewrite split_pipeline_join by assumption.
  destruct (Nat.leb_spec (length segs) max_cmds); [reflexivity | lia].
Qed.

Lemma pipe_tokens_app l1 l2 :
  pipe_tokens (l1 ++ l2) = (pipe_tokens l1 + pipe_tokens l2)%nat.
Proof. unfold pipe_tokens. rewrite List.filter_app, length_app. reflexivity. Qed.

Lemma pipe_tokens_good s : ("|" ∉ s) -> pipe_tokens s = 0%nat.
Proof.
  unfold pipe_tokens. induction s as [|t s IH]; intros H; [reflexivity|].
  apply not_elem_of_cons in H as [Ht Hs]. cbn [List.filter].
  assert (Hneq : streq t "|" = false) by (apply streq_false; congruence).
  rewrite Hneq. apply IH, Hs.
Qed.

Lemma pipe_tokens_join segs :
  Forall good_segment segs -> segs <> [] ->
  S (pipe_tokens (join_pipeline segs)) = length segs.
Proof.
  induction segs as [|s segs IH]; intros Hgood Hne; [congruence|].
  apply Forall_cons in Hgood as [[_ Hs] Hgood].
  destruct segs as [|s2 segs].
  - cbn [join_pipeline length]. rewrite pipe_tokens_good by exact Hs. reflexivity.
  - change (join_pipeline (s :: s2 :: segs))
      with (s ++ "|" :: join_pipeline (s2 :: segs)).
    rewrite pipe_tokens_app, pipe_tokens_good by exact Hs.
    change (pipe_tokens ("|" :: join_pipeline (s2 :: segs)))
      with (S (pipe_tokens (join_pipeline (s2 :: segs)))).
    rewrite IH by (try exact Hgood; discriminate). reflexivity.
Qed.

(** X8: the command count the splitter stores is the number of pipe tokens
    plus one and is at most ten, which the arrays of [execute_pipeline] (ten
    pipes, eleven pids) have room for. *)
Theorem split_pipeline_count (tokens : list string) (segs : list (list string)) :
  split_pipeline tokens = inr segs ->
  length segs = S (pipe_tokens tokens) /\ (length segs <= 10)%nat.
Proof.
  intros H. apply split_pipeline_inv in H as (Hne & Hlen & Hgood & <-).
  rewrite pipe_tokens_join by assumption.
  unfold max_cmds in Hlen. lia.
Qed.

Lemma split_pipeline_count_witness :
  length [["ls"]; ["sort"; "-r"]; ["wc"]]
    = S (pipe_tokens ["ls"; "|"; "sort"; "-r"; "|"; "wc"]) /\
  (length [["ls"]; ["sort"; "-r"]; ["wc"]] <= 10)%nat.
Proof.
  apply (split_pipeline_count ["ls"; "|"; "sort"; "-r"; "|"; "wc"]). reflexivity.
Defined.

End SplitterMore.

(* ===================================================================== *)
(** * Further properties of the command builder *)
(* ===================================================================== *)

Section BuilderMore.
Local Open Scope Z_scope.

Lemma count_args_trailing (body : list string) (op : string) :
  paired body -> is_redirect op = true ->
  count_args (body ++ [op]) = inl MissingRedirectTarget.
Proof.
  intros Hbody Hop.
  induction Hbody as [|t seg Ht _ IH|op' file seg Hop' _ IH]; cbn [app count_args].
  - rewrite Hop. reflexivity.
  - rewrite Ht, IH. reflexivity.
  - rewrite Hop'. exact IH.
Qed.

(** X9: an operator in last position is found before anything is opened.
    A segment made of arguments and operator-file pairs (each of [<], [>],
    [2>] taking the token after it as its file name) and ending in one
    more operator is rejected by [parse_command] with the missing-file
    syntax error, and the state is otherwise as before the call: the files
    named by the pairs in front are neither opened, created nor emptied. *)
Theorem parse_command_syntax_first (body : list string) (op : string)
    (w : world) :
  paired body -> is_redirect op = true ->
  parse_command (body ++ [op]) 0 (length (body ++ [op])) w
  = (None, report MissingRedirectTarget w).
Proof.
  intros Hbody Hop. unfold parse_command.
  rewrite Nat.sub_0_r, drop_0, firstn_all.
  rewrite (count_args_trailing body op Hbody Hop). reflexivity.
Qed.

Lemma parse_command_syntax_first_witness :
  parse_command (["sort"; ">"; "out.txt"] ++ ["<"]) 0
    (length (["sort"; ">"; "out.txt"] ++ ["<"])) precious_shell
  = (None, report MissingRedirectTarget precious_shell).
Proof.
  apply (parse_command_syntax_first ["sort"; ">"; "out.txt"] "<" precious_shell).
  - apply paired_argument; [reflexivity|].
    apply paired_redirection; [reflexivity|]. apply paired_nil.
  - reflexivity.
Defined.

(** What the second loop adds to the argument vector. *)
Lemma build_args_arguments seg : forall cmd w cmd' w',
  build_args seg cmd w = (inr cmd', w') ->
  exists new, args cmd' = args cmd ++ new /\
    count_args seg = inr (length new) /\
    Forall (fun t => is_redirect t = false) new /\ sublist new seg.
Proof.
  induction seg as [seg IH] using (induction_ltof1 _ (@length string)).
  unfold ltof in IH. intros cmd w cmd' w' Hrun.
  destruct seg as [|t rest].
  { cbn in Hrun. injection Hrun as <- <-. exists []. rewrite app_nil_r.
    repeat split; constructor. }
  cbn [build_args count_args] in *. unfold is_redirect.
  destruct (streq t "<") eqn:H1; [|destruct (streq t ">") eqn:H2;
    [|destruct (streq t "2>") eqn:H3]]; cbn [orb].
  4: { apply IH in Hrun as (new & Hargs & Hcount & Hop & Hsub); [|cbn; lia].
       cbn [args] in Hargs. exists (t :: new). rewrite Hargs, <- app_assoc, Hcount.
       repeat split; [|apply sublist_skip; exact Hsub].
       constructor; [|exact Hop]. unfold is_redirect. rewrite H1, H2, H3. reflexivity. }
  all: destruct rest as [|file rest']; [discriminate|].
  all: match type of Hrun with context [open ?f ?fl ?w] =>
         destruct (open f fl w) as [fd w1] end.
  all: destruct (fd <? 0); [discriminate|].
  all: apply IH in Hrun as (new & Hargs & Hcount & Hop & Hsub); [|cbn; lia].
  all: exists new; cbn [args] in Hargs; repeat split; try assumption.
  all: apply sublist_cons, sublist_cons; exact Hsub.
Qed.

(** X10: the argument vector of the command [parse_command] returns.  It
    has exactly as many entries as the first loop counted (the allocation
    made from that count is filled and not overrun), none of them is one of
    the operators [<], [>], [2>], and they are tokens of the segment in their
    order. *)
Theorem parse_command_arguments (seg : list string) (w : world)
    (cmd : Command) (w' : world) :
  parse_command seg 0 (length seg) w = (Some cmd, w') ->
  count_args seg = inr (length (args cmd)) /\
  Forall (fun t => is_redirect t = false) (args cmd) /\
  sublist (args cmd) seg /\ args cmd <> [].
Proof.
  unfold parse_command. rewrite Nat.sub_0_r, drop_0, firstn_all.
  destruct (count_args seg) as [d|[|n]] eqn:Hc; try discriminate.
  destruct (build_args seg _ w) as [[d|c] w1] eqn:Hb; [discriminate|].
  intros H. injection H as <- <-.
  apply build_args_arguments in Hb as (new & Hargs & Hcount & Hop & Hsub).
  cbn [args app] in Hargs. subst new.
  split; [rewrite <- Hc; exact Hcount|]. split; [exact Hop|]. split; [exact Hsub|].
  intros Hnil. rewrite Hnil, Hc in Hcount. discriminate.
Qed.

Lemma parse_command_arguments_witness :
  count_args ["sort"; "<"; "in.txt"; "-r"] = inr (length ["sort"; "-r"]) /\
  Forall (fun t => is_redirect t = false) ["sort"; "-r"] /\
  sublist ["sort"; "-r"] ["sort"; "<"; "in.txt"; "-r"] /\ ["sort"; "-r"] <> [].
Proof.
  apply (parse_command_arguments ["sort"; "<"; "in.txt"; "-r"] leak_shell
           (mkCommand ["sort"; "-r"] 3 (-1) (-1))
           (parse_command ["sort"; "<"; "in.txt"; "-r"] 0 4 leak_shell).2).
  vm_compute. reflexivity.
Defined.

End BuilderMore.

Section BuilderDescriptors.
Local Open Scope Z_scope.

(** [open] leaves every open descriptor as it is. *)
Lemma open_keeps_exact file fl w k f :
  fdt w !! k = Some f -> fdt (open file fl w).2 !! k = Some f.
Proof.
  intros Hk. destruct (lowest_free_spec (fdt w)) as (_ & Hfree & _).
  destruct (open_result file fl w) as [[_ ->]|[_ ->]]; [exact Hk|].
  rewrite lookup_insert_ne; [exact Hk|]. intros E. rewrite E in Hfree. congruence.
Qed.

Lemma build_args_keeps_exact seg : forall cmd w k f,
  fdt w !! k = Some f -> fdt (build_args seg cmd w).2 !! k = Some f.
Proof.
  induction seg as [seg IH] using (induction_ltof1 _ (@length string)).
  unfold ltof in IH. intros cmd w k f Hk.
  destruct seg as [|t rest]; [exact Hk|].
  cbn [build_args].
  destruct (streq t "<"); [|destruct (streq t ">"); [|destruct (streq t "2>")]].
  4: { apply IH; [simpl; lia | exact Hk]. }
  all: destruct rest as [|file rest']; [exact Hk|].
  all: match goal with |- context [open ?f' ?fl ?w] =>
         pose proof (open_keeps_exact f' fl w k f Hk) as Hop;
         destruct (open f' fl w) as [fd w1] end.
  all: cbn [snd] in Hop.
  all: destruct (fd <? 0)%Z; [exact Hop|].
  all: apply IH; [simpl; lia | exact Hop].
Qed.

Lemma parse_command_keeps_exact tokens start end_ w k f :
  fdt w !! k = Some f ->
  fdt (parse_command tokens start end_ w).2 !! k = Some f.
Proof.
  intros Hk. unfold parse_command.
  destruct (count_args _) as [d|[|n]]; try exact Hk.
  match goal with |- context [build_args ?s ?c ?w] =>
    pose proof (build_args_keeps_exact s c w k f Hk) as Hb;
    destruct (build_args s c w) as [[d|cmd] w1] end; exact Hb.
Qed.

(** X11: [parse_command] closes and rebinds nothing.  Whether it succeeds
    or fails, every descriptor that was open before the call is open on the
    same file or pipe after it; what the call opens itself is added to the
    table and stays there. *)
Theorem parse_command_keeps_descriptors (tokens : list string) (start end_ : nat)
    (w : world) (k : Z) (f : ofile) :
  fdt w !! k = Some f ->
  fdt (parse_command tokens start end_ w).2 !! k = Some f.
Proof. apply parse_command_keeps_exact. Qed.

Lemma parse_command_keeps_descriptors_witness :
  fdt (parse_command ["cat"; "<"; "in.txt"; ">"; "/no/out"] 0 5 wired_shell).2 !! 5
  = Some (PipeRead 0).
Proof. apply parse_command_keeps_descriptors. reflexivity. Defined.

Lemma open_files_keep file fl w path :
  files w !! path = Some "" -> files (open file fl w).2 !! path = Some "".
Proof.
  intros H. unfold open.
  repeat (case_bool_decide || case_match); cbn; try exact H;
    destruct (decide (file = path)) as [->|Hne];
    rewrite ?lookup_insert_eq, ?lookup_insert_ne by exact Hne; auto.
Qed.

Lemma open_files_exist file fl w path :
  is_Some (files w !! path) -> is_Some (files (open file fl w).2 !! path).
Proof.
  intros H. unfold open.
  repeat (case_bool_decide || case_match); cbn; try exact H;
    rewrite lookup_insert_is_Some; destruct (decide (file = path)); auto.
Qed.

Lemma field_of_keep seg seg' fl (P : option string -> Prop) fd w w' :
  (forall path, path ∈ seg -> path ∈ seg') ->
  (forall k f, fdt w !! k = Some f -> fdt w' !! k = Some f) ->
  (forall path, P (files w !! path) -> P (files w' !! path)) ->
  field_of seg fl P fd w -> field_of seg' fl P fd w'.
Proof.
  intros Hseg Hfd Hfs [?|(Hgt & path & Hin & Hf & HP)]; [left; assumption|right].
  split; [exact Hgt|]. exists path. auto.
Qed.

Lemma open_opened file fl w fd w' :
  stdio_in_use w -> open file fl w = (fd, w') -> (fd <? 0) = false ->
  2 < fd /\ fdt w' !! fd = Some (OpenFile file fl) /\
  is_Some (files w' !! file) /\ (fl = WrTrunc -> files w' !! file = Some "").
Proof.
  intros Hio Hop Hfd.
  pose proof (lowest_free_above_stdio w Hio) as Habove.
  revert Hop. unfold open.
  repeat (case_bool_decide || case_match); intros Hop; injection Hop as <- <-;
    try discriminate; cbn; rewrite ?lookup_insert_eq;
    repeat split; try assumption; try reflexivity; try discriminate; eauto.
Qed.

Lemma build_args_fields all seg : forall cmd w cmd' w',
  stdio_in_use w -> (forall p, p ∈ seg -> p ∈ all) ->
  field_of all RdOnly is_Some (input_fd cmd) w ->
  field_of all WrTrunc emptied (output_fd cmd) w ->
  field_of all WrTrunc emptied (error_fd cmd) w ->
  build_args seg cmd w = (inr cmd', w') ->
  field_of all RdOnly is_Some (input_fd cmd') w' /\
  field_of all WrTrunc emptied (output_fd cmd') w' /\
  field_of all WrTrunc emptied (error_fd cmd') w'.
Proof.
  induction seg as [seg IH] using (induction_ltof1 _ (@length string)).
  unfold ltof in IH. intros cmd w cmd' w' Hio Hsub Hi Ho He Hb.
  destruct seg as [|t rest].
  { cbn in Hb. injection Hb as <- <-. auto. }
  cbn [build_args] in Hb.
  destruct (streq t "<"); [|destruct (streq t ">"); [|destruct (streq t "2>")]].
  4: { eapply (IH rest); [simpl; lia | exact Hio | | | | | exact Hb]; cbn;
       try assumption. intros p Hp. apply Hsub, list_elem_of_further, Hp. }
  all: destruct rest as [|file rest']; [discriminate|].
  all: match type of Hb with context [open ?f' ?fl ?w0] =>
         pose proof (open_opened f' fl w0) as Hop;
         pose proof (open_handles f' fl w0) as Hoh;
         pose proof (fun k f => open_keeps_exact f' fl w0 k f) as Hk;
         pose proof (open_files_keep f' fl w0) as Hfk;
         pose proof (open_files_exist f' fl w0) as Hfe;
         destruct (open f' fl w0) as [fd w1] end.
  all: cbn [snd] in Hk, Hfk, Hfe.
  all: destruct (fd <? 0)%Z eqn:Hfd; [discriminate|].
  all: destruct (Hop fd w1 Hio eq_refl Hfd) as (Hgt & Hfdt & Hex & Htr).
  all: destruct (Hoh fd w1 Hio eq_refl Hfd) as (_ & Hio1 & _).
  all: assert (Hfile : file ∈ all)
    by (apply Hsub, list_elem_of_further, list_elem_of_here).
  all: eapply (IH rest'); [simpl; lia | exact Hio1 | | | | | exact Hb]; cbn.
  all: try (intros p Hp; apply Hsub; do 2 apply list_elem_of_further; exact Hp).
  all: try (right; split; [exact Hgt|]; exists file;
            split; [exact Hfile|]; split; [exact Hfdt|];
            first [exact Hex | apply Htr; reflexivity]).
  all: try (eapply field_of_keep; [| exact Hk | | eassumption]; auto).
Qed.

(** X12: what the redirection fields of a parsed command are.  In a shell
    whose standard streams are open, a successful [parse_command] leaves
    each of [input_fd], [output_fd] and [error_fd] at [-1] or at a
    descriptor above 2 that is open on a file named in the tokens: the
    input descriptor read-only on a file that exists, the output and the
    error descriptor write-only on a file that is now empty. *)
Theorem parse_command_fields (tokens : list string) (start end_ : nat)
    (w w' : world) (cmd : Command) :
  stdio_in_use w ->
  parse_command tokens start end_ w = (Some cmd, w') ->
  field_of tokens RdOnly is_Some (input_fd cmd) w' /\
  field_of tokens WrTrunc emptied (output_fd cmd) w' /\
  field_of tokens WrTrunc emptied (error_fd cmd) w'.
Proof.
  intros Hio Hp. unfold parse_command in Hp.
  destruct (count_args _) as [d|[|n]]; try discriminate.
  match type of Hp with context [build_args ?s ?c ?w0] =>
    pose proof (build_args_fields tokens s c w0) as Hb;
    destruct (build_args s c w0) as [[d|cmd1] w1] end; [discriminate|].
  injection Hp as <- <-.
  apply (Hb cmd1 w1 Hio); try reflexivity; try (left; reflexivity).
  intros p Hp. apply elem_of_take in Hp as (i & Hp & _).
  apply list_elem_of_lookup. rewrite lookup_drop in Hp. eauto.
Qed.

Lemma parse_command_fields_witness :
  field_of ["sort"; "<"; "in.txt"; ">"; "out.txt"] RdOnly is_Some 3
    (parse_command ["sort"; "<"; "in.txt"; ">"; "out.txt"] 0 5 leak_shell).2 /\
  field_of ["sort"; "<"; "in.txt"; ">"; "out.txt"] WrTrunc emptied 4
    (parse_command ["sort"; "<"; "in.txt"; ">"; "out.txt"] 0 5 leak_shell).2 /\
  field_of ["sort"; "<"; "in.txt"; ">"; "out.txt"] WrTrunc emptied (-1)
    (parse_command ["sort"; "<"; "in.txt"; ">"; "out.txt"] 0 5 leak_shell).2.
Proof.
  apply (parse_command_fields ["sort"; "<"; "in.txt"; ">"; "out.txt"] 0 5
           leak_shell _ (mkCommand ["sort"] 3 4 (-1))).
  - unfold stdio_in_use.
    repeat match goal with |- _ /\ _ => split end; vm_compute; eauto.
  - vm_compute; reflexivity.
Defined.

End BuilderDescriptors.


(* ===================================================================== *)
(** * Further properties of the single-command executor *)
(* ===================================================================== *)

Section SetupRedirection.
Local Open Scope Z_scope.

Lemma same_processes_refl w : same_processes w w.
Proof. repeat split. Qed.

Lemma same_processes_trans w1 w2 w3 :
  same_processes w1 w2 -> same_processes w2 w3 -> same_processes w1 w3.
Proof.
  intros (? & ? & ? & ? & ?) (? & ? & ? & ? & ?).
  repeat split; congruence.
Qed.

Lemma open_processes file fl w : same_processes w (open file fl w).2.
Proof.
  unfold open. repeat (case_bool_decide || case_match); repeat split.
Qed.

Lemma dup2_processes a b w : same_processes w (dup2 a b w).2.
Proof. unfold dup2. case_match; repeat split. Qed.

Lemma close_processes fd w : same_processes w (close fd w).
Proof. repeat split. Qed.

Lemma report_processes d w : same_processes w (report d w).
Proof. repeat split. Qed.

Lemma setup_loop_processes args : forall na w,
  same_processes w (setup_loop args na w).2.
Proof.
  induction args as [args IH] using (induction_ltof1 _ (@length string)).
  unfold ltof in IH. intros na w.
  destruct args as [|t rest]; [apply same_processes_refl|].
  cbn [setup_loop].
  destruct (streq t ">"); [|destruct (streq t "2>"); [|destruct (streq t "<");
    [|destruct (streq t ">>")]]].
  5: { apply IH. simpl; lia. }
  all: destruct rest as [|file rest']; [apply report_processes|].
  all: match goal with |- context [open ?f ?fl ?w0] =>
         pose proof (open_processes f fl w0) as Hop;
         destruct (open f fl w0) as [fd w1] end.
  all: cbn [snd] in Hop.
  all: destruct (fd <? 0);
    [eapply same_processes_trans; [exact Hop|apply report_processes]|].
  all: match goal with |- context [dup2 ?a ?b ?w0] =>
         pose proof (dup2_processes a b w0) as Hd;
         destruct (dup2 a b w0) as [r w2] end.
  all: cbn [snd] in Hd.
  all: eapply same_processes_trans; [exact Hop|].
  all: eapply same_processes_trans; [exact Hd|].
  all: destruct (r <? 0); cbn [snd];
    [ first [ eapply same_processes_trans;
                [apply report_processes | apply close_processes]
            | apply report_processes ]
    | eapply same_processes_trans;
        [apply (close_processes fd) | apply IH; simpl; lia] ].
Qed.

(** One redirection of [setup_redirection] that gets through: the file is
    opened on a fresh descriptor above the standard streams, copied onto
    the stream and the fresh descriptor closed again. *)
Lemma rebind_stream file fl target w fd w1 :
  stdio_in_use w -> 0 <= target <= 2 ->
  open file fl w = (fd, w1) -> (fd <? 0) = false ->
  exists w2,
    dup2 fd target w1 = (target, w2) /\
    fdt (close fd w2) = <[target := OpenFile file fl]> (fdt w) /\
    files (close fd w2) = files w1 /\ err (close fd w2) = err w1.
Proof.
  intros Hio Ht Hop Hfd.
  destruct (lowest_free_spec (fdt w)) as (_ & Hfree & _).
  pose proof (lowest_free_above_stdio w Hio) as Habove.
  pose proof (open_result file fl w) as Hres. rewrite Hop in Hres. cbn in Hres.
  destruct Hres as [[-> _]|[-> Hfdt]]; [discriminate|].
  assert (Hlook : fdt w1 !! lowest_free (fdt w) = Some (OpenFile file fl)).
  { rewrite Hfdt. apply lookup_insert_eq. }
  rewrite (dup2_open _ target w1 _ Hlook). eexists. split; [reflexivity|].
  split; [|split; reflexivity].
  cbn. rewrite Hfdt. apply map_eq. intros k.
  destruct (decide (k = lowest_free (fdt w))) as [->|Hk].
  - rewrite lookup_delete_eq, lookup_insert_ne by lia. symmetry. exact Hfree.
  - rewrite lookup_delete_ne by congruence.
    destruct (decide (k = target)) as [->|Hkt].
    + rewrite !lookup_insert_eq. reflexivity.
    + rewrite !lookup_insert_ne by congruence. reflexivity.
Qed.

Lemma stdio_in_use_insert target f w w' :
  stdio_in_use w -> fdt w' = <[target := f]> (fdt w) -> stdio_in_use w'.
Proof.
  intros (H0 & H1 & H2) E. unfold stdio_in_use. rewrite E.
  repeat split; rewrite lookup_insert_is_Some;
    match goal with |- ?a = ?b \/ _ => destruct (decide (a = b)); auto end.
Qed.

Lemma stdio_in_use_fdt w w' :
  fdt w' = fdt w -> stdio_in_use w -> stdio_in_use w'.
Proof. unfold stdio_in_use. intros ->. auto. Qed.

Lemma open_failed file fl w fd w1 :
  open file fl w = (fd, w1) -> (fd <? 0) = true -> w1 = w.
Proof.
  intros Hop Hfd. pose proof (open_result file fl w) as Hres.
  rewrite Hop in Hres. cbn in Hres.
  destruct Hres as [[_ ->]|[-> _]]; [reflexivity|].
  destruct (lowest_free_spec (fdt w)) as (Hge & _). lia.
Qed.

Lemma setup_loop_descriptors args : forall na w,
  stdio_in_use w ->
  stdio_in_use (setup_loop args na w).2 /\
  forall k, 2 < k -> fdt (setup_loop args na w).2 !! k = fdt w !! k.
Proof.
  induction args as [args IH] using (induction_ltof1 _ (@length string)).
  unfold ltof in IH. intros na w Hio.
  destruct args as [|t rest]; [split; [exact Hio|reflexivity]|].
  cbn [setup_loop].
  destruct (streq t ">"); [|destruct (streq t "2>"); [|destruct (streq t "<");
    [|destruct (streq t ">>")]]].
  5: { apply IH; [simpl; lia|exact Hio]. }
  all: destruct rest as [|file rest']; [split; [exact Hio|reflexivity]|].
  all: match goal with |- context [dup2 _ ?tg _] =>
         match goal with |- context [open ?f ?fl ?w0] =>
           pose proof (rebind_stream f fl tg w0) as Hre;
           pose proof (open_failed f fl w0) as Hof;
           destruct (open f fl w0) as [fd w1] end end.
  all: destruct (fd <? 0) eqn:Hfd;
    [rewrite (Hof fd w1 eq_refl Hfd); split; [exact Hio|reflexivity]|].
  all: destruct (Hre fd w1 Hio ltac:(unfold STDIN_FILENO, STDOUT_FILENO,
         STDERR_FILENO; lia) eq_refl Hfd) as (w2 & -> & Hfdt & _).
  all: match goal with |- context [?tg <? 0] =>
         change (tg <? 0) with false end.
  all: cbv iota.
  all: destruct (IH rest' ltac:(simpl; lia) na (close fd w2)
                   (stdio_in_use_insert _ _ _ _ Hio Hfdt)) as (Hio' & Hk).
  all: split; [exact Hio'|].
  all: intros k Hgt; rewrite (Hk k Hgt), Hfdt;
    apply lookup_insert_ne;
    unfold STDIN_FILENO, STDOUT_FILENO, STDERR_FILENO; lia.
Qed.

(** X13: [setup_redirection] leaves no descriptor of its own behind.  In a
    process whose standard streams are open, whatever the argument vector
    and however the call ends, the streams are still open afterwards and
    every descriptor above 2 is exactly as it was before: each file is
    opened, copied onto its stream and its own descriptor closed again. *)
Theorem setup_redirection_descriptors (args : list string) (w : world) :
  stdio_in_use w ->
  stdio_in_use (setup_redirection args w).2 /\
  forall k, 2 < k -> fdt (setup_redirection args w).2 !! k = fdt w !! k.
Proof. intros Hio. apply setup_loop_descriptors. exact Hio. Qed.

Lemma setup_redirection_descriptors_witness :
  stdio_in_use (setup_redirection ["sort"; "<"; "in.txt"; ">>"; "log"] leak_shell).2 /\
  forall k, 2 < k ->
    fdt (setup_redirection ["sort"; "<"; "in.txt"; ">>"; "log"] leak_shell).2 !! k
    = fdt leak_shell !! k.
Proof.
  apply setup_redirection_descriptors. unfold stdio_in_use.
  repeat match goal with |- _ /\ _ => split end; vm_compute; eauto.
Defined.

End SetupRedirection.

Section SetupArguments.
Local Open Scope Z_scope.

Lemma is_operator_false t :
  is_operator t = false ->
  streq t ">" = false /\ streq t "2>" = false /\ streq t "<" = false /\
  streq t ">>" = false.
Proof.
  unfold is_operator, operator_stream.
  destruct (streq t ">"); [discriminate|].
  destruct (streq t "2>"); [discriminate|].
  destruct (streq t "<"); [discriminate|].
  destruct (streq t ">>"); [discriminate|]. auto.
Qed.

Lemma setup_loop_arguments args : forall na w na' w',
  setup_loop args na w = (NewArgs na', w') ->
  exists kept, na' = na ++ kept /\
    Forall (fun t => is_operator t = false) kept /\ sublist kept args.
Proof.
  induction args as [args IH] using (induction_ltof1 _ (@length string)).
  unfold ltof in IH. intros na w na' w' H.
  destruct args as [|t rest].
  { cbn in H. injection H as <- <-. exists []. rewrite app_nil_r.
    repeat split; constructor. }
  cbn [setup_loop] in H.
  assert (Hop : is_operator t =
    (streq t ">" || streq t "2>" || streq t "<" || streq t ">>")%bool).
  { unfold is_operator, operator_stream.
    destruct (streq t ">"), (streq t "2>"), (streq t "<"), (streq t ">>");
      reflexivity. }
  destruct (streq t ">"); [|destruct (streq t "2>"); [|destruct (streq t "<");
    [|destruct (streq t ">>")]]].
  5: { destruct (IH rest ltac:(simpl; lia) _ _ _ _ H) as (kept & -> & Hk & Hs).
       exists (t :: kept). rewrite <- app_assoc. split; [reflexivity|].
       split; [constructor; [exact Hop|exact Hk]|]. apply sublist_skip, Hs. }
  all: destruct rest as [|file rest']; [discriminate|].
  all: destruct (open _ _ _) as [fd w1]; destruct (fd <? 0); [discriminate|].
  all: destruct (dup2 _ _ _) as [r w2]; destruct (r <? 0); [discriminate|].
  all: destruct (IH rest' ltac:(simpl; lia) _ _ _ _ H) as (kept & -> & Hk & Hs).
  all: exists kept; split; [reflexivity|]; split; [exact Hk|].
  all: do 2 apply sublist_cons; exact Hs.
Qed.

Lemma setup_loop_plain args : forall na w,
  Forall (fun t => is_operator t = false) args ->
  setup_loop args na w = (NewArgs (na ++ args), w).
Proof.
  induction args as [|t rest IH]; intros na w Hall.
  - cbn. rewrite app_nil_r. reflexivity.
  - inversion Hall as [|? ? Ht Hrest]; subst.
    destruct (is_operator_false t Ht) as (E1 & E2 & E3 & E4).
    cbn [setup_loop]. rewrite E1, E2, E3, E4, (IH _ _ Hrest), <- app_assoc.
    reflexivity.
Qed.

Lemma setup_loop_prefix cmd rest na w :
  Forall (fun t => is_operator t = false) cmd ->
  setup_loop (cmd ++ rest) na w = setup_loop rest (na ++ cmd) w.
Proof.
  revert na. induction cmd as [|t cmd IH]; intros na Hall.
  - rewrite app_nil_r. reflexivity.
  - inversion Hall as [|? ? Ht Hrest]; subst.
    destruct (is_operator_false t Ht) as (E1 & E2 & E3 & E4).
    cbn [setup_loop app]. rewrite E1, E2, E3, E4, (IH _ Hrest), <- app_assoc.
    reflexivity.
Qed.

(** X14: the argument vector [setup_redirection] returns.  When the call
    returns a vector, it is a subsequence of the tokens given, in their
    order, and holds none of the operators [>], [2>], [<] and [>>]: every
    operator is removed together with the token after it and nothing else
    is. *)
Theorem setup_redirection_arguments (args new_args : list string) (w w' : world) :
  setup_redirection args w = (NewArgs new_args, w') ->
  Forall (fun t => is_operator t = false) new_args /\ sublist new_args args.
Proof.
  intros H. destruct (setup_loop_arguments args [] w new_args w' H)
    as (kept & -> & Hk & Hs). auto.
Qed.

Lemma setup_redirection_arguments_witness :
  Forall (fun t => is_operator t = false) ["sort"; "-r"] /\
  sublist ["sort"; "-r"] ["sort"; "<"; "in.txt"; "-r"; ">>"; "log"].
Proof.
  apply (setup_redirection_arguments _ _ leak_shell
           (setup_redirection ["sort"; "<"; "in.txt"; "-r"; ">>"; "log"]
              leak_shell).2).
  vm_compute; reflexivity.
Defined.

(** X15: a command without operators runs as typed.  When no token is one
    of [>], [2>], [<], [>>], [setup_redirection] returns the tokens
    unchanged and touches neither descriptors nor files, so the child of
    [execute_command] calls [execvp] with the whole line and the
    descriptor table of the shell. *)
Theorem command_child_plain (args : list string) (w : world) :
  Forall (fun t => is_operator t = false) args ->
  setup_redirection args w = (NewArgs args, w) /\
  command_child args w = (Execvp args (fdt w), w).
Proof.
  intros Hall. unfold command_child, setup_redirection.
  rewrite (setup_loop_plain args [] w Hall). auto.
Qed.

Lemma command_child_plain_witness :
  setup_redirection ["ls"; "-l"; "a|b"] plain_shell
    = (NewArgs ["ls"; "-l"; "a|b"], plain_shell) /\
  command_child ["ls"; "-l"; "a|b"] plain_shell
    = (Execvp ["ls"; "-l"; "a|b"] (fdt plain_shell), plain_shell).
Proof.
  apply command_child_plain. repeat constructor.
Defined.

(** X16: one redirection at the end of a command, in a process whose
    descriptors 0, 1 and 2 are open.  For operator-free arguments followed
    by an operator and a file that [open] accepts with the flags of that
    operator, [setup_redirection] returns the arguments alone; the
    descriptor table is the one before the call with the stream of the
    operator ([>] and [>>]: 1, [2>]: 2, [<]: 0) bound to the file, the
    file system is as [open] left it and the call prints nothing. *)
Theorem setup_redirection_binds (cmd : list string) (t file : string)
    (target : Z) (fl : oflag) (w : world) :
  Forall (fun t => is_operator t = false) cmd ->
  operator_stream t = Some (target, fl) ->
  stdio_in_use w ->
  0 <= (open file fl w).1 ->
  exists w',
    setup_redirection (cmd ++ [t; file]) w = (NewArgs cmd, w') /\
    fdt w' = <[target := OpenFile file fl]> (fdt w) /\
    files w' = files (open file fl w).2 /\
    err w' = err w.
Proof.
  intros Hcmd Hop Hio Hfd. unfold setup_redirection.
  rewrite (setup_loop_prefix cmd [t; file] [] w Hcmd). cbn [app setup_loop].
  assert (Herr : err (open file fl w).2 = err w).
  { unfold open. repeat (case_bool_decide || case_match); reflexivity. }
  unfold operator_stream in Hop.
  destruct (streq t ">"); [|destruct (streq t "2>"); [|destruct (streq t "<");
    [|destruct (streq t ">>"); [|discriminate]]]].
  all: injection Hop as <- <-.
  all: match goal with |- context [dup2 _ ?tg _] =>
         match goal with |- context [open _ ?fl' _] =>
           pose proof (rebind_stream file fl' tg w) as Hre;
           assert (Htg : 0 <= tg <= 2)
             by (unfold STDIN_FILENO, STDOUT_FILENO, STDERR_FILENO; lia)
         end end.
  all: destruct (open file _ w) as [fd w1]; cbn [fst snd] in *.
  all: assert (Hneg : (fd <? 0) = false) by lia.
  all: rewrite Hneg.
  all: destruct (Hre fd w1 Hio Htg eq_refl Hneg)
         as (w2 & -> & Hfdt & Hfiles & Herr2).
  all: match goal with |- context [?tg <? 0] =>
         change (tg <? 0) with false end.
  all: cbv iota.
  all: exists (close fd w2); split; [reflexivity|].
  all: split; [exact Hfdt|]; split; [exact Hfiles|]; congruence.
Qed.

Lemma setup_redirection_binds_witness :
  exists w',
    setup_redirection (["sort"; "-r"] ++ [">>"; "out.txt"]) precious_shell
      = (NewArgs ["sort"; "-r"], w') /\
    fdt w' = <[1 := OpenFile "out.txt" WrAppend]> (fdt precious_shell) /\
    files w' = files (open "out.txt" WrAppend precious_shell).2 /\
    err w' = err precious_shell.
Proof.
  apply (setup_redirection_binds ["sort"; "-r"] ">>" "out.txt" 1 WrAppend
           precious_shell).
  - repeat constructor.
  - reflexivity.
  - unfold stdio_in_use.
    repeat match goal with |- _ /\ _ => split end; vm_compute; eauto.
  - vm_compute. discriminate.
Defined.

End SetupArguments.

Section SingleCommand.
Local Open Scope Z_scope.

Lemma command_child_processes args w :
  same_processes w (command_child args w).2.
Proof.
  unfold command_child, setup_redirection.
  pose proof (setup_loop_processes args [] w) as H.
  destruct (setup_loop args [] w) as [[na| |] w1]; exact H.
Qed.

Lemma execute_command_frame args w :
  fdt (execute_command args w) = fdt w /\
  cwd (execute_command args w) = cwd w /\
  exited (execute_command args w) = exited w /\
  ((nproc w = O /\ execute_command args w = report ForkFailed w) \/
   (nproc (execute_command args w) = nproc w /\
    exists o,
      procs (execute_command args w)
        = procs w ++ [Child (1 + Z.of_nat (length (procs w))) o] /\
      reaped (execute_command args w)
        = reaped w ++ [1 + Z.of_nat (length (procs w))])).
Proof.
  unfold execute_command, fork.
  destruct (nproc w) as [|n] eqn:Hn.
  { cbn. repeat split. left. auto. }
  pose proof (command_child_processes args w) as (_ & _ & Hr & Hc & He).
  destruct (command_child args w) as [o wc]. cbn [snd] in *.
  assert (Hp : (1 + Z.of_nat (length (procs w)) <? 0) = false)
    by (apply Z.ltb_ge; lia).
  rewrite Hp. cbn. repeat split; try assumption.
  right. split; [reflexivity|]. exists o. rewrite Hr. auto.
Qed.

(** X17: what [execute_command] does to the shell itself.  Whatever the
    arguments, the descriptor table, the working directory and the exit
    flag of the shell are as before.  Either no process could be created
    and the call only printed the [fork] diagnostic, or exactly one child
    was created and that child has been waited for when the call
    returns. *)
Theorem execute_command_parent (args : list string) (w : world) :
  fdt (execute_command args w) = fdt w /\
  cwd (execute_command args w) = cwd w /\
  exited (execute_command args w) = exited w /\
  ((nproc w = O /\ execute_command args w = report ForkFailed w) \/
   (nproc (execute_command args w) = nproc w /\
    exists o,
      procs (execute_command args w)
        = procs w ++ [Child (1 + Z.of_nat (length (procs w))) o] /\
      reaped (execute_command args w)
        = reaped w ++ [1 + Z.of_nat (length (procs w))])).
Proof. apply execute_command_frame. Qed.

End SingleCommand.


(* ===================================================================== *)
(** * Further properties of the pipeline executor *)
(* ===================================================================== *)

Section PipelineChildren.
Local Open Scope Z_scope.

Lemma close_pipes_cons fds ps w :
  close_pipes (fds :: ps) w = close_pipes ps (close fds.2 (close fds.1 w)).
Proof. reflexivity. Qed.

Lemma close_pipes_none ps : forall w k,
  fdt w !! k = None -> fdt (close_pipes ps w) !! k = None.
Proof.
  induction ps as [|fds ps IH]; intros w k Hk; [exact Hk|].
  rewrite close_pipes_cons. apply IH. cbn.
  rewrite !lookup_delete_None. auto.
Qed.

Lemma close_pipes_closed ps : forall w fds,
  fds ∈ ps ->
  fdt (close_pipes ps w) !! fds.1 = None /\
  fdt (close_pipes ps w) !! fds.2 = None.
Proof.
  induction ps as [|p ps IH]; intros w fds Hin.
  - inversion Hin.
  - rewrite close_pipes_cons. apply elem_of_cons in Hin as [->|Hin].
    + split; apply close_pipes_none; cbn; rewrite !lookup_delete_None; auto.
    + apply IH, Hin.
Qed.

Lemma apply_redirect_other fd target w k :
  k <> target ->
  fdt (apply_redirect fd target w) !! k = fdt w !! k.
Proof.
  intros Hk. unfold apply_redirect, dup2.
  destruct (fd =? -1); [reflexivity|].
  destruct (fdt w !! fd); [|reflexivity].
  cbn. apply lookup_insert_ne. congruence.
Qed.

Lemma pipes_open_elem pipes w fds :
  pipes_open pipes w -> fds ∈ pipes -> 2 < fds.1 /\ 2 < fds.2.
Proof.
  intros Hp Hin. unfold pipes_open in Hp. rewrite Forall_forall in Hp.
  destruct (Hp fds Hin) as (? & ? & _). auto.
Qed.

(** X18: a pipeline child keeps no pipe end of its own.  With the pipes of
    the pipeline open above the standard streams, the child of every stage
    reaches [execvp], and in the descriptor table it has there both ends
    of every pipe are closed: a pipe is reachable through descriptors 0
    and 1 only.  Every other descriptor above 2, the redirection files of
    all stages among them, is still open in the child as it was in the
    shell. *)
Theorem pipeline_child_closes_pipes (pipes : list (Z * Z)) (cmd_count i : nat)
    (cmd : Command) (w : world) :
  length pipes = (cmd_count - 1)%nat -> (i < cmd_count)%nat ->
  pipes_open pipes w ->
  exists t w',
    pipeline_child pipes cmd_count i cmd w = (Execvp (args cmd) t, w') /\
    Forall (fun fds : Z * Z => t !! fds.1 = None /\ t !! fds.2 = None) pipes /\
    (forall k, 2 < k ->
       Forall (fun fds : Z * Z => fds.1 <> k /\ fds.2 <> k) pipes ->
       t !! k = fdt w !! k).
Proof.
  intros Hlen Hi Hopen.
  destruct (pipeline_child_wired pipes cmd_count i cmd w Hlen Hi Hopen)
    as (w2 & -> & _ & _ & Hrest).
  assert (Htake : take (cmd_count - 1) pipes = pipes)
    by (apply take_ge; lia).
  rewrite Htake. cbv zeta. eexists _, _. split; [reflexivity|].
  assert (Habove : forall k, 2 < k ->
    fdt (apply_redirect (error_fd cmd) STDERR_FILENO
          (apply_redirect (output_fd cmd) STDOUT_FILENO
            (apply_redirect (input_fd cmd) STDIN_FILENO
              (close_pipes pipes w2)))) !! k
    = fdt (close_pipes pipes w2) !! k).
  { intros k Hk.
    rewrite !apply_redirect_other
      by (unfold STDIN_FILENO, STDOUT_FILENO, STDERR_FILENO; lia).
    reflexivity. }
  split.
  - apply Forall_forall. intros fds Hin.
    destruct (pipes_open_elem pipes w fds Hopen Hin) as (H1 & H2).
    rewrite !Habove by assumption. apply close_pipes_closed, Hin.
  - intros k Hk Hnot. rewrite Habove by exact Hk.
    rewrite close_pipes_lookup by exact Hnot. apply Hrest. lia.
Qed.

Lemma pipeline_child_closes_pipes_witness :
  exists t w',
    pipeline_child [(5, 6); (7, 8)] 3 1 sort_stage wired_shell
      = (Execvp (args sort_stage) t, w') /\
    Forall (fun fds : Z * Z => t !! fds.1 = None /\ t !! fds.2 = None)
      [(5, 6); (7, 8)] /\
    (forall k, 2 < k ->
       Forall (fun fds : Z * Z => fds.1 <> k /\ fds.2 <> k) [(5, 6); (7, 8)] ->
       t !! k = fdt wired_shell !! k).
Proof.
  apply pipeline_child_closes_pipes; [reflexivity | simpl; lia |].
  unfold pipes_open. repeat constructor; cbn; try lia; eexists; vm_compute; reflexivity.
Defined.

End PipelineChildren.

Section PipelineRun.
Local Open Scope Z_scope.

Lemma dup2_beside a b w : beside_fdt (dup2 a b w).2 = beside_fdt w.
Proof. unfold dup2. destruct (fdt w !! a); reflexivity. Qed.

Lemma close_pipes_beside ps : forall w,
  beside_fdt (close_pipes ps w) = beside_fdt w.
Proof.
  induction ps as [|fds ps IH]; intros w; [reflexivity|].
  rewrite close_pipes_cons, IH. reflexivity.
Qed.

Lemma apply_redirect_beside fd target w :
  beside_fdt (apply_redirect fd target w) = beside_fdt w.
Proof.
  unfold apply_redirect. destruct (fd =? -1); [reflexivity|apply dup2_beside].
Qed.

Lemma beside_fdt_fields w w' :
  beside_fdt w' = beside_fdt w ->
  files w' = files w /\ err w' = err w /\ reaped w' = reaped w /\
  nproc w' = nproc w /\ procs w' = procs w.
Proof. unfold beside_fdt. intros H. injection H. intros. auto. Qed.

(** A child that reaches [execvp] has changed its descriptor table and
    nothing else. *)
Lemma pipeline_child_beside pipes cmd_count i cmd w a t w' :
  pipeline_child pipes cmd_count i cmd w = (Execvp a t, w') ->
  beside_fdt w' = beside_fdt w.
Proof.
  unfold pipeline_child.
  assert (H1 : beside_fdt
    (if (0 <? i)%nat then dup2 (pipe_at pipes (i - 1)).1 STDIN_FILENO w
     else (0, w)).2 = beside_fdt w).
  { destruct (0 <? i)%nat; [apply dup2_beside|reflexivity]. }
  destruct (if (0 <? i)%nat then _ else _) as [r1 w1]. cbn [snd] in H1.
  destruct (r1 <? 0); [discriminate|].
  assert (H2 : beside_fdt
    (if (i <? cmd_count - 1)%nat
     then dup2 (pipe_at pipes i).2 STDOUT_FILENO w1 else (0, w1)).2
    = beside_fdt w1).
  { destruct (i <? cmd_count - 1)%nat; [apply dup2_beside|reflexivity]. }
  destruct (if (i <? cmd_count - 1)%nat then _ else _) as [r2 w2].
  cbn [snd] in H2. destruct (r2 <? 0); [discriminate|].
  intros H. injection H as _ _ <-.
  rewrite !apply_redirect_beside, close_pipes_beside. congruence.
Qed.

Lemma pipes_open_fdt pipes w w' :
  fdt w' = fdt w -> pipes_open pipes w -> pipes_open pipes w'.
Proof. unfold pipes_open. intros ->. auto. Qed.

(** The launch loop with the pipes open and a process slot for every
    command still to start. *)
Lemma spawn_run pipes cmd_count cmds : forall i pids w,
  length pipes = (cmd_count - 1)%nat -> (i + length cmds <= cmd_count)%nat ->
  pipes_open pipes w -> (length cmds <= nproc w)%nat ->
  exists children w',
    spawn pipes cmd_count i cmds pids w = (Some (pids ++ map pid children), w') /\
    fdt w' = fdt w /\ files w' = files w /\ err w' = err w /\
    reaped w' = reaped w /\ (nproc w' + length cmds = nproc w)%nat /\
    procs w' = procs w ++ children /\ Forall2 ran children cmds.
Proof.
  induction cmds as [|cmd cmds IH]; intros i pids w Hlen Hi Hopen Hn.
  { exists [], w. cbn. rewrite !app_nil_r, Nat.add_0_r.
    repeat split; constructor. }
  cbn [length] in Hi, Hn. cbn [spawn]. unfold fork.
  destruct (nproc w) as [|n] eqn:Hnproc; [lia|].
  destruct (pipeline_child_wired pipes cmd_count i cmd w Hlen ltac:(lia) Hopen)
    as (w2 & Hchild & _).
  cbv zeta in Hchild.
  pose proof (pipeline_child_beside _ _ _ _ _ _ _ _ Hchild) as Hb.
  apply beside_fdt_fields in Hb as (Hf & He & Hr & _ & _).
  rewrite Hchild.
  match goal with |- context [Child ?p0 ?o0] => set (p := p0); set (o := o0) end.
  match goal with |- context [set_procs ?l ?w0] => set (w1 := set_procs l w0) end.
  assert (Hp : (p <? 0) = false) by (apply Z.ltb_ge; subst p; lia).
  rewrite Hp.
  destruct (IH (S i) (pids ++ [p]) w1 Hlen ltac:(lia)
              (pipes_open_fdt pipes w w1 eq_refl Hopen) ltac:(cbn; lia))
    as (children & w' & Hs & Hfdt & Hfiles & Herr & Hreaped & Hnp & Hprocs & Hran).
  exists (Child p o :: children), w'.
  rewrite Hs. cbn [map pid]. rewrite <- app_assoc. cbn [app].
  split; [reflexivity|]. split; [exact Hfdt|].
  split; [rewrite Hfiles; exact Hf|]. split; [rewrite Herr; exact He|].
  split; [rewrite Hreaped; exact Hr|].
  split; [cbn in Hnp; cbn [length]; lia|].
  split; [rewrite Hprocs; cbn; rewrite <- app_assoc; reflexivity|].
  constructor; [|exact Hran]. subst o. eexists. reflexivity.
Qed.

Lemma waitpid_all pids : forall w,
  fdt (fold_left (fun w p => waitpid p w) pids w) = fdt w /\
  files (fold_left (fun w p => waitpid p w) pids w) = files w /\
  err (fold_left (fun w p => waitpid p w) pids w) = err w /\
  procs (fold_left (fun w p => waitpid p w) pids w) = procs w /\
  reaped (fold_left (fun w p => waitpid p w) pids w) = reaped w ++ pids /\
  nproc (fold_left (fun w p => waitpid p w) pids w) = (nproc w + length pids)%nat.
Proof.
  induction pids as [|p pids IH]; intros w; cbn [fold_left length].
  - rewrite app_nil_r, Nat.add_0_r. repeat split.
  - destruct (IH (waitpid p w)) as (-> & -> & -> & -> & -> & ->).
    cbn. rewrite <- app_assoc. repeat split. lia.
Qed.

Lemma first_free_le (t : fdtable) fuel : forall n,
  first_free t fuel n <= n + Z.of_nat fuel.
Proof.
  induction fuel as [|fuel IH]; intros n; cbn [first_free]; [lia|].
  destruct (t !! n); [|lia]. specialize (IH (n + 1)). lia.
Qed.

Lemma lowest_free_le_size (t : fdtable) : lowest_free t <= Z.of_nat (size t).
Proof. unfold lowest_free. pose proof (first_free_le t (size t) 0). lia. Qed.

(** [pipe] when it succeeds: two fresh descriptors, the two ends of one
    new pipe. *)
Lemma pipe_exact w r wr w' :
  pipe w = (Some (r, wr), w') ->
  fdt w' = <[wr := PipeWrite (npipes w)]> (<[r := PipeRead (npipes w)]> (fdt w)) /\
  fdt w !! r = None /\ fdt w !! wr = None /\ r <> wr /\
  npipes w' = S (npipes w) /\ nofile w' = nofile w /\
  files w' = files w /\ err w' = err w /\ nproc w' = nproc w /\
  procs w' = procs w /\ reaped w' = reaped w.
Proof.
  unfold pipe. intros H. case_bool_decide; [discriminate|].
  injection H as <- <- <-.
  destruct (lowest_free_spec (fdt w)) as (_ & Hr & _).
  destruct (lowest_free_spec
              (<[lowest_free (fdt w) := PipeRead (npipes w)]> (fdt w)))
    as (_ & Hw & _).
  apply lookup_insert_None in Hw as [Hw Hne].
  repeat split; auto.
Qed.

Lemma pipe_succeeds w :
  Z.of_nat (size (fdt w)) + 2 <= nofile w ->
  exists r wr w', pipe w = (Some (r, wr), w') /\
    size (fdt w') = S (S (size (fdt w))).
Proof.
  intros Hroom. unfold pipe.
  destruct (lowest_free_spec (fdt w)) as (_ & Hr & _).
  set (t := <[lowest_free (fdt w) := PipeRead (npipes w)]> (fdt w)).
  assert (Hsize : size t = S (size (fdt w)))
    by (apply map_size_insert_None; exact Hr).
  pose proof (lowest_free_le_size t) as Hle.
  destruct (lowest_free_spec t) as (_ & Hw & _).
  rewrite bool_decide_false by lia.
  eexists _, _, _. split; [reflexivity|]. cbn.
  rewrite map_size_insert_None by exact Hw. rewrite Hsize. reflexivity.
Qed.

Lemma create_pipes_succeeds n : forall pipes w,
  Z.of_nat (size (fdt w)) + 2 * Z.of_nat n <= nofile w ->
  exists pipes' w', create_pipes n pipes w = (Some pipes', w').
Proof.
  induction n as [|n IH]; intros pipes w Hroom; cbn [create_pipes]; [eauto|].
  destruct (pipe_succeeds w ltac:(lia)) as (r & wr & w1 & Hp & Hsize).
  rewrite Hp.
  destruct (pipe_exact w r wr w1 Hp) as (_ & _ & _ & _ & _ & Hno & _).
  apply IH. rewrite Hsize, Hno. lia.
Qed.

(** The pipes [create_pipes] adds: fresh descriptors, pipe [j] of the call
    with both its ends on the same new pipe, everything else as it was. *)
Lemma create_pipes_numbered n : forall pipes w pipes' w',
  create_pipes n pipes w = (Some pipes', w') ->
  exists new, pipes' = pipes ++ new /\ length new = n /\
    (forall j fds, new !! j = Some fds ->
       fdt w' !! fds.1 = Some (PipeRead (npipes w + j)) /\
       fdt w' !! fds.2 = Some (PipeWrite (npipes w + j))) /\
    (forall fds, fds ∈ new -> fdt w !! fds.1 = None /\ fdt w !! fds.2 = None) /\
    (forall k, Forall (fun fds : Z * Z => fds.1 <> k /\ fds.2 <> k) new ->
       fdt w' !! k = fdt w !! k) /\
    files w' = files w /\ err w' = err w /\ nproc w' = nproc w /\
    procs w' = procs w /\ reaped w' = reaped w.
Proof.
  induction n as [|n IH]; intros pipes w pipes' w' H; cbn [create_pipes] in H.
  { injection H as <- <-. exists []. rewrite app_nil_r.
    repeat split; auto; intros; try discriminate.
    match goal with Hin : _ ∈ [] |- _ => inversion Hin end.
    match goal with Hin : _ ∈ [] |- _ => inversion Hin end. }
  destruct (pipe w) as [[[r wr]|] w1] eqn:Hp; [|discriminate].
  destruct (pipe_exact w r wr w1 Hp)
    as (Hfdt & Hr & Hw & Hne & Hnp & _ & Hf1 & He1 & Hn1 & Hp1 & Hr1).
  destruct (IH _ _ _ _ H)
    as (new & -> & Hlen & Hnum & Hfresh & Hframe & Hf & He & Hn & Hpr & Hre).
  assert (Hold : forall k, fdt w1 !! k = None -> fdt w !! k = None).
  { intros k. rewrite Hfdt. intros Hk.
    apply lookup_insert_None in Hk as [Hk _].
    apply lookup_insert_None in Hk as [Hk _]. exact Hk. }
  assert (Hr1' : fdt w1 !! r = Some (PipeRead (npipes w))).
  { rewrite Hfdt, lookup_insert_ne, lookup_insert_eq by congruence. reflexivity. }
  assert (Hw1' : fdt w1 !! wr = Some (PipeWrite (npipes w))).
  { rewrite Hfdt, lookup_insert_eq. reflexivity. }
  assert (Havoid : forall k, is_Some (fdt w1 !! k) ->
    Forall (fun fds : Z * Z => fds.1 <> k /\ fds.2 <> k) new).
  { intros k [f Hk]. apply Forall_forall. intros fds Hin.
    destruct (Hfresh fds Hin) as (H1 & H2).
    split; intros E; [rewrite E in H1|rewrite E in H2]; congruence. }
  exists ((r, wr) :: new). rewrite <- app_assoc. split; [reflexivity|].
  split; [cbn; lia|]. split; [|split; [|split]].
  - intros [|j] fds Hj; cbn in Hj.
    + injection Hj as <-. cbn [fst snd]. rewrite Nat.add_0_r.
      rewrite !Hframe by (apply Havoid; eauto). auto.
    + destruct (Hnum j fds Hj) as (H1 & H2). rewrite Hnp in H1, H2.
      rewrite <- Nat.add_succ_comm. auto.
  - intros fds Hin. apply elem_of_cons in Hin as [->|Hin]; [auto|].
    destruct (Hfresh fds Hin). auto.
  - intros k Hk. apply Forall_cons in Hk as [[Hk1 Hk2] Hk]. cbn in Hk1, Hk2.
    rewrite (Hframe k Hk), Hfdt, !lookup_insert_ne by congruence. reflexivity.
  - repeat split; congruence.
Qed.

End PipelineRun.

Section PipelineWiring.
Local Open Scope Z_scope.

Lemma pipes_open_nil w : pipes_open [] w.
Proof. constructor. Qed.

Lemma pipe_at_lookup pipes j fds :
  pipes !! j = Some fds -> pipe_at pipes j = fds.
Proof. intros H. unfold pipe_at. rewrite nth_lookup, H. reflexivity. Qed.

(** X19: neighbouring stages share one pipe.  In a shell whose
    descriptors 0, 1 and 2 are open, for a pipeline of at most 11 commands
    (the room of [pipes[10]] and [pids[11]]) and with the pipes as the
    creation loop made them, stage [i] and stage [i + 1] both reach
    [execvp]; when stage [i] has no output file and stage [i + 1] no input
    file, descriptor 1 of the first and descriptor 0 of the second are the
    write end and the read end of the same pipe, the [i]-th one of the
    call. *)
Theorem pipeline_neighbours_share_pipe (cmd_count i : nat) (a b : Command)
    (pipes : list (Z * Z)) (w w1 wi wj : world) :
  stdio_in_use w ->
  (cmd_count <= 11)%nat ->
  create_pipes (cmd_count - 1) [] w = (Some pipes, w1) ->
  fdt wi = fdt w1 -> fdt wj = fdt w1 ->
  (S i < cmd_count)%nat -> output_fd a = -1 -> input_fd b = -1 ->
  exists ta wa tb wb,
    pipeline_child pipes cmd_count i a wi = (Execvp (args a) ta, wa) /\
    pipeline_child pipes cmd_count (S i) b wj = (Execvp (args b) tb, wb) /\
    ta !! STDOUT_FILENO = Some (PipeWrite (npipes w + i)) /\
    tb !! STDIN_FILENO = Some (PipeRead (npipes w + i)).
Proof.
  intros Hio _ Hcreate Hwi Hwj Hi Ha Hb.
  destruct (create_pipes_open _ _ _ _ _ Hio (pipes_open_nil w) Hcreate)
    as (Hopen & Hlen & _).
  cbn [length Nat.add] in Hlen.
  destruct (create_pipes_numbered _ _ _ _ _ Hcreate)
    as (new & Hnew & _ & Hnum & _).
  cbn [app] in Hnew. subst new.
  assert (Hsome : is_Some (pipes !! i)) by (apply lookup_lt_is_Some_2; lia).
  destruct Hsome as [fds Hfds].
  destruct (Hnum i fds Hfds) as (Hread & Hwrite).
  pose proof (pipe_at_lookup pipes i fds Hfds) as Hat.
  pose proof (pipes_open_fdt pipes w1 wi Hwi Hopen) as Hopeni.
  pose proof (pipes_open_fdt pipes w1 wj Hwj Hopen) as Hopenj.
  destruct (pipeline_child_wired pipes cmd_count i a wi Hlen ltac:(lia) Hopeni)
    as (wa2 & -> & _ & Ha1 & _).
  destruct (pipeline_child_wired pipes cmd_count (S i) b wj Hlen ltac:(lia)
              Hopenj) as (wb2 & -> & Hb0 & _ & _).
  cbv zeta. eexists _, _, _, _. split; [reflexivity|]. split; [reflexivity|].
  split.
  - rewrite Ha. change (apply_redirect (-1) STDOUT_FILENO ?x) with x.
    rewrite !apply_redirect_other
      by (unfold STDIN_FILENO, STDOUT_FILENO, STDERR_FILENO; lia).
    rewrite close_pipes_lookup
      by (apply (pipes_avoid pipes wi); [exact Hopeni|left; unfold STDOUT_FILENO; lia]).
    unfold STDOUT_FILENO. rewrite Ha1.
    replace (i <? cmd_count - 1)%nat with true
      by (symmetry; apply Nat.ltb_lt; lia).
    rewrite Hat, Hwi. exact Hwrite.
  - rewrite Hb. rewrite !apply_redirect_other
      by (unfold STDIN_FILENO, STDOUT_FILENO, STDERR_FILENO; lia).
    change (apply_redirect (-1) STDIN_FILENO ?x) with x.
    rewrite close_pipes_lookup
      by (apply (pipes_avoid pipes wj); [exact Hopenj|left; unfold STDIN_FILENO; lia]).
    unfold STDIN_FILENO. rewrite Hb0.
    change (0 <? S i)%nat with true. cbv iota.
    replace (S i - 1)%nat with i by lia.
    rewrite Hat, Hwj. exact Hread.
Qed.

Lemma pipeline_neighbours_share_pipe_witness :
  exists ta wa tb wb,
    pipeline_child [(3, 4); (5, 6)] 3 1 (stage "sort")
      (create_pipes 2 [] plain_shell).2 = (Execvp ["sort"] ta, wa) /\
    pipeline_child [(3, 4); (5, 6)] 3 2 (stage "wc")
      (create_pipes 2 [] plain_shell).2 = (Execvp ["wc"] tb, wb) /\
    ta !! STDOUT_FILENO = Some (PipeWrite (0 + 1)) /\
    tb !! STDIN_FILENO = Some (PipeRead (0 + 1)).
Proof.
  apply (pipeline_neighbours_share_pipe 3 1 (stage "sort") (stage "wc")
           [(3, 4); (5, 6)] plain_shell (create_pipes 2 [] plain_shell).2).
  - unfold stdio_in_use.
    repeat match goal with |- _ /\ _ => split end; vm_compute; eauto.
  - lia.
  - vm_compute; reflexivity.
  - reflexivity.
  - reflexivity.
  - lia.
  - reflexivity.
  - reflexivity.
Defined.

(** X20: a pipeline that has the room it needs leaves no descriptor and no
    child behind.  In a shell whose descriptors 0, 1 and 2 are open, for
    at most 11 commands (the room of [pipes[10]] and [pids[11]]), with two
    free descriptor numbers for every pipe and one process for every
    command, [execute_pipeline] creates one child per command, each of
    which reaches [execvp] with the argument vector of its command, and
    waits for all of them in order; when it returns, the descriptor table
    of the shell is the one it started with and as many processes can be
    created as before. *)
Theorem execute_pipeline_success (cmds : list Command) (w : world) :
  stdio_in_use w ->
  (length cmds <= 11)%nat ->
  Z.of_nat (size (fdt w)) + 2 * Z.of_nat (length cmds - 1) <= nofile w ->
  (length cmds <= nproc w)%nat ->
  exists children,
    Forall2 ran children cmds /\
    procs (execute_pipeline cmds (length cmds) w) = procs w ++ children /\
    reaped (execute_pipeline cmds (length cmds) w)
      = reaped w ++ map pid children /\
    fdt (execute_pipeline cmds (length cmds) w) = fdt w /\
    nproc (execute_pipeline cmds (length cmds) w) = nproc w.
Proof.
  intros Hio _ Hroom Hproc.
  destruct (create_pipes_succeeds (length cmds - 1) [] w Hroom)
    as (pipes & w1 & Hcreate).
  destruct (create_pipes_open _ _ _ _ _ Hio (pipes_open_nil w) Hcreate)
    as (Hopen & Hlen & _).
  cbn [length Nat.add] in Hlen.
  destruct (create_pipes_numbered _ _ _ _ _ Hcreate)
    as (new & Hnew & _ & _ & Hfresh & Hframe & Hf1 & He1 & Hn1 & Hp1 & Hr1).
  cbn [app] in Hnew. subst new.
  destruct (spawn_run pipes (length cmds) cmds 0 [] w1 Hlen ltac:(lia) Hopen
              ltac:(lia))
    as (children & w2 & Hspawn & Hfdt2 & Hf2 & He2 & Hr2 & Hn2 & Hp2 & Hran).
  cbn [app] in Hspawn.
  exists children. split; [exact Hran|].
  unfold execute_pipeline.
  rewrite Hcreate, firstn_all, Hspawn, (take_ge pipes) by lia.
  destruct (waitpid_all (map pid children) (close_pipes pipes w2))
    as (-> & _ & _ & -> & -> & ->).
  destruct (beside_fdt_fields _ _ (close_pipes_beside pipes w2))
    as (_ & _ & -> & -> & ->).
  rewrite length_map.
  assert (Hcount : length children = length cmds)
    by (eapply Forall2_length; exact Hran).
  split; [congruence|]. split; [congruence|]. split; [|lia].
  apply map_eq. intros k.
  destruct (decide (Forall (fun fds : Z * Z => fds.1 <> k /\ fds.2 <> k) pipes))
    as [Hk|Hk].
  - rewrite close_pipes_lookup by exact Hk. rewrite Hfdt2. apply Hframe, Hk.
  - apply not_Forall_Exists in Hk; [|intros fds; apply _].
    apply Exists_exists in Hk as (fds & Hin & Hends).
    destruct (close_pipes_closed pipes w2 fds Hin) as (Hc1 & Hc2).
    destruct (Hfresh fds Hin) as (Hn1' & Hn2').
    destruct (decide (fds.1 = k)) as [<-|Hne1]; [congruence|].
    destruct (decide (fds.2 = k)) as [<-|Hne2]; [congruence|].
    exfalso. apply Hends. auto.
Qed.

Lemma execute_pipeline_success_witness :
  exists children,
    Forall2 ran children [stage "ls"; stage "sort"; stage "wc"] /\
    procs (execute_pipeline [stage "ls"; stage "sort"; stage "wc"] 3 plain_shell)
      = procs plain_shell ++ children /\
    reaped (execute_pipeline [stage "ls"; stage "sort"; stage "wc"] 3 plain_shell)
      = reaped plain_shell ++ map pid children /\
    fdt (execute_pipeline [stage "ls"; stage "sort"; stage "wc"] 3 plain_shell)
      = fdt plain_shell /\
    nproc (execute_pipeline [stage "ls"; stage "sort"; stage "wc"] 3 plain_shell)
      = nproc plain_shell.
Proof.
  apply (execute_pipeline_success [stage "ls"; stage "sort"; stage "wc"]
           plain_shell).
  - unfold stdio_in_use.
    repeat match goal with |- _ /\ _ => split end; vm_compute; eauto.
  - simpl; lia.
  - vm_compute. discriminate.
  - vm_compute. lia.
Defined.

End PipelineWiring.


(* ===================================================================== *)
(** * Further properties of the shell *)
(* ===================================================================== *)

Section Lines.
Local Open Scope Z_scope.

Lemma strip_newline_app (s rest : string) :
  strip_newline (s +:+ String (ascii_of_nat 10) rest) = strip_newline s.
Proof.
  induction s as [|c s IH]; [reflexivity|].
  cbn [String.append strip_newline].
  change (String c s +:+ String (ascii_of_nat 10) rest)
    with (String c (s +:+ String (ascii_of_nat 10) rest)).
  cbn [strip_newline]. destruct (Ascii.eqb c (ascii_of_nat 10)); [reflexivity|].
  rewrite IH. reflexivity.
Qed.

(** X21: [execute_line] reads up to the first line feed.  Whatever follows
    the first line feed of the buffer is ignored: the buffer is executed
    as the text before it. *)
Theorem execute_line_stops_at_newline (s rest : string) (w : world) :
  execute_line (s +:+ String (ascii_of_nat 10) rest) w = execute_line s w.
Proof. unfold execute_line. rewrite strip_newline_app. reflexivity. Qed.

(** X22: a line of blanks does nothing.  When the text before the line
    feed is empty or made of blanks only, [execute_line] returns without
    any effect: no diagnostic, no process, no descriptor. *)
Theorem blank_line_does_nothing (line : string) (w : world) :
  blank (strip_newline line) = true -> execute_line line w = w.
Proof.
  intros Hb. unfold execute_line.
  destruct (streq (strip_newline line) ""); [reflexivity|].
  rewrite (parse_input_of_blanks _ Hb). reflexivity.
Qed.

Lemma blank_line_does_nothing_witness :
  execute_line ("   " +:+ String (ascii_of_nat 10) "") plain_shell = plain_shell.
Proof. apply blank_line_does_nothing. reflexivity. Defined.

Lemma handle_builtin_local tokens w :
  procs (handle_builtin tokens w).2 = procs w /\
  fdt (handle_builtin tokens w).2 = fdt w /\
  files (handle_builtin tokens w).2 = files w.
Proof.
  unfold handle_builtin. destruct tokens as [|arg0 rest]; [auto|].
  destruct (streq arg0 "cd").
  - destruct rest as [|dir rest]; [auto|]. case_bool_decide; auto.
  - destruct (streq arg0 "exit"); auto.
Qed.

(** X23: the built-ins come before pipes and redirections.  A line whose
    first token is [cd] or [exit] is handled by [handle_builtin] whatever
    else it holds: no process is created, no descriptor opened or closed
    and no file created or emptied; after [exit] the shell has ended. *)
Theorem builtin_line_is_local (line : string) (w : world)
    (arg0 : string) (rest : list string) :
  parse_input (strip_newline line) = arg0 :: rest ->
  arg0 = "cd" \/ arg0 = "exit" ->
  procs (execute_line line w) = procs w /\
  fdt (execute_line line w) = fdt w /\
  files (execute_line line w) = files w /\
  (arg0 = "exit" -> exited (execute_line line w) = true).
Proof.
  intros Hp Harg. unfold execute_line.
  destruct (streq (strip_newline line) "") eqn:Hs.
  { apply streq_true in Hs. rewrite Hs in Hp. discriminate. }
  rewrite Hp.
  pose proof (handle_builtin_local (arg0 :: rest) w) as (H1 & H2 & H3).
  destruct Harg as [->| ->].
  - cbn [handle_builtin] in *. change (streq "cd" "cd") with true in *.
    cbv iota in *.
    destruct rest as [|dir rest']; [|case_bool_decide];
      (split; [exact H1|split; [exact H2|split; [exact H3|discriminate]]]).
  - cbn [handle_builtin]. change (streq "exit" "cd") with false.
    change (streq "exit" "exit") with true. cbv iota.
    split; [reflexivity|split; [reflexivity|split; reflexivity]].
Qed.

Lemma builtin_line_is_local_witness :
  procs (execute_line "cd /tmp | ls > out.txt" plain_shell) = procs plain_shell /\
  fdt (execute_line "cd /tmp | ls > out.txt" plain_shell) = fdt plain_shell /\
  files (execute_line "cd /tmp | ls > out.txt" plain_shell) = files plain_shell /\
  ("cd" = "exit" -> exited (execute_line "cd /tmp | ls > out.txt" plain_shell) = true).
Proof.
  apply (builtin_line_is_local "cd /tmp | ls > out.txt" plain_shell "cd"
           ["/tmp"; "|"; "ls"; ">"; "out.txt"]).
  - vm_compute; reflexivity.
  - left; reflexivity.
Defined.

(** X24: a line without a pipe token leaves the descriptors of the shell
    alone.  Its redirections are made in the child only, so the descriptor
    table of the shell after the line is the one before it, whether the
    command ran, was rejected or could not be started. *)
Theorem pipe_free_line_keeps_descriptors (line : string) (w : world) :
  pipe_tokens (parse_input (strip_newline line)) = 0%nat ->
  fdt (execute_line line w) = fdt w.
Proof.
  intros Hpipes. unfold execute_line.
  destruct (streq (strip_newline line) ""); [reflexivity|].
  destruct (parse_input (strip_newline line)) as [|t tokens] eqn:Hp;
    [reflexivity|].
  pose proof (handle_builtin_local (t :: tokens) w) as (_ & Hfdt & _).
  destruct (handle_builtin (t :: tokens) w) as [[|] w1]; cbn [snd] in Hfdt;
    [exact Hfdt|].
  rewrite <- Hfdt. unfold execute_tokens.
  destruct (split_pipeline (t :: tokens)) as [d|segs] eqn:Hsplit; [reflexivity|].
  apply split_pipeline_inv in Hsplit as (Hne & _ & Hgood & Hjoin).
  pose proof (pipe_tokens_join segs Hgood Hne) as Hcount.
  rewrite Hjoin, Hpipes in Hcount. rewrite <- Hcount. cbn [Nat.eqb].
  apply execute_command_frame.
Qed.

Lemma pipe_free_line_keeps_descriptors_witness :
  fdt (execute_line "sort < in.txt > /no/out" leak_shell) = fdt leak_shell.
Proof. apply pipe_free_line_keeps_descriptors. vm_compute; reflexivity. Defined.

End Lines.

Section Cleanup.
Local Open Scope Z_scope.

Lemma close_command_none c w k :
  fdt w !! k = None -> fdt (close_command c w) !! k = None.
Proof.
  intros Hk. unfold close_command.
  destruct (input_fd c =? -1), (output_fd c =? -1), (error_fd c =? -1); cbn;
    rewrite ?lookup_delete_None; auto.
Qed.

Lemma close_commands_cons c cs w :
  close_commands (c :: cs) w = close_commands cs (close_command c w).
Proof. reflexivity. Qed.

Lemma close_commands_none cs : forall w k,
  fdt w !! k = None -> fdt (close_commands cs w) !! k = None.
Proof.
  induction cs as [|c cs IH]; intros w k Hk; [exact Hk|].
  rewrite close_commands_cons. apply IH, close_command_none, Hk.
Qed.

Lemma close_command_closed c w : closed_in (close_command c w) c.
Proof.
  unfold closed_in, close_command.
  repeat match goal with |- _ /\ _ => split end; intros Hne;
    apply Z.eqb_neq in Hne as Hb; rewrite ?Hb;
    destruct (input_fd c =? -1), (output_fd c =? -1), (error_fd c =? -1);
    try discriminate; cbn; rewrite ?lookup_delete_None; auto.
Qed.

Lemma closed_in_keep c w w' :
  (forall k, fdt w !! k = None -> fdt w' !! k = None) ->
  closed_in w c -> closed_in w' c.
Proof. intros Hk (H1 & H2 & H3). unfold closed_in. auto. Qed.

Lemma close_commands_closed cs : forall w c,
  c ∈ cs -> closed_in (close_commands cs w) c.
Proof.
  induction cs as [|c0 cs IH]; intros w c Hin; [inversion Hin|].
  rewrite close_commands_cons. apply elem_of_cons in Hin as [->|Hin].
  - eapply closed_in_keep; [|apply close_command_closed].
    intros k. apply close_commands_none.
  - apply IH, Hin.
Qed.


Lemma parse_commands_closed commands : forall cs w cs' w',
  parse_commands commands cs w = (false, cs', w') ->
  Forall (closed_in w') cs'.
Proof.
  induction commands as [|seg commands IH]; intros cs w cs' w' H;
    cbn [parse_commands] in H; [discriminate|].
  destruct (parse_command seg 0 (length seg) w) as [[cmd|] w1].
  - apply (IH _ _ _ _ H).
  - injection H as <- <-. apply Forall_forall. intros c Hin.
    apply close_commands_closed, Hin.
Qed.

(** X25: the cleanup after a rejected segment.  When [parse_command] fails
    on a segment of a pipeline, the loop of [execute_line] stops with the
    commands built before it, and every descriptor recorded in the fields
    of those commands has been closed. *)
Theorem parse_commands_failure_closes (commands : list (list string))
    (w w' : world) (cmd_structs : list Command) :
  parse_commands commands [] w = (false, cmd_structs, w') ->
  Forall (closed_in w') cmd_structs.
Proof. apply parse_commands_closed. Qed.

Lemma parse_commands_failure_closes_witness :
  Forall (closed_in
            (parse_commands [["sort"; "<"; "in.txt"]; ["cat"; ">"; "/no/out"]] []
               leak_shell).2)
    [mkCommand ["sort"] 3 (-1) (-1)].
Proof.
  apply (parse_commands_failure_closes
           [["sort"; "<"; "in.txt"]; ["cat"; ">"; "/no/out"]] leak_shell).
  vm_compute; reflexivity.
Defined.

End Cleanup.

Section Streams.
Local Open Scope Z_scope.

Lemma streams_kept_refl w : streams_kept w w.
Proof. intros k _. reflexivity. Qed.

Lemma streams_kept_trans w1 w2 w3 :
  streams_kept w1 w2 -> streams_kept w2 w3 -> streams_kept w1 w3.
Proof. intros H1 H2 k Hk. rewrite (H2 k Hk). apply H1, Hk. Qed.

Lemma streams_kept_fdt w w' : fdt w' = fdt w -> streams_kept w w'.
Proof. intros E k _. rewrite E. reflexivity. Qed.

Lemma streams_kept_stdio w w' :
  stdio_in_use w -> streams_kept w w' -> stdio_in_use w'.
Proof.
  intros (H0 & H1 & H2) Hk. unfold stdio_in_use, STDIN_FILENO, STDOUT_FILENO,
    STDERR_FILENO in *.
  rewrite !Hk by lia. auto.
Qed.

(** A step that keeps every open descriptor keeps the standard streams. *)
Lemma keeps_streams w w' :
  stdio_in_use w ->
  (forall k f, fdt w !! k = Some f -> fdt w' !! k = Some f) ->
  streams_kept w w'.
Proof.
  intros (H0 & H1 & H2) Hkeep k Hk.
  unfold STDIN_FILENO, STDOUT_FILENO, STDERR_FILENO in *.
  assert (Hsome : is_Some (fdt w !! k)).
  { assert (k = 0 \/ k = 1 \/ k = 2) as [->|[->| ->]] by lia; assumption. }
  destruct Hsome as [f Hf]. rewrite Hf. apply Hkeep, Hf.
Qed.

Lemma close_command_streams c w :
  fields_above c -> streams_kept w (close_command c w).
Proof.
  intros (Hi & Ho & He) k Hk. unfold close_command.
  destruct (Z.eqb_spec (input_fd c) (-1)), (Z.eqb_spec (output_fd c) (-1)),
    (Z.eqb_spec (error_fd c) (-1)); cbn;
    rewrite ?lookup_delete_ne by lia; reflexivity.
Qed.

Lemma close_commands_streams cs : forall w,
  Forall fields_above cs -> streams_kept w (close_commands cs w).
Proof.
  induction cs as [|c cs IH]; intros w Hall; [apply streams_kept_refl|].
  apply Forall_cons in Hall as [Hc Hall]. rewrite close_commands_cons.
  eapply streams_kept_trans; [apply close_command_streams, Hc|apply IH, Hall].
Qed.

Lemma command_ok_above c w : command_ok c w -> fields_above c.
Proof.
  intros (Hi & Ho & He). unfold fields_above.
  repeat match goal with |- _ /\ _ => split end;
    match goal with H : redirect_ok ?fd _ |- ?fd = _ \/ _ =>
      destruct H as [?|[? _]]; [left|right]; assumption end.
Qed.

Lemma parse_commands_streams commands : forall cs w,
  stdio_in_use w -> Forall fields_above cs ->
  Forall fields_above (parse_commands commands cs w).1.2 /\
  streams_kept w (parse_commands commands cs w).2.
Proof.
  induction commands as [|seg commands IH]; intros cs w Hio Hall;
    cbn [parse_commands].
  { split; [exact Hall|apply streams_kept_refl]. }
  pose proof (fun k f => parse_command_keeps_exact seg 0 (length seg) w k f)
    as Hkeep.
  pose proof (parse_command_handles seg 0 (length seg) w) as Hok.
  destruct (parse_command seg 0 (length seg) w) as [[cmd|] w1];
    cbn [snd] in Hkeep.
  - destruct (Hok cmd w1 Hio eq_refl) as (Hio1 & Hcmd & _).
    destruct (IH (cs ++ [cmd]) w1 Hio1) as (Habove & Hkept).
    { apply Forall_app. split; [exact Hall|].
      constructor; [eapply command_ok_above; exact Hcmd|constructor]. }
    split; [exact Habove|].
    eapply streams_kept_trans; [apply keeps_streams; [exact Hio|exact Hkeep]|].
    exact Hkept.
  - cbn [fst snd]. split; [exact Hall|].
    eapply streams_kept_trans; [apply keeps_streams; [exact Hio|exact Hkeep]|].
    apply close_commands_streams, Hall.
Qed.

Lemma pipe_keeps w k f :
  fdt w !! k = Some f -> fdt (pipe w).2 !! k = Some f.
Proof.
  intros Hk. unfold pipe. case_bool_decide; [exact Hk|]. cbn.
  destruct (lowest_free_spec (fdt w)) as (_ & Hr & _).
  destruct (lowest_free_spec
              (<[lowest_free (fdt w) := PipeRead (npipes w)]> (fdt w)))
    as (_ & Hw & _).
  assert (Hne : k <> lowest_free (fdt w)) by (intros ->; congruence).
  rewrite lookup_insert_ne.
  - rewrite lookup_insert_ne by congruence. exact Hk.
  - intros E. rewrite E, lookup_insert_ne in Hw by congruence. congruence.
Qed.

Lemma create_pipes_keeps n : forall pipes w k f,
  fdt w !! k = Some f -> fdt (create_pipes n pipes w).2 !! k = Some f.
Proof.
  induction n as [|n IH]; intros pipes w k f Hk; cbn [create_pipes];
    [exact Hk|].
  pose proof (pipe_keeps w k f Hk) as Hp.
  destruct (pipe w) as [[fds|] w1]; cbn [snd] in Hp; [|exact Hp].
  apply IH, Hp.
Qed.

Lemma spawn_fdt pipes cmd_count cmds : forall i pids w,
  fdt (spawn pipes cmd_count i cmds pids w).2 = fdt w.
Proof.
  induction cmds as [|cmd cmds IH]; intros i pids w; cbn [spawn];
    [reflexivity|].
  unfold fork. destruct (nproc w) as [|n]; [reflexivity|].
  destruct (pipeline_child pipes cmd_count i cmd w) as [o wc].
  destruct (1 + Z.of_nat (length (procs w)) <? 0); [reflexivity|].
  rewrite IH. reflexivity.
Qed.

Lemma execute_pipeline_streams cmds cmd_count w :
  stdio_in_use w -> streams_kept w (execute_pipeline cmds cmd_count w).
Proof.
  intros Hio. unfold execute_pipeline.
  pose proof (fun k f => create_pipes_keeps (cmd_count - 1) [] w k f) as Hkeep.
  pose proof (create_pipes_open (cmd_count - 1) [] w) as Hopen.
  destruct (create_pipes (cmd_count - 1) [] w) as [[pipes|] w1];
    cbn [snd] in Hkeep.
  2: { apply keeps_streams; assumption. }
  destruct (Hopen pipes w1 Hio (pipes_open_nil w) eq_refl) as (Hpipes & _ & _).
  eapply streams_kept_trans; [apply keeps_streams; [exact Hio|exact Hkeep]|].
  pose proof (spawn_fdt pipes cmd_count (take cmd_count cmds) 0 [] w1) as Hs.
  destruct (spawn pipes cmd_count 0 (take cmd_count cmds) [] w1)
    as [[pids|] w2]; cbn [snd] in Hs.
  2: { apply streams_kept_fdt, Hs. }
  intros k Hk.
  destruct (waitpid_all pids (close_pipes (take (cmd_count - 1) pipes) w2))
    as (-> & _).
  rewrite close_pipes_lookup, Hs; [reflexivity|].
  apply (pipes_avoid pipes w2); [apply (pipes_open_fdt pipes w1); assumption|].
  left. lia.
Qed.

Lemma execute_tokens_streams tokens w :
  stdio_in_use w -> streams_kept w (execute_tokens tokens w).
Proof.
  intros Hio. unfold execute_tokens.
  destruct (split_pipeline tokens) as [d|commands];
    [apply streams_kept_fdt; reflexivity|].
  destruct (length commands =? 1)%nat.
  { apply streams_kept_fdt, execute_command_frame. }
  destruct (parse_commands_streams commands [] w Hio ltac:(constructor))
    as (Habove & Hkept).
  destruct (parse_commands commands [] w) as [[valid cs] w1].
  cbn [fst snd] in Habove, Hkept.
  eapply streams_kept_trans; [exact Hkept|].
  pose proof (streams_kept_stdio _ _ Hio Hkept) as Hio1.
  destruct valid.
  - eapply streams_kept_trans; [apply execute_pipeline_streams, Hio1|].
    apply close_commands_streams, Habove.
  - eapply streams_kept_trans; [apply close_commands_streams, Habove|].
    apply streams_kept_fdt. reflexivity.
Qed.

(** X26: no command line takes the standard streams from the shell.  In a
    shell whose descriptors 0, 1 and 2 are open, whatever line is executed
    (built-in, single command or pipeline, run or rejected) these three
    descriptors refer to the same files or pipes afterwards.  Lines that
    end in the cleanup of command entries that were never assigned, which
    is what happens after a rejected pipeline segment, are left out. *)
Theorem execute_line_keeps_streams (line : string) (w : world) :
  stdio_in_use w ->
  heap_fault (execute_line line w) = false ->
  stdio_in_use (execute_line line w) /\ streams_kept w (execute_line line w).
Proof.
  intros Hio _.
  assert (Hkept : streams_kept w (execute_line line w)).
  { unfold execute_line.
    destruct (streq (strip_newline line) ""); [apply streams_kept_refl|].
    destruct (parse_input (strip_newline line)) as [|t tokens];
      [apply streams_kept_refl|].
    pose proof (handle_builtin_local (t :: tokens) w) as (_ & Hfdt & _).
    destruct (handle_builtin (t :: tokens) w) as [[|] w1]; cbn [snd] in Hfdt.
    - apply streams_kept_fdt, Hfdt.
    - eapply streams_kept_trans; [apply streams_kept_fdt, Hfdt|].
      apply execute_tokens_streams. unfold stdio_in_use. rewrite Hfdt.
      exact Hio. }
  split; [eapply streams_kept_stdio; eassumption|exact Hkept].
Qed.

Lemma execute_line_keeps_streams_witness :
  stdio_in_use (execute_line "sort < in.txt | cat > out.txt | wc" leak_shell) /\
  streams_kept leak_shell
    (execute_line "sort < in.txt | cat > out.txt | wc" leak_shell).
Proof.
  apply execute_line_keeps_streams.
  - unfold stdio_in_use.
    repeat match goal with |- _ /\ _ => split end; vm_compute; eauto.
  - vm_compute; reflexivity.
Defined.

End Streams.
